(** * Amazon SP-API ingestion pipeline: a shallow embedding

    The batch ingestion core of the repository is embedded here:
    - [sp_api/utils/sql_staging_definitions.py]  (StagingHandler: the staging
      store with its APPEND and REPLACE protocols and the processing-control
      ledger),
    - [sp_api/utils/batch_processor.py]          (BatchProcessor: chunking,
      pagination, retry loop, batching, run statistics),
    - [sp_api/utils/rate_limiter.py]             (RateLimiter.acquire),
    and around it the callers and helpers of that core:
    - [sp_api/main.py]                           (SPAPIProcessor.process_orders),
    - [sp_api/utils/sql_handler.py]              (SQLServerHandler._flatten_dict),
    - [sp_api/auth/authenticator.py]             (the token cache),
    - [sp_api/api/base_client.py]                (_do_request, _make_request and
      the request metrics).

    Python exceptions are values of [exn]; a computation either returns or
    raises, and it keeps the state it reached when it raises (a mutated dict
    stays mutated).  A datetime is an instant within the range of the type,
    and date arithmetic that leaves the range raises OverflowError.  The SQL
    server and the upstream API are the environment: the tables are lists of
    rows, every [with self._create_connection()] block is one transaction
    that the server either commits or refuses, and every query to the API is
    answered with finitely many pages. *)

From Stdlib Require Import ZArith QArith Lqa Lia List String.
From stdpp Require Import base option list gmap strings.

Local Open Scope string_scope.
Local Open Scope list_scope.
Local Open Scope nat_scope.
Local Open Scope stdpp_scope.

(** ** Exceptions and the state-and-exception monad *)

Inductive exn :=
| OperationalError (detail : string)   (* pyodbc: connection or statement refused *)
| ProgrammingError (detail : string)   (* pyodbc: the statement names an unknown table or column *)
| UpstreamError (status : Z)           (* an SP-API request that failed *)
| ValueError (detail : string)
| TypeError (detail : string)
| ZeroDivisionError
| UnboundLocalError (variable : string)
| AttributeError (attribute : string)
| OverflowError.                       (* a datetime or timedelta out of range *)

#[global] Instance exn_eq_dec : EqDecision exn.
Proof. solve_decision. Defined.

Inductive result (A : Type) :=
| Ok (a : A)
| Raise (e : exn).
Arguments Ok {A} a.
Arguments Raise {A} e.

(** A computation over a mutable state [S]. *)
Definition M (S A : Type) : Type := S → result A * S.

#[global] Instance M_ret {S} : MRet (M S) := λ A a s, (Ok a, s).
#[global] Instance M_bind {S} : MBind (M S) := λ A B f m s,
  match m s with
  | (Ok a, s') => f a s'
  | (Raise e, s') => (Raise e, s')
  end.

Definition raise {S A} (e : exn) : M S A := λ s, (Raise e, s).

(** [try: body  except Exception as e: handler e] *)
Definition try_except {S A} (body : M S A) (handler : exn → M S A) : M S A := λ s,
  match body s with
  | (Ok a, s') => (Ok a, s')
  | (Raise e, s') => handler e s'
  end.

(** A computation that does not touch the state. *)
Definition lift {S A} (r : result A) : M S A := λ s, (r, s).

Definition gets {S A} (f : S → A) : M S A := λ s, (Ok (f s), s).
Definition modify {S} (f : S → S) : M S unit := λ s, (Ok tt, f s).

(** ** Records fetched from upstream

    A record is a Python dict.  Of its values the pipeline looks only at
    strings: the business key, and the ISO-8601 text of [PurchaseDate], which
    is kept as the instant it denotes (microseconds, the resolution of
    [datetime]). *)

Inductive value :=
| VStr (s : string)
| VIso (instant : Z).

#[global] Instance value_eq_dec : EqDecision value.
Proof. solve_decision. Defined.

(** A dict keeps its items in insertion order; [record.get(key)] is [assoc]. *)
Fixpoint assoc {A} (k : string) (l : list (string * A)) : option A :=
  match l with
  | [] => None
  | (k', a) :: l' => if decide (k = k') then Some a else assoc k l'
  end.

Abbreviation record := (list (string * value)).

(** [datetime.fromisoformat] *)
Definition fromisoformat (v : value) : result Z :=
  match v with
  | VIso t => Ok t
  | VStr s => Raise (ValueError ("Invalid isoformat string: " +:+ s))
  end.

Definition uuid := nat.

Definition day : Z := 86400000000%Z.
Definition second : Z := 1000000%Z.
Definition timedelta_days (n : Z) : Z := (n * day)%Z.

(** A naive [datetime] is an instant in microseconds, counted from
    1970-01-01T00:00:00.  The type holds the instants from [datetime.min] =
    0001-01-01T00:00:00 to [datetime.max] = 9999-12-31T23:59:59.999999, and
    arithmetic that leaves this range raises OverflowError. *)
Definition datetime_min : Z := (-62135596800 * second)%Z.
Definition datetime_max : Z := (253402300800 * second - 1)%Z.

(** [timedelta(days=n)]: at most 999999999 days either way. *)
Definition timedelta (days : Z) : result Z :=
  if decide (-999999999 ≤ days ≤ 999999999)%Z then Ok (timedelta_days days)
  else Raise OverflowError.

(** [t + delta], for a datetime [t] and a timedelta [delta]. *)
Definition datetime_add (t delta : Z) : result Z :=
  if decide (datetime_min ≤ t + delta ≤ datetime_max)%Z then Ok (t + delta)%Z
  else Raise OverflowError.

(** ** The staging database *)

(** Column lists of the DDL in [STAGING_SCHEMAS], [ARCHIVE_SCHEMAS]. *)
Definition STAGING_SCHEMAS : list (string * list string) :=
  [ ("Orders", ["StagingId"; "AmazonOrderId"; "RawData"; "ProcessedDate";
                "ValidationStatus"; "ValidationMessage"; "IsDuplicate";
                "BatchId"; "InsertedAt"]);
    ("OrderItems", ["StagingId"; "AmazonOrderId"; "ASIN"; "RawData";
                    "ProcessedDate"; "ValidationStatus"; "ValidationMessage";
                    "IsDuplicate"; "BatchId"; "InsertedAt"]);
    ("Inventory", ["StagingId"; "SellerSKU"; "ASIN"; "RawData"; "ProcessedDate";
                   "ValidationStatus"; "ValidationMessage"; "IsDuplicate";
                   "BatchId"; "InsertedAt"]) ].

Definition ARCHIVE_SCHEMAS : list (string * list string) :=
  [ ("Orders", ["ArchiveId"; "OriginalId"; "AmazonOrderId"; "RawData";
                "ProcessedDate"; "BatchId"; "ArchivedAt"]);
    ("Inventory", ["ArchiveId"; "OriginalId"; "SellerSKU"; "ASIN"; "RawData";
                   "ProcessedDate"; "BatchId"; "ArchivedAt"]) ].

(** The statement is accepted when the table exists in the schema and has
    every column the statement names. *)
Definition has_columns (schemas : list (string * list string))
    (table_name : string) (cols : list string) : bool :=
  match assoc table_name schemas with
  | Some declared => forallb (λ c, bool_decide (c ∈ declared)) cols
  | None => false
  end.

Record staging_row := {
  StagingId : nat;
  AmazonOrderId : option value;     (* NULL is None *)
  SellerSKU : option value;
  RawData : record;                 (* json.dumps(record), kept as the dict it serialises *)
  ProcessedDate : option Z;
  ValidationStatus : string;
  BatchId : option uuid;
  InsertedAt : Z;
}.

Record archive_row := {
  ArchiveId : nat;
  OriginalId : nat;
  ArchAmazonOrderId : option value;
  ArchRawData : record;
  ArchProcessedDate : option Z;
  ArchBatchId : option uuid;
  ArchivedAt : Z;
}.

Inductive status := IN_PROGRESS | SUCCESS | ERROR.

#[global] Instance status_eq_dec : EqDecision status.
Proof. solve_decision. Defined.

Record control_entry := {
  Id : nat;
  DataType : string;
  LastProcessedDate : option Z;
  LastBatchId : uuid;
  RecordsProcessed : option nat;
  Status : status;
  ProcessingStartTime : Z;
  ProcessingEndTime : option Z;
}.

Record database := {
  stage : string → list staging_row;           (* [stage].[SP_API_<table>] *)
  archive : string → list archive_row;         (* [archive].[SP_API_<table>] *)
  control : list control_entry;                (* [stage].[ProcessingControl] *)
  stage_identity : string → nat;               (* last IDENTITY value handed out *)
  archive_identity : string → nat;
  control_identity : nat;
}.

Definition stage_rows (d : database) (table_name : string) : list staging_row :=
  stage d table_name.
Definition archive_rows (d : database) (table_name : string) : list archive_row :=
  archive d table_name.

Definition empty_database : database :=
  {| stage := λ _, []; archive := λ _, []; control := [];
     stage_identity := λ _, 0; archive_identity := λ _, 0; control_identity := 0 |}.

(** The content of one table replaced, the other tables as they were. *)
Definition at_table {A} (table_name : string) (a : A) (f : string → A) : string → A :=
  λ t, if decide (t = table_name) then a else f t.

(** ** The world a StagingHandler and a BatchProcessor run in *)

Inductive request :=
| GetOrders (created_after created_before : Z)
| GetInventorySummary
| GetInventoryDetails (sku_chunk : list string).

Inductive event :=
| Fetch (r : request)              (* an upstream call was issued *)
| Slept (microseconds : Z)         (* time.sleep *)
| LogWarning (retry_count : nat)   (* logger.warning(f"Retry {retry_count} ...") *)
| LogError (origin : string).      (* logger.error *)

#[global] Instance request_eq_dec : EqDecision request.
Proof. solve_decision. Defined.
#[global] Instance event_eq_dec : EqDecision event.
Proof. solve_decision. Defined.

Record world := {
  db : database;
  refusals : list (option exn);   (* what the server does with the coming
                                     transactions: [Some e] refuses with e,
                                     [None] (and the end of the list) accepts *)
  uuids : nat;                    (* uuid.uuid4() hands out fresh identifiers *)
  clock : Z;                      (* datetime.now(), GETDATE() *)
  trace : list event;
}.

Definition set_db (d : database) (w : world) : world :=
  {| db := d; refusals := refusals w; uuids := uuids w; clock := clock w; trace := trace w |}.
Definition set_refusals (r : list (option exn)) (w : world) : world :=
  {| db := db w; refusals := r; uuids := uuids w; clock := clock w; trace := trace w |}.
Definition log (e : event) : M world unit :=
  modify (λ w, {| db := db w; refusals := refusals w; uuids := uuids w;
                  clock := clock w; trace := trace w ++ [e] |}).
Definition sleep (microseconds : Z) : M world unit :=
  modify (λ w, {| db := db w; refusals := refusals w; uuids := uuids w;
                  clock := (clock w + microseconds)%Z;
                  trace := trace w ++ [Slept microseconds] |}).
(** [time.sleep(seconds)]: a negative length is refused. *)
Definition time_sleep (microseconds : Z) : M world unit :=
  if decide (microseconds < 0)%Z
  then raise (ValueError "sleep length must be non-negative")
  else sleep microseconds.
Definition uuid4 : M world uuid := λ w,
  (Ok (uuids w), {| db := db w; refusals := refusals w; uuids := S (uuids w);
                    clock := clock w; trace := trace w |}).
Definition now : M world Z := gets clock.

(** One [with self._create_connection() as conn: ... conn.commit()] block.
    The connection commits on a clean exit and rolls back when the block
    raises, so the block takes effect as a whole or not at all. *)
Definition transaction {A} (body : Z → database → result (A * database)) : M world A := λ w,
  match refusals w with
  | Some e :: later => (Raise e, set_refusals later w)
  | later =>
      match body (clock w) (db w) with
      | Ok (a, d) => (Ok a, set_db d (set_refusals (tail later) w))
      | Raise e => (Raise e, set_refusals (tail later) w)
      end
  end.

Definition set_control (c : list control_entry) (n : nat) (d : database) : database :=
  {| stage := stage d; archive := archive d; control := c;
     stage_identity := stage_identity d; archive_identity := archive_identity d;
     control_identity := n |}.
Definition set_stage (table_name : string) (rows : list staging_row) (n : nat)
    (d : database) : database :=
  {| stage := at_table table_name rows (stage d); archive := archive d;
     control := control d;
     stage_identity := at_table table_name n (stage_identity d);
     archive_identity := archive_identity d;
     control_identity := control_identity d |}.
Definition set_archive (table_name : string) (rows : list archive_row) (n : nat)
    (d : database) : database :=
  {| stage := stage d; archive := at_table table_name rows (archive d);
     control := control d; stage_identity := stage_identity d;
     archive_identity := at_table table_name n (archive_identity d);
     control_identity := control_identity d |}.
Definition delete_stage (table_name : string) (rows : list staging_row)
    (d : database) : database :=
  {| stage := at_table table_name rows (stage d); archive := archive d;
     control := control d; stage_identity := stage_identity d;
     archive_identity := archive_identity d;
     control_identity := control_identity d |}.

(** ** StagingHandler (sql_staging_definitions.py) *)

Module StagingHandler.

(** [record_processing_start]: INSERT ... 'IN_PROGRESS'; SELECT SCOPE_IDENTITY() *)
Definition record_processing_start (data_type : string) (batch_id : uuid) : M world nat :=
  transaction (λ getdate d,
    let control_id := S (control_identity d) in
    Ok (control_id,
        set_control
          (control d ++
            [{| Id := control_id; DataType := data_type; LastProcessedDate := None;
                LastBatchId := batch_id; RecordsProcessed := None;
                Status := IN_PROGRESS; ProcessingStartTime := getdate;
                ProcessingEndTime := None |}])
          control_id d)).

Definition complete_entry (getdate : Z) (control_id : nat) (last_processed_date : Z)
    (records_processed : nat) (st : status) (c : control_entry) : control_entry :=
  if decide (Id c = control_id) then
    {| Id := Id c; DataType := DataType c;
       LastProcessedDate := Some last_processed_date;
       LastBatchId := LastBatchId c;
       RecordsProcessed := Some records_processed;
       Status := st; ProcessingStartTime := ProcessingStartTime c;
       ProcessingEndTime := Some getdate |}
  else c.

(** [record_processing_complete]: UPDATE ... WHERE Id = ? *)
Definition record_processing_complete (control_id : nat) (last_processed_date : Z)
    (records_processed : nat) (st : status) : M world unit :=
  transaction (λ getdate d,
    Ok (tt, set_control
              (complete_entry getdate control_id last_processed_date
                 records_processed st <$> control d)
              (control_identity d) d)).

(** [last_processed_date or datetime.now()] (a datetime is never falsy) *)
Definition or_now (last_processed_date : option Z) : M world Z :=
  match last_processed_date with
  | Some t => mret t
  | None => now
  end.

Definition staging_column (c : string) (r : staging_row) : option value :=
  if decide (c = "AmazonOrderId") then AmazonOrderId r
  else if decide (c = "SellerSKU") then SellerSKU r
  else None.

(** [set(pd.read_sql("SELECT DISTINCT {dedup_key} FROM
    [stage].[SP_API_{table_name}]", conn)[dedup_key])].  pandas reads a NULL
    key back as NaN, which is equal to no key and not to None: the set holds
    the keys that are not NULL. *)
Definition select_existing_keys (dedup_key table_name : string)
    : M world (list value) :=
  transaction (λ _ d,
    if has_columns STAGING_SCHEMAS table_name [dedup_key] then
      Ok (remove_dups (omap (staging_column dedup_key) (stage_rows d table_name)), d)
    else Raise (ProgrammingError ("Invalid column name " +:+ dedup_key))).

(** [record.get(dedup_key) not in existing_keys_set]: a record without the
    key has None there, which is in no set of keys read from the table. *)
Definition not_in_keys (existing_keys_set : list value) (key : option value) : bool :=
  match key with
  | Some v => bool_decide (v ∉ existing_keys_set)
  | None => true
  end.

(** [record.get(dedup_key)]; with [dedup_key = None] the dict has no such key. *)
Definition get (r : record) (key : option string) : option value :=
  k ← key; assoc k r.

(** INSERT INTO [stage].[SP_API_{table_name}]
    (AmazonOrderId, RawData, BatchId, ValidationStatus) VALUES (?, ?, ?, 'PENDING') *)
Definition insert_columns : list string :=
  ["AmazonOrderId"; "RawData"; "BatchId"; "ValidationStatus"].

Definition execute_insert (table_name : string) (getdate : Z) (batch_id : uuid)
    (key : option value) (raw : record) (d : database) : result database :=
  if has_columns STAGING_SCHEMAS table_name insert_columns then
    let staging_id := S (stage_identity d table_name) in
    Ok (set_stage table_name
          (stage_rows d table_name ++
            [{| StagingId := staging_id; AmazonOrderId := key; SellerSKU := None;
                RawData := raw; ProcessedDate := None;
                ValidationStatus := "PENDING"; BatchId := Some batch_id;
                InsertedAt := getdate |}])
          staging_id d)
  else Raise (ProgrammingError "Invalid column name AmazonOrderId").

(** [for record in ...: cursor.execute(insert_sql, record.get(key), json.dumps(record), batch_id)] *)
Fixpoint execute_inserts (table_name : string) (getdate : Z) (batch_id : uuid)
    (key : option string) (records : list record) (d : database) : result database :=
  match records with
  | [] => Ok d
  | r :: later =>
      match execute_insert table_name getdate batch_id (get r key) r d with
      | Ok d' => execute_inserts table_name getdate batch_id key later d'
      | Raise e => Raise e
      end
  end.

Definition insert_records (table_name : string) (batch_id : uuid)
    (key : option string) (records : list record) : M world unit :=
  transaction (λ getdate d,
    match execute_inserts table_name getdate batch_id key records d with
    | Ok d' => Ok (tt, d')
    | Raise e => Raise e
    end).

(** [archive_data]: INSERT INTO [archive] ... SELECT ... FROM [stage]
    WHERE BatchId = ? OR ? IS NULL, then DELETE FROM [stage] with the same
    condition, committed together. *)
Definition archive_insert_columns : list string :=
  ["OriginalId"; "AmazonOrderId"; "RawData"; "ProcessedDate"; "BatchId"].
Definition archive_select_columns : list string :=
  ["StagingId"; "AmazonOrderId"; "RawData"; "ProcessedDate"; "BatchId"].

Definition selected (batch_id : option uuid) (r : staging_row) : bool :=
  match batch_id with
  | None => true
  | Some b => bool_decide (BatchId r = Some b)
  end.

Definition archived (getdate : Z) (last_id : nat) (i : nat) (r : staging_row) : archive_row :=
  {| ArchiveId := last_id + S i; OriginalId := StagingId r;
     ArchAmazonOrderId := AmazonOrderId r; ArchRawData := RawData r;
     ArchProcessedDate := ProcessedDate r; ArchBatchId := BatchId r;
     ArchivedAt := getdate |}.

Definition archive_data (table_name : string) (batch_id : option uuid) : M world unit :=
  transaction (λ getdate d,
    if has_columns ARCHIVE_SCHEMAS table_name archive_insert_columns
       && has_columns STAGING_SCHEMAS table_name archive_select_columns then
      let moved := List.filter (selected batch_id) (stage_rows d table_name) in
      let kept := List.filter (λ r, negb (selected batch_id r)) (stage_rows d table_name) in
      let last_id := archive_identity d table_name in
      Ok (tt, delete_stage table_name kept
                (set_archive table_name
                   (archive_rows d table_name ++ imap (archived getdate last_id) moved)
                   (last_id + length moved) d))
    else Raise (ProgrammingError "Invalid object or column name")).

(** ORDER BY LastProcessedDate DESC: NULL sorts below every date. *)
Definition date_le (a b : option Z) : bool :=
  match a, b with
  | None, _ => true
  | Some _, None => false
  | Some x, Some y => bool_decide (x ≤ y)%Z
  end.

Fixpoint top1 (rows : list control_entry) : option control_entry :=
  match rows with
  | [] => None
  | c :: later =>
      match top1 later with
      | Some c' => if date_le (LastProcessedDate c') (LastProcessedDate c)
                   then Some c else Some c'
      | None => Some c
      end
  end.

Definition succeeded (data_type : string) (c : control_entry) : bool :=
  bool_decide (DataType c = data_type) && bool_decide (Status c = SUCCESS).

(** SELECT TOP 1 LastProcessedDate FROM [stage].[ProcessingControl]
    WHERE DataType = ? AND Status = 'SUCCESS' ORDER BY LastProcessedDate DESC *)
Definition last_processed_query (data_type : string) (d : database) : option Z :=
  match top1 (List.filter (succeeded data_type) (control d)) with
  | Some row => LastProcessedDate row      (* result[0] *)
  | None => None
  end.

Definition get_last_processed_date (data_type : string) : M world (option Z) :=
  transaction (λ _ d, Ok (last_processed_query data_type d, d)).

Record append_result := {
  batch_id : uuid;
  records_processed : nat;
  duplicates_skipped : nat;
}.

Record replace_result := {
  replace_batch_id : uuid;
  replace_records_processed : nat;
}.

Definition dedup_key_of (table_name : string) : option string :=
  if decide (table_name = "Orders") then Some "AmazonOrderId"
  else if decide (table_name = "Inventory") then Some "SellerSKU"
  else None.

(** The [except Exception as e:] branch of [append_data] and [replace_data].
    [control_id] is a local of the [try] block: it is unbound when
    [record_processing_start] itself raised, and reading it then raises. *)
Definition on_failure {A} (origin : string) (control_id : option nat)
    (last_processed_date : option Z) (e : exn) : M world A :=
  log (LogError origin);;
  match control_id with
  | None => raise (UnboundLocalError "control_id")
  | Some control_id =>
      t ← or_now last_processed_date;
      record_processing_complete control_id t 0 ERROR;;
      raise e
  end.

(** The first two statements of the [try] block, which bind [batch_id] and
    [control_id]. *)
Definition start_batch (table_name : string) : M world (uuid * nat) :=
  batch_id ← uuid4;
  control_id ← record_processing_start table_name batch_id;
  mret (batch_id, control_id).

(** The [try] block of [append_data] after [control_id] is bound. *)
Definition append_steps (data : list record) (table_name : string)
    (last_processed_date : option Z) (batch_id : uuid) (control_id : nat)
    : M world append_result :=
  let dedup_key := dedup_key_of table_name in
  new_data ←
    match dedup_key with
    | Some k =>
        existing_keys_set ← select_existing_keys k table_name;
        mret (List.filter (λ r, not_in_keys existing_keys_set (assoc k r)) data)
    | None => mret data
    end;
  insert_records table_name batch_id dedup_key new_data;;
  t ← or_now last_processed_date;
  record_processing_complete control_id t (length new_data) SUCCESS;;
  mret {| batch_id := batch_id; records_processed := length new_data;
          duplicates_skipped := length data - length new_data |}.

Definition append_data (data : list record) (table_name : string)
    (last_processed_date : option Z) : M world append_result := λ w,
  match start_batch table_name w with
  | (Ok (batch_id, control_id), w') =>
      try_except
        (append_steps data table_name last_processed_date batch_id control_id)
        (on_failure "append_data" (Some control_id) last_processed_date) w'
  | (Raise e, w') => on_failure "append_data" None last_processed_date e w'
  end.

(** The [try] block of [replace_data] after [control_id] is bound. *)
Definition replace_steps (data : list record) (table_name : string)
    (last_processed_date : option Z) (batch_id : uuid) (control_id : nat)
    : M world replace_result :=
  archive_data table_name None;;
  insert_records table_name batch_id (Some "AmazonOrderId") data;;
  t ← or_now last_processed_date;
  record_processing_complete control_id t (length data) SUCCESS;;
  mret {| replace_batch_id := batch_id; replace_records_processed := length data |}.

Definition replace_data (data : list record) (table_name : string)
    (last_processed_date : option Z) : M world replace_result := λ w,
  match start_batch table_name w with
  | (Ok (batch_id, control_id), w') =>
      try_except
        (replace_steps data table_name last_processed_date batch_id control_id)
        (on_failure "replace_data" (Some control_id) last_processed_date) w'
  | (Raise e, w') => on_failure "replace_data" None last_processed_date e w'
  end.

(** What an instance of the class answers to: the attributes set by
    [SQLServerHandler.__init__] and the methods of the two classes. *)
Definition instance_attributes : list string :=
  ["conn_str"; "pool_size"; "_connection_pool"].
Definition SQLServerHandler_methods : list string :=
  ["__init__"; "get_connection"; "_create_connection"; "_get_sql_type";
   "_flatten_dict"; "query_data"; "execute_query"; "execute_nonquery";
   "optimize_tables"; "execute_stored_procedure"; "bulk_insert"].
Definition StagingHandler_methods : list string :=
  ["__init__"; "initialize_staging"; "archive_data"; "get_last_processed_date";
   "record_processing_start"; "record_processing_complete"; "append_data";
   "replace_data"; "get_staging_errors"].

Definition hasattr (name : string) : bool :=
  bool_decide (name ∈ instance_attributes ++ StagingHandler_methods
                        ++ SQLServerHandler_methods).

(** [await staging_handler.<name>()]: the lookup raises AttributeError for a
    name the instance does not have; what the class does define cannot be
    called without arguments and awaited. *)
Definition await_call_without_arguments (name : string) : M world unit :=
  if hasattr name then raise (TypeError name)
  else raise (AttributeError name).

End StagingHandler.

(** ** The upstream API, as BatchProcessor sees it

    One request is answered after some refused attempts; a cursor chain is
    the finite sequence of pages of one query, every page but the last
    carrying a NextToken. *)

Record exchange := {
  failures : list exn;      (* raised by the successive attempts, in order *)
  answer : list record;     (* the entries of the response that follows them *)
}.

Record cursor_chain := {
  first_page : exchange;
  next_pages : list exchange;
}.

Definition OrdersAPI := Z → Z → cursor_chain.     (* created_after, created_before *)

Record InventoryAPI := {
  get_inventory_summary : cursor_chain;
  get_inventory_details : list string → exchange;
}.

(** ** BatchProcessor (batch_processor.py) *)

Module BatchProcessor.

Record config := {
  batch_size : nat;
  rate_limit_pause : Z;     (* microseconds *)
  max_retries : nat;
}.

Record stats := {
  total_processed : nat;
  total_batches : nat;
  errors : nat;
  batch_ids : list uuid;
  mode : string;
}.

(** The locals of a run next to the world: the [total_stats] dict, mutated in
    place, and the batches handed to [_process_*_batch] so far. *)
Record frame := {
  total_stats : stats;
  flushed : list (list record);
  env : world;
}.

Definition in_world {A} (m : M world A) : M frame A := λ f,
  let (r, w) := m (env f) in
  (r, {| total_stats := total_stats f; flushed := flushed f; env := w |}).

Definition flush (batch : list record) : M frame unit :=
  modify (λ f, {| total_stats := total_stats f; flushed := flushed f ++ [batch];
                  env := env f |}).

Definition count_batch (id : uuid) (n : nat) : M frame unit :=
  modify (λ f,
    let t := total_stats f in
    {| total_stats :=
         {| total_processed := total_processed t + n;
            total_batches := total_batches t + 1;
            errors := errors t;
            batch_ids := batch_ids t ++ [id];
            mode := mode t |};
       flushed := flushed f; env := env f |}).

Definition count_error : M frame unit :=
  modify (λ f,
    let t := total_stats f in
    {| total_stats :=
         {| total_processed := total_processed t;
            total_batches := total_batches t;
            errors := errors t + 1;
            batch_ids := batch_ids t;
            mode := mode t |};
       flushed := flushed f; env := env f |}).

Fixpoint for_each {S A} (items : list A) (body : A → M S unit) : M S unit :=
  match items with
  | [] => mret tt
  | x :: later => body x;; for_each later body
  end.

(** [_chunk_date_range] is a generator:
<<
    current_date = start_date
    while current_date < end_date:
        chunk_end = min(current_date + timedelta(days=chunk_days), end_date)
        yield current_date, chunk_end
        current_date = chunk_end
>>
    Its run is the chunks it yields and the way it ends: by leaving the
    loop, or by the OverflowError of [timedelta] or of the addition.  For
    [chunk_days] > 0, the value of every call in the repository, the loop
    runs at most (end - start) / width + 1 times. *)
Fixpoint chunk_date_range_from (fuel : nat) (current_date end_date chunk_days : Z)
    : list (Z * Z) * option exn :=
  match fuel with
  | 0 => ([], None)
  | S fuel =>
      if decide (current_date < end_date)%Z then
        match timedelta chunk_days with
        | Raise e => ([], Some e)
        | Ok delta =>
            match datetime_add current_date delta with
            | Raise e => ([], Some e)
            | Ok next =>
                let chunk_end := Z.min next end_date in
                let run := chunk_date_range_from fuel chunk_end end_date chunk_days in
                ((current_date, chunk_end) :: run.1, run.2)
            end
        end
      else ([], None)
  end.

Definition chunk_date_range_run (start_date end_date chunk_days : Z)
    : list (Z * Z) * option exn :=
  chunk_date_range_from
    (Z.to_nat ((end_date - start_date) / timedelta_days chunk_days) + 1)
    start_date end_date chunk_days.

(** The chunks the generator yields, and the exception that ends it, if any. *)
Definition _chunk_date_range (start_date end_date : Z) (chunk_days : Z) : list (Z * Z) :=
  (chunk_date_range_run start_date end_date chunk_days).1.

Definition _chunk_date_range_raises (start_date end_date : Z) (chunk_days : Z)
    : option exn :=
  (chunk_date_range_run start_date end_date chunk_days).2.

(** [for x in generator: body]: the body runs on what the generator yields;
    an exception of the generator is raised by the [for] statement itself,
    after the bodies of the items yielded before it. *)
Definition for_each_yielded {S A} (items : list A) (raises : option exn)
    (body : A → M S unit) : M S unit :=
  for_each items body;;
  match raises with
  | Some e => raise e
  | None => mret tt
  end.

(** [_chunk_list]: for i in range(0, len(items), chunk_size): yield items[i:i + chunk_size] *)
Fixpoint chunk_list_from {A} (fuel : nat) (items : list A) (chunk_size : nat)
    : list (list A) :=
  match fuel, items with
  | S fuel, _ :: _ =>
      take chunk_size items :: chunk_list_from fuel (drop chunk_size items) chunk_size
  | _, _ => []
  end.

Definition _chunk_list {A} (items : list A) (chunk_size : nat) : result (list (list A)) :=
  if decide (chunk_size = 0) then Raise (ValueError "range() arg 3 must not be zero")
  else Ok (chunk_list_from (length items) items chunk_size).

(** The retry loop around every upstream call:
<<
    retry_count = 0
    while retry_count < self.max_retries:
        try:
            response = await api.call(...)
            break
        except Exception as e:
            retry_count += 1
            if retry_count == self.max_retries:
                raise
            logger.warning(f"Retry {retry_count} ...")
            time.sleep(2 ** retry_count)
>>
    [remaining] is [max_retries - retry_count], the variant of the loop.  The
    result is [None] when the loop ends without having assigned the response
    variable. *)
Fixpoint retry_loop (self : config) (rq : request) (remaining retry_count : nat)
    (attempts : list exn) (response : list record) : M world (option (list record)) :=
  match remaining with
  | 0 => mret None
  | S remaining =>
      log (Fetch rq);;
      match attempts with
      | [] => mret (Some response)
      | e :: later =>
          let retry_count := S retry_count in
          if decide (retry_count = max_retries self) then raise e
          else
            log (LogWarning retry_count);;
            sleep (2 ^ Z.of_nat retry_count * second)%Z;;
            retry_loop self rq remaining retry_count later response
      end
  end.

Definition call_with_retries (self : config) (rq : request) (x : exchange)
    : M world (option (list record)) :=
  retry_loop self rq (max_retries self) 0 (failures x) (answer x).

(** Reading the response variable after the loop. *)
Definition bound (variable : string) (v : option (list record)) : M world (list record) :=
  match v with
  | Some response => mret response
  | None => raise (UnboundLocalError variable)
  end.

(** [max(datetime.fromisoformat(order['PurchaseDate']) for order in orders
         if 'PurchaseDate' in order)] *)
Fixpoint purchase_dates (orders : list record) : result (list Z) :=
  match orders with
  | [] => Ok []
  | order :: later =>
      match assoc "PurchaseDate" order with
      | None => purchase_dates later
      | Some v =>
          match fromisoformat v with
          | Raise e => Raise e
          | Ok t =>
              match purchase_dates later with
              | Ok ts => Ok (t :: ts)
              | Raise e => Raise e
              end
          end
      end
  end.

Definition max_purchase_date (orders : list record) : M world Z := λ w,
  match purchase_dates orders with
  | Ok (t :: ts) => (Ok (foldl Z.max t ts), w)
  | Ok [] => (Raise (ValueError "max() arg is an empty sequence"), w)
  | Raise e => (Raise e, w)
  end.

Definition _process_order_batch (orders : list record) (mode : string) : M world uuid :=
  try_except
    (max_date ← max_purchase_date orders;
     if decide (mode = "APPEND") then
       r ← StagingHandler.append_data orders "Orders" (Some max_date);
       mret (StagingHandler.batch_id r)
     else
       r ← StagingHandler.replace_data orders "Orders" (Some max_date);
       mret (StagingHandler.replace_batch_id r))
    (λ e, log (LogError "_process_order_batch");; raise e).

Definition _process_inventory_batch (inventory : list record) (mode : string)
    : M world uuid :=
  try_except
    (t ← now;
     r ← StagingHandler.replace_data inventory "Inventory" (Some t);
     mret (StagingHandler.replace_batch_id r))
    (λ e, log (LogError "_process_inventory_batch");; raise e).

(** Handing a batch to the staging store and counting it. *)
Definition flush_orders (mode : string) (batch : list record) : M frame unit :=
  flush batch;;
  id ← in_world (_process_order_batch batch mode);
  count_batch id (length batch).

Definition flush_inventory (mode : string) (batch : list record) : M frame unit :=
  flush batch;;
  id ← in_world (_process_inventory_batch batch mode);
  count_batch id (length batch).

(** The [while True:] loop over the pages of one query: extend the buffer,
    flush one batch when the buffer has reached the batch size, stop when the
    response has no NextToken, else pause and fetch the next page. *)
Fixpoint pages (self : config) (rq : request) (variable : string)
    (flush_batch : list record → M frame unit)
    (page : exchange) (later : list exchange) (buffer : list record)
    : M frame (list record) :=
  response ← in_world (call_with_retries self rq page ≫= bound variable);
  let buffer := buffer ++ response in
  buffer ←
    (if decide (batch_size self ≤ length buffer) then
       flush_batch (take (batch_size self) buffer);;
       mret (drop (batch_size self) buffer)
     else mret buffer);
  match later with
  | [] => mret buffer
  | page' :: later' =>
      in_world (time_sleep (rate_limit_pause self));;
      pages self rq variable flush_batch page' later' buffer
  end.

(** The rest of the buffer after the loop: [if buffer: ...] *)
Definition flush_rest (flush_batch : list record → M frame unit)
    (buffer : list record) : M frame unit :=
  match buffer with
  | [] => mret tt
  | _ :: _ => flush_batch buffer
  end.

(** The body of [for chunk_start, chunk_end in self._chunk_date_range(...)]. *)
Definition orders_chunk (self : config) (orders_api : OrdersAPI) (mode : string)
    (chunk : Z * Z) : M frame unit :=
  try_except
    (let chain := orders_api chunk.1 chunk.2 in
     orders_buffer ←
       pages self (GetOrders chunk.1 chunk.2) "orders_response" (flush_orders mode)
         (first_page chain) (next_pages chain) [];
     flush_rest (flush_orders mode) orders_buffer)
    (λ e, in_world (log (LogError "process_orders"));; count_error).

Definition new_stats (mode : string) : stats :=
  {| total_processed := 0; total_batches := 0; errors := 0; batch_ids := [];
     mode := mode |}.

Definition new_frame (mode : string) (w : world) : frame :=
  {| total_stats := new_stats mode; flushed := []; env := w |}.

Definition orders_run (self : config) (orders_api : OrdersAPI)
    (start_date end_date : Z) (mode : string) : M frame unit :=
  for_each_yielded (_chunk_date_range start_date end_date 7)
    (_chunk_date_range_raises start_date end_date 7)
    (orders_chunk self orders_api mode).

(** Leaving the method: [return total_stats], or the exception. *)
Definition returning (body : M frame unit) (mode : string) : M world stats := λ w,
  match body (new_frame mode w) with
  | (Ok _, f) => (Ok (total_stats f), env f)
  | (Raise e, f) => (Raise e, env f)
  end.

Definition process_orders (self : config) (orders_api : OrdersAPI)
    (start_date end_date : Z) (mode : string) : M world stats :=
  returning (orders_run self orders_api start_date end_date mode) mode.

(** The batches a run hands to the staging store, in order. *)
Definition batches (body : M frame unit) (mode : string) (w : world) : list (list record) :=
  flushed (body (new_frame mode w)).2.

Definition sku_chunk_body (self : config) (inventory_api : InventoryAPI)
    (mode : string) (sku_chunk : list string) : M frame unit :=
  inventory_data ←
    in_world (call_with_retries self (GetInventoryDetails sku_chunk)
                (get_inventory_details inventory_api sku_chunk)
              ≫= bound "inventory_data");
  flush_inventory mode inventory_data;;
  in_world (time_sleep (rate_limit_pause self)).

Definition inventory_run (self : config) (inventory_api : InventoryAPI)
    (sku_list : option (list string)) (mode : string) : M frame unit :=
  try_except
    (match sku_list with
     | Some (sku :: skus) =>
         match _chunk_list (sku :: skus) (batch_size self) with
         | Ok chunks => for_each chunks (sku_chunk_body self inventory_api mode)
         | Raise e => raise e
         end
     | _ =>
         let chain := get_inventory_summary inventory_api in
         inventory_buffer ←
           pages self GetInventorySummary "inventory_response" (flush_inventory mode)
             (first_page chain) (next_pages chain) [];
         flush_rest (flush_inventory mode) inventory_buffer
     end)
    (λ e, in_world (log (LogError "process_inventory"));; count_error).

Definition process_inventory (self : config) (inventory_api : InventoryAPI)
    (sku_list : option (list string)) (mode : string) : M world stats :=
  returning (inventory_run self inventory_api sku_list mode) mode.

Definition process_inventory_incremental (self : config) (inventory_api : InventoryAPI)
    (sku_list : option (list string)) : M world stats :=
  try_except
    (StagingHandler.await_call_without_arguments "archive_inventory_data";;
     process_inventory self inventory_api sku_list "REPLACE")
    (λ e, log (LogError "process_inventory_incremental");; raise e).

Definition process_orders_incremental (self : config) (orders_api : OrdersAPI)
    (end_date : option Z) : M world stats :=
  last_processed ← StagingHandler.get_last_processed_date "Orders";
  last_processed ←
    match last_processed with
    | Some t => mret t
    | None => t ← now; lift (datetime_add t (- timedelta_days 30))
    end;
  end_date ← StagingHandler.or_now end_date;
  process_orders self orders_api last_processed end_date "APPEND".

End BatchProcessor.

(** ** RateLimiter (rate_limiter.py)

    Time is in seconds, as a rational.  [asyncio.sleep(d)] suspends the
    caller for [d] plus whatever the event loop adds; the jitter drawn by
    [random.uniform(0, 0.1)] and that overshoot are inputs of [acquire]. *)

Module RateLimiter.

Local Open Scope Q_scope.

Record limiter := {
  calls_per_second : Q;
  minimum_interval : Q;
  last_call_time : gmap string Q;
}.

Record state := {
  self : limiter;
  time : Q;                 (* datetime.now() *)
}.

Definition __init__ (calls_per_second : Q) : result limiter :=
  if Qeq_bool calls_per_second 0 then Raise ZeroDivisionError
  else Ok {| calls_per_second := calls_per_second;
             minimum_interval := 1 / calls_per_second;
             last_call_time := ∅ |}.

Definition asyncio_sleep (delay overshoot : Q) : M state unit :=
  modify (λ s, {| self := self s; time := time s + delay + overshoot |}).

Definition record_call (endpoint : string) : M state unit :=
  modify (λ s,
    {| self := {| calls_per_second := calls_per_second (self s);
                  minimum_interval := minimum_interval (self s);
                  last_call_time := <[endpoint := time s]> (last_call_time (self s)) |};
       time := time s |}).

Definition acquire (endpoint : string) (jitter overshoot : Q) : M state unit :=
  now ← gets time;
  l ← gets self;
  match last_call_time l !! endpoint with
  | Some last =>
      let elapsed := now - last in
      if Qlt_le_dec elapsed (minimum_interval l) then
        let wait_time := minimum_interval l - elapsed in
        let wait_time := wait_time + jitter in
        asyncio_sleep wait_time overshoot
      else mret tt
  | None => mret tt
  end;;
  record_call endpoint.

End RateLimiter.

(** ** Sample data and the statements under test *)

Import StagingHandler BatchProcessor.

(** The server accepts the coming transaction. *)
Definition accepting (w : world) : bool :=
  match refusals w with
  | Some _ :: _ => false
  | _ => true
  end.

Definition order (key : string) (purchased : Z) : record :=
  [("AmazonOrderId", VStr key); ("PurchaseDate", VIso purchased)].

Definition fresh_world : world :=
  {| db := empty_database; refusals := []; uuids := 0; clock := 0%Z; trace := [] |}.

Definition run_of {S A} (m : M S A) (s : S) : S := (m s).2.

(** A store that two REPLACE runs have gone through: staging holds the second
    batch, archive the first. *)
Definition replaced_twice : world :=
  run_of (replace_data [order "B" 2] "Orders" None)
    (run_of (replace_data [order "A" 1] "Orders" None) fresh_world).

(** C6 as the specification states it: staging plus archive after the run
    equal staging before the run plus the batch. *)
Definition replace_conservation_as_stated (data : list record) (table_name : string)
    (last_processed_date : option Z) (w : world) : Prop :=
  ∀ r w', replace_data data table_name last_processed_date w = (Ok r, w') →
    length (stage_rows (db w') table_name) + length (archive_rows (db w') table_name)
    = length (stage_rows (db w) table_name) + length data ∧
    length (stage_rows (db w') table_name) = length data.

(** A computation leaves an observation of the state as it was, whatever
    its outcome. *)
Definition keeps {S A X} (f : S → X) (m : M S A) : Prop :=
  ∀ s r s', m s = (r, s') → f s' = f s.

Definition control_ids (d : database) : list nat := Id <$> control d.

(** The two write protocols, by the batch identifier they return. *)
Inductive write_mode := APPEND | REPLACE.

Definition write (m : write_mode) (data : list record) (table_name : string)
    (last_processed_date : option Z) : M world uuid :=
  match m with
  | APPEND => r ← append_data data table_name last_processed_date; mret (batch_id r)
  | REPLACE =>
      r ← replace_data data table_name last_processed_date;
      mret (replace_batch_id r)
  end.

Definition write_steps (m : write_mode) (data : list record) (table_name : string)
    (last_processed_date : option Z) (b : uuid) (control_id : nat) : M world uuid :=
  match m with
  | APPEND =>
      r ← append_steps data table_name last_processed_date b control_id;
      mret (batch_id r)
  | REPLACE =>
      r ← replace_steps data table_name last_processed_date b control_id;
      mret (replace_batch_id r)
  end.

(** The control entries of a run are marked ERROR with no record processed. *)
Definition marked_error (control_id : nat) (d : database) : Prop :=
  (∃ c, c ∈ control d ∧ Id c = control_id) ∧
  ∀ c, c ∈ control d → Id c = control_id →
       Status c = ERROR ∧ RecordsProcessed c = Some 0.

(** C5 as the specification states it: whatever is raised once the
    IN_PROGRESS entry is written, the entry ends as ERROR and the caller
    gets that exception. *)
Definition failure_marks_error_as_stated (m : write_mode) (data : list record)
    (table_name : string) (last_processed_date : option Z) (w : world) : Prop :=
  ∀ b control_id w1 e w2,
    start_batch table_name w = (Ok (b, control_id), w1) →
    write_steps m data table_name last_processed_date b control_id w1 = (Raise e, w2) →
    ∃ w3, write m data table_name last_processed_date w = (Raise e, w3) ∧
          marked_error control_id (db w3).

(** The server accepts the IN_PROGRESS entry and refuses what follows. *)
Definition server_lost : world :=
  {| db := empty_database;
     refusals := [None; Some (OperationalError "connection lost");
                  Some (OperationalError "login timeout")];
     uuids := 0; clock := 0%Z; trace := [] |}.

(** The server refuses one transaction, the second of the run. *)
Definition server_hiccup : world :=
  {| db := empty_database;
     refusals := [None; Some (OperationalError "connection lost")];
     uuids := 0; clock := 0%Z; trace := [] |}.

Definition stock (sku : string) : record := [("SellerSKU", VStr sku)].

(** C2 as the specification states it, for a table with a business key that
    every record of the batch carries: both runs return, the second skips
    the whole batch and inserts nothing. *)
Definition append_twice_as_stated (data : list record) (table_name : string)
    (w : world) : Prop :=
  ∀ key, dedup_key_of table_name = Some key →
    (∀ r, r ∈ data → is_Some (assoc key r)) →
    ∃ r1 w1 r2 w2,
      append_data data table_name None w = (Ok r1, w1) ∧
      append_data data table_name None w1 = (Ok r2, w2) ∧
      duplicates_skipped r2 = length data ∧ records_processed r2 = 0 ∧
      stage_rows (db w2) table_name = stage_rows (db w1) table_name.

(** The configuration of [SPAPIProcessor] with a batch size of two. *)
Definition two_per_batch : config :=
  {| batch_size := 2; rate_limit_pause := 1000000%Z; max_retries := 3 |}.

Definition answered (items : list record) : exchange :=
  {| failures := []; answer := items |}.

Definition single_page (items : list record) : cursor_chain :=
  {| first_page := answered items; next_pages := [] |}.

(** The scenario of the specification: the orders A, A, B in one page. *)
Definition scenario_api : OrdersAPI :=
  λ _ _, single_page [order "A" 1; order "A" 1; order "B" 2].

Definition scenario : M world stats :=
  process_orders two_per_batch scenario_api 0%Z day "APPEND".

Definition keyed (key : string) (row : staging_row) : bool :=
  bool_decide (AmazonOrderId row = Some (VStr key)).

(** C3 as the specification states it. *)
Definition scenario_as_stated : Prop :=
  batches (orders_run two_per_batch scenario_api 0%Z day "APPEND") "APPEND" fresh_world
    = [[order "A" 1; order "A" 1]; [order "B" 2]] ∧
  (∃ r, (append_data [order "A" 1; order "A" 1] "Orders" (Some 1%Z) fresh_world).1
        = Ok r ∧
        records_processed r = 1 ∧ duplicates_skipped r = 1) ∧
  length (List.filter (keyed "A") (stage_rows (db (run_of scenario fresh_world)) "Orders")) = 1 ∧
  ∃ st, (scenario fresh_world).1 = Ok st ∧
        total_processed st = 2 ∧ total_batches st = 2.

(** An upstream call that is refused three times before it is answered. *)
Definition refused_thrice (items : list record) : exchange :=
  {| failures := [UpstreamError 503; UpstreamError 503; UpstreamError 429];
     answer := items |}.

Definition fetches (t : list event) : list request :=
  omap (λ ev, match ev with Fetch rq => Some rq | _ => None end) t.

Definition warnings (t : list event) : list nat :=
  omap (λ ev, match ev with LogWarning n => Some n | _ => None end) t.

Definition sleeps (t : list event) : list Z :=
  omap (λ ev, match ev with Slept d => Some d | _ => None end) t.

(** C4 as the specification states it, for an operation that fails
    [max_retries] times and would then succeed: the call returns the answer
    after [max_retries] logged retries and one more attempt. *)
Definition retry_bound_as_stated (self : config) (rq : request) (x : exchange)
    (w : world) : Prop :=
  length (failures x) = max_retries self →
  ∃ w', call_with_retries self rq x w = (Ok (Some (answer x)), w') ∧
        length (warnings (trace w')) = length (warnings (trace w)) + max_retries self ∧
        length (fetches (trace w')) = length (fetches (trace w)) + max_retries self + 1.

(** Two SKU chunks of one; the first lookup is refused on every attempt. *)
Definition first_lookup_down : InventoryAPI :=
  {| get_inventory_summary := single_page [];
     get_inventory_details := λ sku_chunk,
       if decide (sku_chunk = ["sku-1"]) then refused_thrice []
       else answered (stock <$> sku_chunk) |}.

Definition one_per_batch : config :=
  {| batch_size := 1; rate_limit_pause := 1000000%Z; max_retries := 3 |}.

(** C7 as the specification states it, on the SKU list: every chunk is
    attempted whatever happened to the chunks before it. *)
Definition every_sku_chunk_attempted (self : config) (inventory_api : InventoryAPI)
    (sku_list : list string) (w : world) : Prop :=
  ∀ chunks sku_chunk,
    _chunk_list sku_list (batch_size self) = Ok chunks →
    sku_chunk ∈ chunks →
    GetInventoryDetails sku_chunk
      ∈ fetches (trace (run_of (process_inventory self inventory_api (Some sku_list) "REPLACE") w)).

(** The orders of the first week are refused on every attempt. *)
Definition first_week_down : OrdersAPI :=
  λ created_after _,
    if decide (created_after = 0%Z)
    then {| first_page := refused_thrice []; next_pages := [] |}
    else single_page [order "B" 2].

(** C1 as the specification states it, of the batches of a whole run. *)
Definition batch_size_invariant (B : nat) (bs : list (list record)) : Prop :=
  (∀ i b, bs !! i = Some b → S i < length bs → length b = B) ∧
  (∀ b, last bs = Some b → 1 ≤ length b ∧ length b ≤ B) ∧
  Forall (λ b, length b ≤ B) bs.

(** The batches of one chunk: all of the batch size but possibly the last,
    none empty. *)
Definition full_but_last (B : nat) (bs : list (list record)) : Prop :=
  ∀ i b, bs !! i = Some b → (S i < length bs → length b = B) ∧ 1 ≤ length b.

(** No page of the chain holds more than [B] entries. *)
Definition pages_within (B : nat) (chain : cursor_chain) : Prop :=
  Forall (λ x, length (answer x) ≤ B) (first_page chain :: next_pages chain).

(** One order a week. *)
Definition weekly_api : OrdersAPI :=
  λ created_after _,
    single_page [order (if decide (created_after = 0%Z) then "A" else "B") 1].

(** Five orders in one page. *)
Definition busy_api : OrdersAPI :=
  λ _ _, single_page [order "A" 1; order "B" 1; order "C" 1; order "D" 1; order "E" 1].

(** What C1 keeps of the batches of one cursor chain. *)
Definition chunk_batches_ok (B : nat) (chain : cursor_chain)
    (group : list (list record)) : Prop :=
  full_but_last B group ∧
  (pages_within B chain → Forall (λ b, length b ≤ B) group).

(** A limiter of two calls per second that answered key [/orders] at 10 s. *)
Definition busy_limiter : RateLimiter.state :=
  {| RateLimiter.self :=
       {| RateLimiter.calls_per_second := 2;
          RateLimiter.minimum_interval := 1 / 2;
          RateLimiter.last_call_time := {["/orders" := 10%Q]} |};
     RateLimiter.time := 10.2%Q |}.

Definition ledger_entry : control_entry :=
  {| Id := 1; DataType := "Orders"; LastProcessedDate := Some 5%Z;
     LastBatchId := 0; RecordsProcessed := Some 3; Status := SUCCESS;
     ProcessingStartTime := 0; ProcessingEndTime := Some 1%Z |}.

(** A ledger with two finished order runs, a failed one and an inventory run. *)
Definition ledger : world :=
  {| db :=
       {| stage := λ _, []; archive := λ _, [];
          control :=
            [ ledger_entry;
              {| Id := 2; DataType := "Orders"; LastProcessedDate := Some 9%Z;
                 LastBatchId := 1; RecordsProcessed := Some 1; Status := SUCCESS;
                 ProcessingStartTime := 2; ProcessingEndTime := Some 3%Z |};
              {| Id := 3; DataType := "Orders"; LastProcessedDate := Some 20%Z;
                 LastBatchId := 2; RecordsProcessed := Some 0; Status := ERROR;
                 ProcessingStartTime := 4; ProcessingEndTime := Some 5%Z |};
              {| Id := 4; DataType := "Inventory"; LastProcessedDate := Some 30%Z;
                 LastBatchId := 3; RecordsProcessed := Some 7; Status := SUCCESS;
                 ProcessingStartTime := 6; ProcessingEndTime := Some 7%Z |} ];
          stage_identity := λ _, 0; archive_identity := λ _, 0;
          control_identity := 4 |};
     refusals := []; uuids := 4; clock := 40%Z; trace := [] |}.

(** C9 as the specification states it: the answer is the LastProcessedDate
    of the most recent SUCCESS entry of the data type, the one written last
    (the control table numbers its entries in the order they are written). *)
Fixpoint most_recent (rows : list control_entry) : option control_entry :=
  match rows with
  | [] => None
  | c :: later =>
      match most_recent later with
      | Some c' => if decide (Id c' ≤ Id c) then Some c else Some c'
      | None => Some c
      end
  end.

Definition most_recent_success_as_stated (data_type : string) (w : world) : Prop :=
  ∀ checkpoint w',
    get_last_processed_date data_type w = (Ok checkpoint, w') →
    checkpoint
    = (c ← most_recent (List.filter (succeeded data_type) (control (db w)));
       LastProcessedDate c).

(** The ledger after one more APPEND run, of a batch of older orders. *)
Definition late_batch : world :=
  run_of (append_data [order "Z" 7] "Orders" (Some 7%Z)) ledger.

(** ** Further statements about the same code *)

(** The chunks tile the range: each starts where the one before it ended,
    none is empty, and the last ends at [b]. *)
Fixpoint tiles (a : Z) (chunks : list (Z * Z)) (b : Z) : Prop :=
  match chunks with
  | [] => a = b
  | chunk :: later => chunk.1 = a ∧ (a < chunk.2)%Z ∧ tiles chunk.2 later b
  end.

(** What [count] failed attempts leave in the trace after [from] earlier
    ones: the call, the warning with the retry count, the back-off sleep. *)
Fixpoint backoff (rq : request) (from count : nat) : list event :=
  match count with
  | 0 => []
  | S count =>
      Fetch rq :: LogWarning (S from) :: Slept (2 ^ Z.of_nat (S from) * second)%Z
        :: backoff rq (S from) count
  end.

(** Every outcome of the computation is related to the state it started in. *)
Definition respects {S A} (R : S → S → Prop) (m : M S A) : Prop :=
  ∀ s r s', m s = (r, s') → R s s'.

(** The trace only grows. *)
Definition grows : world → world → Prop :=
  λ w w', trace w `prefix_of` trace w'.
Definition frame_grows : frame → frame → Prop :=
  λ f f', trace (env f) `prefix_of` trace (env f').

(** The outcome of a loop over a generator: when the generator ends
    normally the run returns a value, for which [P] holds; when it raises,
    its exception is the outcome of the run. *)
Definition ended {A} (raises : option exn) (r : result A) (P : A → Prop) : Prop :=
  match raises with
  | None => ∃ a, r = Ok a ∧ P a
  | Some e => r = Raise e
  end.

(** The bookkeeping of a run between two of its states: the batches counted
    are the batch ids collected, and every batch handed to the store is
    counted, except the one whose failure is being propagated. *)
Definition accounted {A} (r : result A) (f f' : frame) : Prop :=
  errors (total_stats f') = errors (total_stats f) ∧
  mode (total_stats f') = mode (total_stats f) ∧
  total_batches (total_stats f') + length (batch_ids (total_stats f))
    = total_batches (total_stats f) + length (batch_ids (total_stats f')) ∧
  total_batches (total_stats f) ≤ total_batches (total_stats f') ∧
  match r with
  | Ok _ =>
      length (flushed f') + total_batches (total_stats f)
      = length (flushed f) + total_batches (total_stats f')
  | Raise _ =>
      length (flushed f) + total_batches (total_stats f')
        ≤ length (flushed f') + total_batches (total_stats f) ∧
      length (flushed f') + total_batches (total_stats f)
        ≤ length (flushed f) + total_batches (total_stats f') + 1
  end.

(** The same between the states before and after [n] chunks, whose failures
    have become errors of the run. *)
Definition settled (n : nat) (f f' : frame) : Prop :=
  mode (total_stats f') = mode (total_stats f) ∧
  total_batches (total_stats f') + length (batch_ids (total_stats f))
    = total_batches (total_stats f) + length (batch_ids (total_stats f')) ∧
  total_batches (total_stats f) ≤ total_batches (total_stats f') ∧
  errors (total_stats f) ≤ errors (total_stats f') ∧
  errors (total_stats f') ≤ errors (total_stats f) + n ∧
  length (flushed f) + total_batches (total_stats f')
    ≤ length (flushed f') + total_batches (total_stats f) ∧
  length (flushed f') + total_batches (total_stats f) + errors (total_stats f)
    ≤ length (flushed f) + total_batches (total_stats f') + errors (total_stats f').

(** The staging and archive tables are as they were. *)
Definition same_tables : world → world → Prop :=
  λ w w', stage (db w') = stage (db w) ∧ archive (db w') = archive (db w).

(** Nothing was counted and nothing staged. *)
Definition nothing_staged : frame → frame → Prop :=
  λ f f', total_stats f' = total_stats f ∧ same_tables (env f) (env f').

(** The keys in the staging table of orders that are not NULL, which is what
    [append_data] reads back; the records of a batch that it inserts: those
    without a key, and those whose key is not staged yet; the records of a
    batch without a key. *)
Definition existing_keys (w : world) : list value :=
  omap AmazonOrderId (stage_rows (db w) "Orders").

Definition new_orders (data : list record) (w : world) : list record :=
  List.filter
    (λ r, not_in_keys (remove_dups (existing_keys w)) (assoc "AmazonOrderId" r)) data.


(** The rows that an INSERT of [records] by batch [b] adds. *)
Definition inserted_by (b : uuid) (records : list record) (new : list staging_row)
    : Prop :=
  RawData <$> new = records ∧
  Forall (λ row, BatchId row = Some b ∧ ValidationStatus row = "PENDING" ∧
                 AmazonOrderId row = assoc "AmazonOrderId" (RawData row)) new.

(** The later of two dates, NULL being earlier than every date. *)
Definition date_max (a b : option Z) : option Z :=
  match a, b with
  | Some x, Some y => Some (Z.max x y)
  | Some x, None => Some x
  | None, _ => b
  end.

(** The identity column of the control table is ahead of every entry. *)
Definition ledger_ok (d : database) : Prop :=
  Forall (λ c, Id c ≤ control_identity d) (control d).

(** The IN_PROGRESS entry that [record_processing_start] inserts. *)
Definition started_entry (table_name : string) (w : world) : control_entry :=
  {| Id := S (control_identity (db w)); DataType := table_name;
     LastProcessedDate := None; LastBatchId := uuids w;
     RecordsProcessed := None; Status := IN_PROGRESS;
     ProcessingStartTime := clock w; ProcessingEndTime := None |}.

(** The answer of the checkpoint query over the rows it selects. *)
Definition best (rows : list control_entry) : option Z :=
  match top1 rows with
  | Some row => LastProcessedDate row
  | None => None
  end.

(** Time that passes between two calls of the limiter. *)
Definition elapse (d : Q) : M RateLimiter.state unit :=
  modify (λ s, {| RateLimiter.self := RateLimiter.self s;
                  RateLimiter.time := (RateLimiter.time s + d)%Q |}).

(** An event logged between two states of a run. *)
Definition logged_between (f f' : BatchProcessor.frame) (ev : event) : Prop :=
  ∃ t, trace (BatchProcessor.env f') = trace (BatchProcessor.env f) ++ t ∧ ev ∈ t.

(** ** SPAPIProcessor (sp_api/main.py) *)

Module SPAPIProcessor.

(** [BatchProcessor(batch_size=100, rate_limit_pause=1.0, max_retries=3)] *)
Definition batch_processor : config :=
  {| batch_size := 100; rate_limit_pause := second; max_retries := 3 |}.

(** [total_stats[...] += chunk_stats.get(..., 0)] and
    [total_stats['batch_ids'].extend(chunk_stats.get('batch_ids', []))] *)
Definition aggregate (total_stats chunk_stats : stats) : stats :=
  {| total_processed := total_processed total_stats + total_processed chunk_stats;
     total_batches := total_batches total_stats + total_batches chunk_stats;
     errors := errors total_stats + errors chunk_stats;
     batch_ids := batch_ids total_stats ++ batch_ids chunk_stats;
     mode := mode total_stats |}.

(** [while current_start < end_date]: the end of the 30-day chunk (the
    addition raises OverflowError past [datetime.max]), a pause of two seconds
    before every chunk but the first, then the batch processor on the chunk,
    whose statistics are added to the totals. *)
Fixpoint thirty_day_chunks (fuel : nat) (orders_api : OrdersAPI)
    (start_date current_start end_date : Z) (total_stats : stats) : M world stats :=
  match fuel with
  | 0 => mret total_stats
  | S fuel =>
      if decide (current_start < end_date)%Z then
        next ← lift (datetime_add current_start (timedelta_days 30));
        let current_end := Z.min next end_date in
        (if decide (start_date < current_start)%Z then sleep (2 * second)%Z else mret tt);;
        chunk_stats ←
          BatchProcessor.process_orders batch_processor orders_api
            current_start current_end "APPEND";
        thirty_day_chunks fuel orders_api start_date current_end end_date
          (aggregate total_stats chunk_stats)
      else mret total_stats
  end.

Definition process_orders (orders_api : OrdersAPI) (start_date end_date : Z)
    : M world stats :=
  try_except
    (thirty_day_chunks (Z.to_nat ((end_date - start_date) / timedelta_days 30) + 1)
       orders_api start_date start_date end_date (new_stats "APPEND"))
    (λ e, log (LogError "SPAPIProcessor.process_orders");; raise e).

End SPAPIProcessor.

(** The 7-day chunks of the 30-day chunks of a range, in the order in which
    the processor goes through them. *)
Definition weeks_of (months : list (Z * Z)) : list (Z * Z) :=
  months ≫= λ month, _chunk_date_range month.1 month.2 7.

(** ** SQLServerHandler._flatten_dict (sp_api/utils/sql_handler.py) *)

(** The values of a record as Python sees them: a dict, with its items in
    insertion order, or anything else.  Keys are strings, as in the JSON the
    API returns. *)
#[warnings="-register-all"]
Inductive pyvalue :=
| PyAtom (v : value)
| PyList (items : list pyvalue)
| PyDict (items : list (string * pyvalue)).

(** Induction on a value and, for a dict, on the values it holds. *)
Fixpoint pyvalue_nested_ind (P : pyvalue → Prop)
    (Hatom : ∀ v, P (PyAtom v)) (Hlist : ∀ items, P (PyList items))
    (Hdict : ∀ d, Forall (λ item : string * pyvalue, P item.2) d → P (PyDict d))
    (v : pyvalue) : P v :=
  match v with
  | PyAtom a => Hatom a
  | PyList items => Hlist items
  | PyDict d =>
      Hdict d
        ((fix all (d : list (string * pyvalue))
            : Forall (λ item : string * pyvalue, P item.2) d :=
            match d with
            | [] => List.Forall_nil _
            | item :: later =>
                List.Forall_cons _ item later
                  (pyvalue_nested_ind P Hatom Hlist Hdict item.2) (all later)
            end) d)
  end.

Definition is_dict (v : pyvalue) : bool :=
  match v with PyDict _ => true | _ => false end.

(** [d[k] = v]: a key that is present keeps its place and takes the value. *)
Fixpoint dict_set {V} (k : string) (v : V) (d : list (string * V)) : list (string * V) :=
  match d with
  | [] => [(k, v)]
  | (k', v') :: later =>
      if decide (k' = k) then (k, v) :: later else (k', v') :: dict_set k v later
  end.

(** [dict(items)] *)
Definition dict {V} (items : list (string * V)) : list (string * V) :=
  fold_left (λ d item, dict_set item.1 item.2 d) items [].

(** [f"{parent_key}.{k}" if parent_key else k] *)
Definition new_key (parent_key k : string) : string :=
  if decide (parent_key = "") then k else parent_key +:+ "." +:+ k.

Module SQLServerHandler.

(** [_flatten_dict(v, parent_key)] for a dict [v]; the method is only ever
    applied to dicts. *)
Fixpoint flatten (v : pyvalue) (parent_key : string) : list (string * pyvalue) :=
  match v with
  | PyDict d =>
      dict ((fix items (d : list (string * pyvalue)) : list (string * pyvalue) :=
               match d with
               | [] => []
               | (k, v) :: later =>
                   match v with
                   | PyDict _ => flatten v (new_key parent_key k) ++ items later
                   | _ => (new_key parent_key k, v) :: items later
                   end
               end) d)
  | _ => []
  end.

Definition _flatten_dict (d : list (string * pyvalue)) (parent_key : string)
    : list (string * pyvalue) :=
  flatten (PyDict d) parent_key.

End SQLServerHandler.

(** The items collected by the loop of [_flatten_dict], before [dict]. *)
Fixpoint flat_items (parent_key : string) (d : list (string * pyvalue))
    : list (string * pyvalue) :=
  match d with
  | [] => []
  | (k, v) :: later =>
      match v with
      | PyDict d' => SQLServerHandler._flatten_dict d' (new_key parent_key k)
                     ++ flat_items parent_key later
      | _ => (new_key parent_key k, v) :: flat_items parent_key later
      end
  end.

(** A dict none of whose values is a dict. *)
Definition flat (d : list (string * pyvalue)) : Prop :=
  Forall (λ item, is_dict item.2 = false) d.

Definition nested_sample : list (string * pyvalue) :=
  [("OrderTotal", PyDict [("Amount", PyAtom (VStr "10.00"));
                          ("CurrencyCode", PyAtom (VStr "USD"))]);
   ("AmazonOrderId", PyAtom (VStr "A"));
   ("ShippingAddress", PyDict [("City", PyAtom (VStr "Utrecht"));
                               ("Geo", PyDict [("Lat", PyAtom (VStr "52.1"))])]);
   ("Empty", PyDict []);
   ("OrderTotal.Amount", PyAtom (VStr "overwritten"))].

(** ** The API client (sp_api/auth/authenticator.py, sp_api/api/base_client.py)

    The token endpoint and the SP-API are the environment: the n-th POST to
    the token URL and the n-th request to the API are answered as the
    network says, after some latency.  Time is in seconds, as for the rate
    limiter. *)

Module BaseClient.

Local Open Scope Q_scope.

Inductive client_exn :=
| AuthenticationError (message : string)
| RateLimitError (message : string)
| SPAPIException (message : string)
| HTTPError (name : string) (status_code : option Z)
    (* requests.exceptions.HTTPError, or a subclass of that name; the status
       of its response, if it has one *)
| ClientResponseError (status : Z)      (* aiohttp: raise_for_status *)
| ClientConnectionError                 (* aiohttp: no answer *)
| UnboundLocalError (variable : string)
| AttributeError (attribute : string)
| OtherError (name : string).

Inductive outcome (A : Type) :=
| Returned (a : A)
| Raised (e : client_exn).
Arguments Returned {A} a.
Arguments Raised {A} e.

Inductive lwa_reply :=
| PostFails                           (* requests.post raises: there is no response *)
| BadStatus (status : Z)              (* raise_for_status raises HTTPError *)
| TokenData (access_token : string) (expires_in : Z).

Inductive http_reply :=
| NoAnswer
| Answer (status : Z) (body : pyvalue).

Record network := {
  lwa : nat → Q * lwa_reply;          (* latency and reply of the n-th POST *)
  upstream : nat → Q * http_reply;    (* latency and reply of the n-th request *)
}.

Record APIMetrics := {
  total_requests : nat;
  successful_requests : nat;
  failed_requests : nat;
  response_times : list Q;
  errors_by_type : list (string * nat);
}.

Record sent_request := {
  method : string;
  url : string;
  headers : list (string * string);
  params : pyvalue;
  json : pyvalue;
}.

Record client := {
  (* SPAPIAuthenticator *)
  _access_token : option string;
  _token_expiry : option Q;
  (* BaseClient *)
  rate_limiter : RateLimiter.limiter;
  metrics : APIMetrics;
  request_middlewares : list (pyvalue * pyvalue → outcome (pyvalue * pyvalue));
  response_middlewares : list (pyvalue → outcome pyvalue);
  base_url : string;
  (* the world *)
  time : Q;                           (* datetime.now(), time.time() *)
  posts : nat;                        (* POSTs to the token URL so far *)
  sent : list sent_request;           (* requests to the API so far *)
}.

Definition C (A : Type) : Type := client → outcome A * client.

#[global] Instance C_ret : MRet C := λ A a c, (Returned a, c).
#[global] Instance C_bind : MBind C := λ A B f m c,
  match m c with
  | (Returned a, c') => f a c'
  | (Raised e, c') => (Raised e, c')
  end.

Definition raise {A} (e : client_exn) : C A := λ c, (Raised e, c).
Definition gets {A} (f : client → A) : C A := λ c, (Returned (f c), c).
Definition modify (f : client → client) : C unit := λ c, (Returned tt, f c).

Definition set_token (access_token : option string) (expiry : option Q) (c : client)
    : client :=
  {| _access_token := access_token; _token_expiry := expiry;
     rate_limiter := rate_limiter c; metrics := metrics c;
     request_middlewares := request_middlewares c;
     response_middlewares := response_middlewares c; base_url := base_url c;
     time := time c; posts := posts c; sent := sent c |}.

Definition set_rate_limiter (l : RateLimiter.limiter) (t : Q) (c : client) : client :=
  {| _access_token := _access_token c; _token_expiry := _token_expiry c;
     rate_limiter := l; metrics := metrics c;
     request_middlewares := request_middlewares c;
     response_middlewares := response_middlewares c; base_url := base_url c;
     time := t; posts := posts c; sent := sent c |}.

Definition set_metrics (m : APIMetrics) (c : client) : client :=
  {| _access_token := _access_token c; _token_expiry := _token_expiry c;
     rate_limiter := rate_limiter c; metrics := m;
     request_middlewares := request_middlewares c;
     response_middlewares := response_middlewares c; base_url := base_url c;
     time := time c; posts := posts c; sent := sent c |}.

(** The token endpoint answers the POST. *)
Definition posted (latency : Q) (c : client) : client :=
  {| _access_token := _access_token c; _token_expiry := _token_expiry c;
     rate_limiter := rate_limiter c; metrics := metrics c;
     request_middlewares := request_middlewares c;
     response_middlewares := response_middlewares c; base_url := base_url c;
     time := time c + latency; posts := S (posts c); sent := sent c |}.

(** The API answers the request. *)
Definition requested (rq : sent_request) (latency : Q) (c : client) : client :=
  {| _access_token := _access_token c; _token_expiry := _token_expiry c;
     rate_limiter := rate_limiter c; metrics := metrics c;
     request_middlewares := request_middlewares c;
     response_middlewares := response_middlewares c; base_url := base_url c;
     time := time c + latency; posts := posts c; sent := sent c ++ [rq] |}.

(** Time passes between two calls. *)
Definition later (d : Q) (c : client) : client :=
  set_rate_limiter (rate_limiter c) (time c + d) c.

(** [SPAPIAuthenticator._get_lwa_token].  When [requests.post] itself raises,
    the handler reads [response], which was never bound. *)
Definition _get_lwa_token (net : network) : C (string * Z) := λ c,
  let '(latency, reply) := lwa net (posts c) in
  let c := posted latency c in
  match reply with
  | PostFails => (Raised (UnboundLocalError "response"), c)
  | BadStatus status => (Raised (AuthenticationError "Failed to get LWA token"), c)
  | TokenData access_token expires_in => (Returned (access_token, expires_in), c)
  end.

Definition fetch_token (net : network) : C string :=
  token_data ← _get_lwa_token net;
  now ← gets time;
  modify (set_token (Some token_data.1) (Some (now + inject_Z token_data.2)));;
  mret token_data.1.

(** [SPAPIAuthenticator.get_auth_token] *)
Definition get_auth_token (net : network) : C string := λ c,
  match _access_token c, _token_expiry c with
  | Some access_token, Some expiry =>
      if decide (access_token = "") then fetch_token net c
      else if Qle_bool expiry (time c) then fetch_token net c
      else (Returned access_token, c)
  | _, _ => fetch_token net c
  end.

(** [BaseClient._get_headers] and [SPAPIAuthenticator.get_headers] *)
Definition _get_headers : list (string * string) :=
  [("Content-Type", "application/json"); ("Accept", "application/json");
   ("User-Agent", "SP-API/Python/1.0")].

Definition get_headers (net : network) (base_headers : list (string * string))
    : C (list (string * string)) :=
  access_token ← get_auth_token net;
  mret (dict_set "x-amz-access-token" access_token base_headers).

(** [BaseClient._do_request] *)
Definition _do_request (net : network) (method endpoint : string)
    (params data : pyvalue) : C pyvalue :=
  url ← gets (λ c, base_url c +:+ endpoint);
  headers ← get_headers net _get_headers;
  n ← gets (λ c, length (sent c));
  let '(latency, reply) := upstream net n in
  modify (requested {| method := method; url := url; headers := headers;
                       params := params; json := data |} latency);;
  match reply with
  | NoAnswer => raise ClientConnectionError
  | Answer status body =>
      if decide (status = 403)%Z then raise (AuthenticationError "Authentication failed")
      else if decide (400 ≤ status)%Z then raise (ClientResponseError status)
      else mret body
  end.

(** [await self.rate_limiter.acquire(endpoint)]; it does not raise. *)
Definition acquire (endpoint : string) (jitter overshoot : Q) : C unit :=
  modify (λ c,
    let s := (RateLimiter.acquire endpoint jitter overshoot
                {| RateLimiter.self := rate_limiter c; RateLimiter.time := time c |}).2 in
    set_rate_limiter (RateLimiter.self s) (RateLimiter.time s) c).

Fixpoint apply_middlewares {A} (middlewares : list (A → outcome A)) (x : A) : C A :=
  match middlewares with
  | [] => mret x
  | middleware :: rest =>
      match middleware x with
      | Returned x' => apply_middlewares rest x'
      | Raised e => raise e
      end
  end.

Definition count_success (start_time : Q) : C unit :=
  modify (λ c,
    let m := metrics c in
    set_metrics {| total_requests := total_requests m + 1;
                   successful_requests := successful_requests m + 1;
                   failed_requests := failed_requests m;
                   response_times := response_times m ++ [time c - start_time];
                   errors_by_type := errors_by_type m |} c).

Definition count_failure (error_type : string) : C unit :=
  modify (λ c,
    let m := metrics c in
    set_metrics {| total_requests := total_requests m;
                   successful_requests := successful_requests m;
                   failed_requests := failed_requests m + 1;
                   response_times := response_times m;
                   errors_by_type :=
                     dict_set error_type
                       (default 0%nat (assoc error_type (errors_by_type m)) + 1)%nat
                       (errors_by_type m) |} c).

(** [except requests.exceptions.HTTPError as e] *)
Definition on_http_error (e : client_exn) : C pyvalue :=
  match e with
  | HTTPError name status_code =>
      count_failure name;;
      match status_code with
      | None => raise (AttributeError "status_code")
      | Some status =>
          if decide (status = 429)%Z then raise (RateLimitError "Rate limit exceeded")
          else if decide (status = 401)%Z
               then raise (AuthenticationError "Authentication failed")
               else raise (SPAPIException "API request failed")
      end
  | _ => raise e
  end.

(** [BaseClient._make_request] *)
Definition _make_request (net : network) (jitter overshoot : Q)
    (method endpoint : string) (params data : pyvalue) : C pyvalue := λ c,
  match
    (acquire endpoint jitter overshoot;;
     start_time ← gets time;
     middlewares ← gets request_middlewares;
     request ← apply_middlewares middlewares (params, data);
     response ← _do_request net method endpoint request.1 request.2;
     count_success start_time;;
     middlewares ← gets response_middlewares;
     apply_middlewares middlewares response) c
  with
  | (Returned response, c') => (Returned response, c')
  | (Raised e, c') => on_http_error e c'
  end.

(** [APIMetrics()] *)
Definition new_metrics : APIMetrics :=
  {| total_requests := 0; successful_requests := 0; failed_requests := 0;
     response_times := []; errors_by_type := [] |}.

End BaseClient.

(** The counters of [APIMetrics] agree with each other. *)
Definition metrics_ok (m : BaseClient.APIMetrics) : Prop :=
  BaseClient.total_requests m = BaseClient.successful_requests m ∧
  BaseClient.total_requests m = length (BaseClient.response_times m) ∧
  BaseClient.failed_requests m = sum_list (BaseClient.errors_by_type m).*2.

(** A client as [BaseClient()] builds it, at time 0. *)
Definition new_client : BaseClient.client :=
  {| BaseClient._access_token := None; BaseClient._token_expiry := None;
     BaseClient.rate_limiter :=
       {| RateLimiter.calls_per_second := 1; RateLimiter.minimum_interval := 1;
          RateLimiter.last_call_time := ∅ |};
     BaseClient.metrics := BaseClient.new_metrics;
     BaseClient.request_middlewares := []; BaseClient.response_middlewares := [];
     BaseClient.base_url := "https://sellingpartnerapi-na.amazon.com";
     BaseClient.time := 0; BaseClient.posts := 0; BaseClient.sent := [] |}.

(** A network whose token endpoint hands out a one-hour token and whose API
    answers 429 to everything. *)
Definition throttling : BaseClient.network :=
  {| BaseClient.lwa := λ _, (1 # 2, BaseClient.TokenData "Atza|token" 3600)%Q;
     BaseClient.upstream := λ _, (1 # 4, BaseClient.Answer 429 (PyDict []))%Q |}.

(** A computation of the client leaves an observation of it as it was. *)
Definition unchanged {A X} (f : BaseClient.client → X) (m : BaseClient.C A) : Prop :=
  ∀ c r c', m c = (r, c') → f c' = f c.

(** The metrics after one more successful request that took [t] seconds. *)
Definition counted (m : BaseClient.APIMetrics) (t : Q) : BaseClient.APIMetrics :=
  {| BaseClient.total_requests := BaseClient.total_requests m + 1;
     BaseClient.successful_requests := BaseClient.successful_requests m + 1;
     BaseClient.failed_requests := BaseClient.failed_requests m;
     BaseClient.response_times := BaseClient.response_times m ++ [t];
     BaseClient.errors_by_type := BaseClient.errors_by_type m |}.

(** What the client does before it reaches the API: the limiter, then the
    token. *)
Definition acquired (endpoint : string) (jitter overshoot : Q) (c : BaseClient.client)
    : BaseClient.client :=
  (BaseClient.acquire endpoint jitter overshoot c).2.

(** The part of the client that only [_make_request] itself writes. *)
Definition bookkeeping (c : BaseClient.client) :=
  (BaseClient.metrics c, BaseClient.request_middlewares c,
   BaseClient.response_middlewares c, BaseClient.base_url c).

(** * Properties *)

(** ** The monad *)

Lemma bind_ok {S A B} (m : M S A) (f : A → M S B) s a s' :
  m s = (Ok a, s') → (m ≫= f) s = f a s'.
Proof. intros H. unfold mbind, M_bind. by rewrite H. Qed.

Lemma bind_raise {S A B} (m : M S A) (f : A → M S B) s e s' :
  m s = (Raise e, s') → (m ≫= f) s = (Raise e, s').
Proof. intros H. unfold mbind, M_bind. by rewrite H. Qed.

Lemma bind_inv {S A B} (m : M S A) (f : A → M S B) s r s' :
  (m ≫= f) s = (r, s') →
  (∃ a s1, m s = (Ok a, s1) ∧ f a s1 = (r, s')) ∨ (∃ e, m s = (Raise e, s') ∧ r = Raise e).
Proof.
  unfold mbind, M_bind. destruct (m s) as [[a|e] s1]; [left|right]; [by eauto|].
  exists e. by simplify_eq.
Qed.

Lemma bind_inv_ok {S A B} (m : M S A) (f : A → M S B) s b s' :
  (m ≫= f) s = (Ok b, s') → ∃ a s1, m s = (Ok a, s1) ∧ f a s1 = (Ok b, s').
Proof. intros [H|(e & _ & [=])]%bind_inv. done. Qed.

(** A [for] loop over a generator ends in the state its last body left. *)
Lemma for_each_yielded_inv {S A} (items : list A) (raises : option exn)
    (body : A → M S unit) s r s' :
  for_each_yielded items raises body s = (r, s') →
  ∃ r0, for_each items body s = (r0, s') ∧
        (r0 = Ok tt → r = match raises with Some e => Raise e | None => Ok tt end).
Proof.
  unfold for_each_yielded, mbind, M_bind.
  destruct (for_each items body s) as [[[]|e] s1].
  - destruct raises; intros [= <- <-]; by eexists.
  - intros [= <- <-]. by eexists.
Qed.

Lemma try_except_inv {S A} (body : M S A) (handler : exn → M S A) s r s' :
  try_except body handler s = (r, s') →
  (∃ a, body s = (Ok a, s') ∧ r = Ok a) ∨
  (∃ e s1, body s = (Raise e, s1) ∧ handler e s1 = (r, s')).
Proof.
  unfold try_except. destruct (body s) as [[a|e] s1]; [left|right].
  - exists a. by simplify_eq.
  - by eauto.
Qed.

(** ** Transactions *)

Lemma transaction_refused {A} (body : Z → database → result (A * database)) w e later :
  refusals w = Some e :: later →
  transaction body w = (Raise e, set_refusals later w).
Proof. intros H. unfold transaction. by rewrite H. Qed.

Lemma transaction_accepted {A} (body : Z → database → result (A * database)) w :
  accepting w = true →
  transaction body w =
    match body (clock w) (db w) with
    | Ok (a, d) => (Ok a, set_db d (set_refusals (tail (refusals w)) w))
    | Raise e => (Raise e, set_refusals (tail (refusals w)) w)
    end.
Proof.
  unfold accepting, transaction. destruct (refusals w) as [|[e|] later]; [done| done |done].
Qed.

(** ** process_inventory_incremental *)

(** C8. [process_inventory_incremental] looks up [archive_inventory_data] on
    the staging handler, which neither StagingHandler nor its base class
    defines: for every world, API and SKU list the call raises AttributeError,
    having issued no upstream call and left the database as it was. *)
Theorem process_inventory_incremental_raises
    (self : config) (inventory_api : InventoryAPI) (sku_list : option (list string))
    (w : world) :
  hasattr "archive_inventory_data" = false ∧
  ∃ w', process_inventory_incremental self inventory_api sku_list w
        = (Raise (AttributeError "archive_inventory_data"), w') ∧
        db w' = db w ∧
        trace w' = trace w ++ [LogError "process_inventory_incremental"].
Proof.
  split; [by vm_compute|].
  eexists. split; [reflexivity|]. by split.
Qed.

(** ** The checkpoint query *)

Lemma date_le_refl a : date_le a a = true.
Proof. destruct a; simpl; [|done]. by apply bool_decide_eq_true. Qed.

Lemma date_le_trans a b c : date_le a b = true → date_le b c = true → date_le a c = true.
Proof.
  destruct a, b, c; simpl; try done.
  rewrite !bool_decide_eq_true. lia.
Qed.

Lemma date_le_total a b : date_le a b = false → date_le b a = true.
Proof.
  destruct a, b; simpl; try done.
  rewrite bool_decide_eq_false, bool_decide_eq_true. lia.
Qed.

Lemma top1_none rows : top1 rows = None → rows = [].
Proof.
  destruct rows as [|c later]; [done|]. simpl.
  destruct (top1 later); [|done]. by case (date_le _ _).
Qed.

Lemma top1_greatest rows c :
  top1 rows = Some c →
  c ∈ rows ∧ ∀ c', c' ∈ rows → date_le (LastProcessedDate c') (LastProcessedDate c) = true.
Proof.
  revert c. induction rows as [|c0 later IH]; intros c; [done|]. simpl.
  destruct (top1 later) as [c1|] eqn:Htop.
  - destruct (IH c1 eq_refl) as [Hin Hmax].
    destruct (date_le (LastProcessedDate c1) (LastProcessedDate c0)) eqn:Hle;
      intros [= <-]; (split; [set_solver|]); intros c' [->|Hc']%elem_of_cons.
    + apply date_le_refl.
    + eapply date_le_trans; [by apply Hmax|done].
    + by apply date_le_total.
    + by apply Hmax.
  - apply top1_none in Htop as ->. intros [= <-].
    split; [set_solver|]. intros c' [->|Hc']%elem_of_cons; [apply date_le_refl|].
    by apply elem_of_nil in Hc'.
Qed.

Lemma succeeded_spec data_type c :
  succeeded data_type c = true ↔ DataType c = data_type ∧ Status c = SUCCESS.
Proof.
  unfold succeeded. by rewrite andb_true_iff, !bool_decide_eq_true.
Qed.

Lemma date_le_spec a b :
  date_le a b = true ↔ ∀ t, a = Some t → ∃ t', b = Some t' ∧ (t ≤ t')%Z.
Proof.
  destruct a as [x|], b as [y|]; simpl; split; try done.
  - rewrite bool_decide_eq_true. intros H t [= <-]. eauto.
  - intros H. destruct (H x eq_refl) as (t' & [= <-] & Hle). by apply bool_decide_eq_true.
  - intros H. by destruct (H x eq_refl) as (t' & [=] & _).
Qed.

(** After an APPEND run of a batch of older orders, the SUCCESS entry
    written last carries date 7, and the query still answers 9, the date of
    an earlier entry. *)
Lemma get_last_processed_date_most_recent_counterexample :
  ¬ most_recent_success_as_stated "Orders" late_batch.
Proof.
  intros H.
  destruct (get_last_processed_date "Orders" late_batch) as [r w'] eqn:Hrun.
  assert (Hr : r = Ok (Some 9%Z)) by (vm_compute in Hrun; by injection Hrun as <- _).
  subst r. specialize (H _ _ Hrun). vm_compute in H. discriminate H.
Qed.

(** C9. When the server answers the query, [get_last_processed_date] returns
    the greatest LastProcessedDate among the SUCCESS entries of the data
    type: the date of such an entry which no other such entry is later than,
    whichever of them was written last; and None when the data type has no
    SUCCESS entry.  With None, [process_orders_incremental] is
    [process_orders] from thirty days before now, in APPEND mode (thirty days
    before now being a datetime). *)
Theorem get_last_processed_date_greatest
    (data_type : string) (w : world) (self : config) (orders_api : OrdersAPI)
    (end_date : option Z) :
  accepting w = true →
  let answered := set_refusals (tail (refusals w)) w in
  ∃ checkpoint,
    get_last_processed_date data_type w = (Ok checkpoint, answered) ∧
    ((∃ c, c ∈ control (db w) ∧ DataType c = data_type ∧ Status c = SUCCESS ∧
           checkpoint = LastProcessedDate c ∧
           ∀ c' t', c' ∈ control (db w) → DataType c' = data_type →
                    Status c' = SUCCESS → LastProcessedDate c' = Some t' →
                    ∃ t, checkpoint = Some t ∧ (t' ≤ t)%Z)
     ∨ (checkpoint = None ∧
        ∀ c, c ∈ control (db w) → ¬ (DataType c = data_type ∧ Status c = SUCCESS))) ∧
    (last_processed_query "Orders" (db w) = None →
     (datetime_min ≤ clock w - timedelta_days 30 ≤ datetime_max)%Z →
     process_orders_incremental self orders_api end_date w
     = process_orders self orders_api (clock w - timedelta_days 30)%Z
         (default (clock w) end_date) "APPEND" answered).
Proof.
  intros Hacc answered. exists (last_processed_query data_type (db w)).
  split; [|split].
  - unfold get_last_processed_date. by rewrite transaction_accepted.
  - unfold last_processed_query.
    destruct (top1 _) as [c|] eqn:Htop.
    + left. apply top1_greatest in Htop as [Hin Hmax].
      apply list_elem_of_In, filter_In in Hin as [Hin Hc].
      apply succeeded_spec in Hc as [Hdt Hst].
      exists c. repeat split; try done; [by apply list_elem_of_In|].
      intros c' t' Hin' Hdt' Hst' Hdate.
      assert (Hle : date_le (LastProcessedDate c') (LastProcessedDate c) = true).
      { apply Hmax, list_elem_of_In, filter_In. split; [by apply list_elem_of_In|].
        by apply succeeded_spec. }
      by apply (proj1 (date_le_spec _ _) Hle).
    + right. split; [done|]. apply top1_none in Htop.
      intros c Hin Hc.
      assert (Hf : In c (List.filter (succeeded data_type) (control (db w)))).
      { apply filter_In. split; [by apply list_elem_of_In|by apply succeeded_spec]. }
      by rewrite Htop in Hf.
  - intros Hnone Hrange. unfold process_orders_incremental.
    rewrite (bind_ok _ _ w None answered).
    2:{ unfold get_last_processed_date. rewrite transaction_accepted by done.
        by rewrite Hnone. }
    erewrite bind_ok.
    2:{ erewrite bind_ok by reflexivity. unfold lift, datetime_add.
        replace (clock answered + - timedelta_days 30)%Z
          with (clock w - timedelta_days 30)%Z by (simpl; lia).
        by rewrite decide_True. }
    by destruct end_date.
Qed.

Lemma get_last_processed_date_greatest_witness :
  accepting late_batch = true ∧
  (∃ c, c ∈ control (db late_batch) ∧ Status c = SUCCESS ∧
        (get_last_processed_date "Orders" late_batch).1 = Ok (LastProcessedDate c) ∧
        LastProcessedDate c = Some 9%Z) ∧
  process_orders_incremental two_per_batch scenario_api None fresh_world
  = process_orders two_per_batch scenario_api (- timedelta_days 30)%Z 0%Z "APPEND"
      fresh_world.
Proof.
  split; [reflexivity|]. split.
  - destruct (get_last_processed_date_greatest "Orders" late_batch two_per_batch
                scenario_api None eq_refl) as (checkpoint & Hrun & Hgreatest & _).
    rewrite Hrun.
    assert (Hnine : checkpoint = Some 9%Z).
    { assert (Hfirst : (get_last_processed_date "Orders" late_batch).1 = Ok (Some 9%Z))
        by (vm_compute; reflexivity).
      rewrite Hrun in Hfirst. by injection Hfirst. }
    destruct Hgreatest as [(c & Hin & _ & Hst & Hcp & _)|(Hnone & _)]; [|congruence].
    exists c. split; [done|]. split; [done|].
    split; [simpl; by rewrite Hcp|by rewrite <- Hcp].
  - assert (Hrange : (datetime_min ≤ clock fresh_world - timedelta_days 30
                        ≤ datetime_max)%Z) by (split; discriminate).
    destruct (get_last_processed_date_greatest "Orders" fresh_world two_per_batch
                scenario_api None eq_refl) as (_ & _ & _ & Hdefault).
    exact (Hdefault eq_refl Hrange).
Defined.

(** ** What each statement of the staging handler touches *)

Lemma transaction_inv {A} (body : Z → database → result (A * database)) w r w' :
  transaction body w = (r, w') →
  (∃ e later, refusals w = Some e :: later ∧ r = Raise e ∧ w' = set_refusals later w) ∨
  (accepting w = true ∧
   ((∃ a d, body (clock w) (db w) = Ok (a, d) ∧ r = Ok a ∧
            w' = set_db d (set_refusals (tail (refusals w)) w)) ∨
    (∃ e, body (clock w) (db w) = Raise e ∧ r = Raise e ∧
          w' = set_refusals (tail (refusals w)) w))).
Proof.
  destruct (accepting w) eqn:Hacc.
  - rewrite transaction_accepted by done. intros H. right. split; [done|].
    destruct (body _ _) as [[a d]|e]; simplify_eq; [left|right]; eauto.
  - unfold accepting in Hacc. destruct (refusals w) as [|[e|] later] eqn:Hr; try done.
    rewrite (transaction_refused _ _ _ _ Hr). intros [= <- <-]. left. eauto.
Qed.

Lemma or_now_returns last_processed_date w :
  ∃ t, or_now last_processed_date w = (Ok t, w).
Proof. destruct last_processed_date; eexists; reflexivity. Qed.

Lemma start_batch_inv table_name w r w' :
  start_batch table_name w = (r, w') →
  stage (db w') = stage (db w) ∧ archive (db w') = archive (db w) ∧
  trace w' = trace w ∧
  ((∃ e, r = Raise e ∧ control (db w') = control (db w)) ∨
   (∃ c, r = Ok (uuids w, S (control_identity (db w))) ∧
         control (db w') = control (db w) ++ [c] ∧
         Id c = S (control_identity (db w)) ∧ Status c = IN_PROGRESS ∧
         DataType c = table_name)).
Proof.
  unfold start_batch, uuid4, record_processing_start. intros H.
  apply bind_inv in H as [(b & w1 & [= <- <-] & H)|(e & [=] & _)].
  apply bind_inv in H as [(cid & w2 & H & [= <- <-])|(e & H & ->)];
    apply transaction_inv in H as [(e' & later & Hr & ? & ->)|[Hacc [(a & d & [= <- <-] & ? & ->)|(e' & [=] & _)]]];
    simplify_eq; simpl; repeat split; try done;
    first [left; by eexists | right; eexists; by repeat split].
Qed.

Lemma record_processing_complete_inv control_id t n st w r w' :
  record_processing_complete control_id t n st w = (r, w') →
  stage (db w') = stage (db w) ∧ archive (db w') = archive (db w) ∧
  trace w' = trace w ∧
  ((∃ e, r = Raise e ∧ accepting w = false ∧ control (db w') = control (db w)) ∨
   (r = Ok tt ∧ accepting w = true ∧
    control (db w') = complete_entry (clock w) control_id t n st <$> control (db w))).
Proof.
  unfold record_processing_complete. intros H.
  apply transaction_inv in H as [(e' & later & Hr & ? & ->)|[Hacc [(a & d & [= <- <-] & ? & ->)|(e' & [=] & _)]]];
    simplify_eq; simpl; repeat split; try done.
  - left. exists e'. repeat split; try done. unfold accepting. by rewrite Hr.
  - by right.
Qed.

Lemma at_table_same {A} table_name (a : A) f : at_table table_name a f table_name = a.
Proof. unfold at_table. by case_decide. Qed.

Lemma at_table_other {A} table_name (a : A) f t :
  t ≠ table_name → at_table table_name a f t = f t.
Proof. unfold at_table. by case_decide. Qed.

Lemma stage_rows_set_stage table_name rows n d :
  stage_rows (set_stage table_name rows n d) table_name = rows.
Proof. unfold stage_rows. simpl. unfold at_table. by case_decide. Qed.

Lemma stage_rows_delete_stage table_name rows d :
  stage_rows (delete_stage table_name rows d) table_name = rows.
Proof. unfold stage_rows. simpl. unfold at_table. by case_decide. Qed.

Lemma archive_rows_delete_stage table_name rows d t :
  archive_rows (delete_stage table_name rows d) t = archive_rows d t.
Proof. done. Qed.

Lemma archive_rows_set_archive table_name rows n d :
  archive_rows (set_archive table_name rows n d) table_name = rows.
Proof. unfold archive_rows. simpl. unfold at_table. by case_decide. Qed.

Lemma execute_inserts_inv table_name getdate b key records d d' :
  execute_inserts table_name getdate b key records d = Ok d' →
  length (stage_rows d' table_name) = length (stage_rows d table_name) + length records ∧
  archive d' = archive d ∧ control d' = control d ∧
  (records ≠ [] → has_columns STAGING_SCHEMAS table_name insert_columns = true).
Proof.
  revert d. induction records as [|r later IH]; intros d; simpl.
  - intros [= <-]. repeat split; [lia|done].
  - unfold execute_insert. destruct (has_columns _ _ _) eqn:Hcols; [|done].
    intros (Hlen & Harch & Hctl & _)%IH. repeat split; try done.
    rewrite Hlen, stage_rows_set_stage, length_app. simpl. lia.
Qed.

Lemma insert_records_inv table_name b key records w u w' :
  insert_records table_name b key records w = (Ok u, w') →
  length (stage_rows (db w') table_name)
    = length (stage_rows (db w) table_name) + length records ∧
  archive (db w') = archive (db w) ∧ control (db w') = control (db w).
Proof.
  unfold insert_records. intros H.
  apply transaction_inv in H as [(e' & later & Hr & [=] & _)|[Hacc [(a & d & H & _ & ->)|(e' & _ & [=] & _)]]].
  destruct (execute_inserts _ _ _ _ _ _) as [d'|] eqn:Hins; simplify_eq.
  apply execute_inserts_inv in Hins as (? & ? & ? & _). by simpl.
Qed.

Lemma filter_all {A} (l : list A) : List.filter (λ _, true) l = l.
Proof. induction l; simpl; congruence. Qed.

Lemma filter_none {A} (l : list A) : List.filter (λ _, false) l = [].
Proof. by induction l. Qed.

Lemma archive_everything_inv table_name w u w' :
  archive_data table_name None w = (Ok u, w') →
  stage_rows (db w') table_name = [] ∧
  length (archive_rows (db w') table_name)
    = length (archive_rows (db w) table_name) + length (stage_rows (db w) table_name) ∧
  control (db w') = control (db w).
Proof.
  unfold archive_data. intros H.
  apply transaction_inv in H as [(e' & later & Hr & [=] & _)|[Hacc [(a & d & H & _ & ->)|(e' & _ & [=] & _)]]].
  destruct (_ && _); simplify_eq. simpl.
  rewrite !at_table_same.
  change (selected None) with (λ _ : staging_row, true).
  by rewrite filter_none, filter_all, length_app, length_imap.
Qed.

(** ** REPLACE *)

Lemma on_failure_raises {A} origin control_id last_processed_date e w (r : result A) w' :
  on_failure origin control_id last_processed_date e w = (r, w') → ∃ e', r = Raise e'.
Proof.
  unfold on_failure. intros H.
  apply bind_inv in H as [(u & w1 & _ & H)|(e' & _ & ->)]; [|by eauto].
  destruct control_id as [cid|]; [|unfold raise in H; simplify_eq; by eauto].
  apply bind_inv in H as [(t & w2 & _ & H)|(e' & _ & ->)]; [|by eauto].
  apply bind_inv in H as [(u' & w3 & _ & H)|(e' & _ & ->)]; [|by eauto].
  unfold raise in H. simplify_eq. by eauto.
Qed.

(** C6, as amended.  After a [replace_data] that returns, the staging table
    holds exactly as many rows as the batch, and staging and archive together
    hold what staging and archive held before the run plus the batch. *)
Theorem replace_data_conservation
    (data : list record) (table_name : string) (last_processed_date : option Z)
    (w w' : world) (r : replace_result) :
  replace_data data table_name last_processed_date w = (Ok r, w') →
  length (stage_rows (db w') table_name) = length data ∧
  length (stage_rows (db w') table_name) + length (archive_rows (db w') table_name)
  = length (stage_rows (db w) table_name) + length (archive_rows (db w) table_name)
    + length data.
Proof.
  unfold replace_data. intros H.
  destruct (start_batch table_name w) as [[[b cid]|e] w1] eqn:Hstart.
  2:{ by apply on_failure_raises in H as [e' [=]]. }
  apply try_except_inv in H as [(a & H & [= <-])|(e & w2 & _ & H)].
  2:{ by apply on_failure_raises in H as [e' [=]]. }
  apply start_batch_inv in Hstart as (Hst & Har & _).
  unfold replace_steps in H.
  apply bind_inv_ok in H as (u1 & w2 & Harchive & H).
  apply bind_inv_ok in H as (u2 & w3 & Hinsert & H).
  apply bind_inv_ok in H as (t & w4 & Hnow & H).
  apply bind_inv_ok in H as (u3 & w5 & Hdone & [= <- <-]).
  destruct (or_now_returns last_processed_date w3) as [t' Ht']. rewrite Ht' in Hnow.
  simplify_eq.
  apply archive_everything_inv in Harchive as (Hempty & Harchived & _).
  apply insert_records_inv in Hinsert as (Hinserted & Harch' & _).
  apply record_processing_complete_inv in Hdone as (Hst' & Har' & _).
  unfold stage_rows, archive_rows in *.
  rewrite Hst', Har', Hinserted, Harch', Harchived, Hempty, Hst, Har. simpl. lia.
Qed.

(** The third REPLACE of a one-record batch finds one staged and one archived
    row and leaves one staged and two archived rows: three, not two. *)
Lemma replace_data_conservation_counterexample :
  ¬ replace_conservation_as_stated [order "C" 3] "Orders" None replaced_twice.
Proof.
  intros H.
  destruct (replace_data [order "C" 3] "Orders" None replaced_twice) as [r w'] eqn:Hrun.
  vm_compute in Hrun. destruct r as [r|e]; [|done].
  injection Hrun as <- <-.
  specialize (H _ _ ltac:(vm_compute; reflexivity)) as [Htotal _].
  vm_compute in Htotal. lia.
Qed.

Lemma replace_data_conservation_witness :
  ∃ r w', replace_data [order "C" 3] "Orders" None replaced_twice = (Ok r, w') ∧
          length (stage_rows (db w') "Orders") = 1 ∧
          length (stage_rows (db w') "Orders") + length (archive_rows (db w') "Orders")
          = length (stage_rows (db replaced_twice) "Orders")
            + length (archive_rows (db replaced_twice) "Orders") + 1.
Proof.
  destruct (replace_data [order "C" 3] "Orders" None replaced_twice) as [[r|e] w'] eqn:Hrun;
    [|by vm_compute in Hrun].
  exists r, w'. split; [done|].
  exact (replace_data_conservation _ _ _ _ _ _ Hrun).
Defined.

(** ** Failure of a write protocol *)

Lemma keeps_ret {S A X} (f : S → X) (a : A) : keeps f (mret a : M S A).
Proof. by intros s r s' [= <- <-]. Qed.

Lemma keeps_raise {S A X} (f : S → X) e : keeps f (raise e : M S A).
Proof. by intros s r s' [= <- <-]. Qed.

Lemma keeps_gets {S A X} (f : S → X) (g : S → A) : keeps f (gets g).
Proof. by intros s r s' [= <- <-]. Qed.

Lemma keeps_bind {S A B X} (f : S → X) (m : M S A) (k : A → M S B) :
  keeps f m → (∀ a, keeps f (k a)) → keeps f (m ≫= k).
Proof.
  intros Hm Hk s r s' [(a & s1 & H1 & H2)|(e & H1 & _)]%bind_inv.
  - rewrite (Hk _ _ _ _ H2). eauto.
  - eauto.
Qed.

Lemma keeps_try_except {S A X} (f : S → X) (body : M S A) handler :
  keeps f body → (∀ e, keeps f (handler e)) → keeps f (try_except body handler).
Proof.
  intros Hm Hk s r s' [(a & H1 & _)|(e & s1 & H1 & H2)]%try_except_inv.
  - eauto.
  - rewrite (Hk _ _ _ _ H2). eauto.
Qed.

Lemma keeps_transaction {A X} (f : database → X)
    (body : Z → database → result (A * database)) :
  (∀ t d a d', body t d = Ok (a, d') → f d' = f d) →
  keeps (λ w, f (db w)) (transaction body).
Proof.
  intros Hbody w r w' H.
  apply transaction_inv in H
    as [(e & later & _ & _ & ->)|[_ [(a & d & H & _ & ->)|(e & _ & _ & ->)]]];
    simpl; eauto.
Qed.

Lemma keeps_log {X} (f : database → X) ev : keeps (λ w, f (db w)) (log ev).
Proof. by intros s r s' [= <- <-]. Qed.

Lemma keeps_or_now {X} (f : world → X) last_processed_date :
  keeps f (or_now last_processed_date).
Proof.
  intros w r w' H. destruct (or_now_returns last_processed_date w) as [t Ht].
  rewrite Ht in H. by simplify_eq.
Qed.

Lemma complete_entry_id getdate control_id t n st c :
  Id (complete_entry getdate control_id t n st c) = Id c.
Proof. unfold complete_entry. by case_decide. Qed.

Lemma keeps_ids_complete control_id t n st :
  keeps (λ w, control_ids (db w)) (record_processing_complete control_id t n st).
Proof.
  apply keeps_transaction. intros getdate d a d' [= _ <-].
  unfold control_ids. simpl. rewrite <- list_fmap_compose.
  apply list_fmap_ext. intros i c _. apply complete_entry_id.
Qed.

Lemma keeps_ids_select key table_name :
  keeps (λ w, control_ids (db w)) (select_existing_keys key table_name).
Proof.
  apply keeps_transaction. intros getdate d a d'.
  by destruct (has_columns _ _ _); intros [= _ <-].
Qed.

Lemma keeps_ids_insert table_name b key records :
  keeps (λ w, control_ids (db w)) (insert_records table_name b key records).
Proof.
  apply keeps_transaction. intros getdate d a d'.
  destruct (execute_inserts _ _ _ _ _ _) as [d1|] eqn:Hins; [|done].
  intros [= _ <-]. apply execute_inserts_inv in Hins as (_ & _ & Hc & _).
  unfold control_ids. by rewrite Hc.
Qed.

Lemma keeps_ids_archive table_name b :
  keeps (λ w, control_ids (db w)) (archive_data table_name b).
Proof.
  apply keeps_transaction. intros getdate d a d'.
  by destruct (_ && _); intros [= _ <-].
Qed.

Lemma keeps_ids_steps m data table_name last_processed_date b control_id :
  keeps (λ w, control_ids (db w))
    (write_steps m data table_name last_processed_date b control_id).
Proof.
  destruct m; simpl; unfold append_steps, replace_steps;
    repeat first
      [ apply keeps_bind; [|intros ?]
      | apply keeps_ret
      | apply keeps_ids_select
      | apply keeps_ids_insert
      | apply keeps_ids_archive
      | apply keeps_ids_complete
      | apply (keeps_or_now (λ w, control_ids (db w)))
      | destruct (dedup_key_of table_name) ].
Qed.

Lemma on_failure_accepted {A} origin control_id last_processed_date e w :
  accepting w = true →
  ∃ w', on_failure (A := A) origin (Some control_id) last_processed_date e w
        = (Raise e, w') ∧
        ∀ c, c ∈ control (db w') →
             (∃ c0, c0 ∈ control (db w) ∧ Id c0 = Id c) ∧
             (Id c = control_id → Status c = ERROR ∧ RecordsProcessed c = Some 0).
Proof.
  intros Hacc. unfold on_failure.
  destruct (or_now_returns last_processed_date (run_of (log (LogError origin)) w))
    as [t Ht].
  eexists. split.
  - erewrite bind_ok by reflexivity. erewrite bind_ok by exact Ht.
    erewrite bind_ok; [reflexivity|].
    unfold record_processing_complete. by rewrite transaction_accepted.
  - simpl. intros c (c0 & -> & Hc0)%list_elem_of_fmap. split.
    + exists c0. by rewrite complete_entry_id.
    + unfold complete_entry. case_decide; [done|]. simpl. congruence.
Qed.

Lemma on_failure_control {A} origin control_id last_processed_date e w :
  accepting w = true →
  ∃ w', on_failure (A := A) origin (Some control_id) last_processed_date e w
        = (Raise e, w') ∧
        control_ids (db w') = control_ids (db w) ∧
        ∀ c, c ∈ control (db w') → Id c = control_id →
             Status c = ERROR ∧ RecordsProcessed c = Some 0.
Proof.
  intros Hacc.
  destruct (on_failure_accepted (A := A) origin control_id last_processed_date e w Hacc)
    as (w' & Hrun & Hc).
  exists w'. split; [done|]. split; [|intros c Hin; by apply Hc].
  assert (Hk : keeps (λ w, control_ids (db w))
                 (on_failure (A := A) origin (Some control_id) last_processed_date e)).
  { unfold on_failure.
    repeat first [ apply keeps_bind; [|intros ?] | apply (keeps_log control_ids)
                 | apply keeps_raise | apply keeps_ids_complete
                 | apply (keeps_or_now (λ w, control_ids (db w))) ]. }
  exact (Hk _ _ _ Hrun).
Qed.

(** C5, as amended.  When a statement of APPEND or REPLACE raises after the
    IN_PROGRESS entry is written, and the server accepts the update that
    follows, the entry ends with Status ERROR and RecordsProcessed 0 and the
    caller gets the exception that was raised. *)
Theorem failure_marks_error
    (m : write_mode) (data : list record) (table_name : string)
    (last_processed_date : option Z) (w w1 w2 : world) (b : uuid)
    (control_id : nat) (e : exn) :
  start_batch table_name w = (Ok (b, control_id), w1) →
  write_steps m data table_name last_processed_date b control_id w1 = (Raise e, w2) →
  accepting w2 = true →
  ∃ w3, write m data table_name last_processed_date w = (Raise e, w3) ∧
        marked_error control_id (db w3).
Proof.
  intros Hstart Hsteps Hacc.
  pose proof (keeps_ids_steps _ _ _ _ _ _ _ _ _ Hsteps) as Hids. simpl in Hids.
  apply start_batch_inv in Hstart as Hs.
  destruct Hs as (_ & _ & _ & [(e' & [=] & _)|(c & Heq & Hctl & Hid & _)]).
  injection Heq as -> ->.
  assert (Hraised : ∀ A (steps : uuid → nat → M world A) (result_id : A → uuid) origin,
            (r ← steps (uuids w) (S (control_identity (db w))); mret (result_id r)) w1
            = (Raise e, w2) →
            ∃ w3, (r ← (λ w, match start_batch table_name w with
                             | (Ok (b, control_id), w') =>
                                 try_except (steps b control_id)
                                   (on_failure origin (Some control_id) last_processed_date) w'
                             | (Raise e, w') =>
                                 on_failure origin None last_processed_date e w'
                             end);
                   mret (result_id r)) w = (Raise e, w3) ∧
                  marked_error (S (control_identity (db w))) (db w3)).
  { intros A steps result_id origin Hr.
    apply bind_inv in Hr as [(a & s1 & _ & [=])|(e0 & Hr & [= <-])].
    destruct (on_failure_control (A := A) origin (S (control_identity (db w)))
                last_processed_date e w2 Hacc) as (w3 & Hfail & Hids' & Hmarked).
    exists w3. split.
    - apply bind_raise. rewrite Hstart. unfold try_except. by rewrite Hr.
    - split; [|done].
      assert (Hin : S (control_identity (db w)) ∈ control_ids (db w3)).
      { rewrite Hids', Hids. unfold control_ids. rewrite Hctl, fmap_app.
        simpl. rewrite Hid. set_solver. }
      apply list_elem_of_fmap in Hin as (c0 & ? & ?). by exists c0. }
  destruct m; simpl in *.
  - exact (Hraised _ (append_steps data table_name last_processed_date)
             batch_id "append_data" Hsteps).
  - exact (Hraised _ (replace_steps data table_name last_processed_date)
             replace_batch_id "replace_data" Hsteps).
Qed.

(** The server goes away after the IN_PROGRESS entry is written: the read of
    the existing keys raises, the ERROR update raises too, the entry stays
    IN_PROGRESS and the caller gets the second exception. *)
Lemma failure_marks_error_counterexample :
  ¬ failure_marks_error_as_stated APPEND [order "A" 1] "Orders" None server_lost.
Proof.
  intros H.
  edestruct (H 0 1 _ (OperationalError "connection lost") _ eq_refl eq_refl)
    as (w3 & Hrun & _).
  vm_compute in Hrun. discriminate Hrun.
Qed.

Lemma failure_marks_error_witness :
  ∃ w3, write APPEND [order "A" 1] "Orders" None server_hiccup
        = (Raise (OperationalError "connection lost"), w3) ∧
        marked_error 1 (db w3).
Proof.
  exact (failure_marks_error APPEND [order "A" 1] "Orders" None server_hiccup
           _ _ 0 1 (OperationalError "connection lost") eq_refl eq_refl eq_refl).
Defined.

(** ** APPEND twice *)

(** C2 on the Inventory table.  [append_data] reads the existing keys from
    column SellerSKU, but its INSERT names column AmazonOrderId, which the
    Inventory staging table does not have: the first run of a batch with a
    new SKU raises, and so does the second; nothing is staged. *)
Theorem append_twice_inventory_raises :
  let data := [stock "sku-1"] in
  let first := append_data data "Inventory" None fresh_world in
  let second := append_data data "Inventory" None first.2 in
  first.1 = Raise (ProgrammingError "Invalid column name AmazonOrderId") ∧
  second.1 = Raise (ProgrammingError "Invalid column name AmazonOrderId") ∧
  stage_rows (db second.2) "Inventory" = [] ∧
  Status <$> control (db second.2) = [ERROR; ERROR] ∧
  ¬ append_twice_as_stated data "Inventory" fresh_world.
Proof.
  do 4 (split; [vm_compute; reflexivity|]).
  intros H.
  destruct (H "SellerSKU" eq_refl) as (r1 & w1 & _ & _ & Hfirst & _).
  - intros r ->%list_elem_of_singleton. by eexists.
  - vm_compute in Hfirst. discriminate Hfirst.
Qed.

(** ** The scenario of the specification *)

Lemma scenario_counterexample : ¬ scenario_as_stated.
Proof.
  intros (_ & _ & Hrows & _). vm_compute in Hrows. discriminate Hrows.
Qed.

(** C3, as amended.  With batch size 2 and the orders A, A, B in APPEND mode
    on an empty store, the first batch [A, A] is inserted whole (two records,
    no duplicate: only keys already staged count as duplicates), the second
    batch [B] inserts one record, and the run reports total_processed = 3,
    total_batches = 2, errors = 0. *)
Theorem scenario_run :
  batches (orders_run two_per_batch scenario_api 0%Z day "APPEND") "APPEND" fresh_world
    = [[order "A" 1; order "A" 1]; [order "B" 2]] ∧
  (append_data [order "A" 1; order "A" 1] "Orders" (Some 1%Z) fresh_world).1
    = Ok {| batch_id := 0; records_processed := 2; duplicates_skipped := 0 |} ∧
  (append_data [order "B" 2] "Orders" (Some 2%Z)
     (run_of (append_data [order "A" 1; order "A" 1] "Orders" (Some 1%Z)) fresh_world)).1
    = Ok {| batch_id := 1; records_processed := 1; duplicates_skipped := 0 |} ∧
  AmazonOrderId <$> stage_rows (db (run_of scenario fresh_world)) "Orders"
    = [Some (VStr "A"); Some (VStr "A"); Some (VStr "B")] ∧
  RecordsProcessed <$> control (db (run_of scenario fresh_world)) = [Some 2; Some 1] ∧
  (scenario fresh_world).1
    = Ok {| total_processed := 3; total_batches := 2; errors := 0;
            batch_ids := [0; 1]; mode := "APPEND" |}.
Proof. repeat split; vm_compute; reflexivity. Qed.

(** ** The retry loop *)

(** C4 at [max_retries] = 3 with an operation that fails three times and
    would succeed on the fourth attempt: the loop makes three attempts, logs
    two retries, sleeps 2 s and 4 s, and raises the third error; the fourth
    attempt is never made. *)
Theorem retry_loop_gives_up_early :
  let run := call_with_retries two_per_batch GetInventorySummary
               (refused_thrice [stock "sku-1"]) fresh_world in
  run.1 = Raise (UpstreamError 429) ∧
  trace run.2 = [Fetch GetInventorySummary; LogWarning 1; Slept (2 * second);
                 Fetch GetInventorySummary; LogWarning 2; Slept (4 * second);
                 Fetch GetInventorySummary] ∧
  ¬ retry_bound_as_stated two_per_batch GetInventorySummary
      (refused_thrice [stock "sku-1"]) fresh_world.
Proof.
  do 2 (split; [vm_compute; reflexivity|]).
  intros H. destruct (H eq_refl) as (w' & Hrun & _).
  vm_compute in Hrun. discriminate Hrun.
Qed.

(** ** Chunk failures *)

(** C7 on a SKU list of two chunks whose first lookup fails: the run returns
    its statistics with one error, and the second chunk is never looked up. *)
Theorem process_inventory_stops_at_failed_chunk :
  let run := process_inventory one_per_batch first_lookup_down
               (Some ["sku-1"; "sku-2"]) "REPLACE" fresh_world in
  run.1 = Ok {| total_processed := 0; total_batches := 0; errors := 1;
                batch_ids := []; mode := "REPLACE" |} ∧
  fetches (trace run.2)
    = [GetInventoryDetails ["sku-1"]; GetInventoryDetails ["sku-1"];
       GetInventoryDetails ["sku-1"]] ∧
  ¬ every_sku_chunk_attempted one_per_batch first_lookup_down
      ["sku-1"; "sku-2"] fresh_world.
Proof.
  do 2 (split; [vm_compute; reflexivity|]).
  intros H. specialize (H [["sku-1"]; ["sku-2"]] ["sku-2"] eq_refl).
  assert (Hin : ["sku-2"] ∈ [["sku-1"]; ["sku-2"]]) by set_solver.
  apply H in Hin. vm_compute in Hin.
  apply list_elem_of_In in Hin. simpl in Hin. by intuition.
Qed.

(** The sibling loop of [process_orders] goes on: with the first week
    refused on every attempt, the second week is fetched and staged. *)
Lemma process_orders_continues_after_failed_chunk :
  let run := process_orders one_per_batch first_week_down 0%Z (timedelta_days 14)
               "APPEND" fresh_world in
  run.1 = Ok {| total_processed := 1; total_batches := 1; errors := 1;
                batch_ids := [0]; mode := "APPEND" |} ∧
  fetches (trace run.2)
    = [GetOrders 0 (timedelta_days 7); GetOrders 0 (timedelta_days 7);
       GetOrders 0 (timedelta_days 7);
       GetOrders (timedelta_days 7) (timedelta_days 14)].
Proof. vm_compute. repeat split; reflexivity. Qed.

(** ** Batch sizes *)

(** Two weekly chunks of one order each, batch size 2: each chunk flushes its
    own rest, so the first batch of the run has one record and is not the
    last. *)
Lemma batch_size_invariant_counterexample :
  ¬ batch_size_invariant 2
      (batches (orders_run two_per_batch weekly_api 0%Z (timedelta_days 14) "APPEND")
         "APPEND" fresh_world).
Proof.
  intros (Hfull & _).
  specialize (Hfull 0 [order "A" 1] ltac:(by vm_compute) ltac:(vm_compute; lia)).
  vm_compute in Hfull. discriminate Hfull.
Qed.

(** A page larger than the batch size is flushed once in the loop; what is
    left goes out as one batch after the loop, whatever its size. *)
Lemma rest_of_large_page_in_one_batch :
  length <$> batches (orders_run two_per_batch busy_api 0%Z day "APPEND")
               "APPEND" fresh_world = [2; 3].
Proof. vm_compute. repeat split; reflexivity. Qed.

Lemma in_world_inv {A} (m : M world A) f r f' :
  in_world m f = (r, f') →
  m (env f) = (r, env f') ∧ flushed f' = flushed f ∧ total_stats f' = total_stats f.
Proof.
  unfold in_world. destruct (m (env f)) as [r0 w]. by intros [= <- <-].
Qed.

Lemma keeps_in_world {A X} (g : frame → X) (m : M world A) :
  (∀ f w, g {| total_stats := total_stats f; flushed := flushed f; env := w |} = g f) →
  keeps g (in_world m).
Proof.
  intros Hg f r f'. unfold in_world. destruct (m (env f)) as [r0 w].
  intros [= <- <-]. apply Hg.
Qed.

Lemma keeps_flushed_in_world {A} (m : M world A) : keeps flushed (in_world m).
Proof. by apply keeps_in_world. Qed.

Lemma keeps_flushed_count_batch id n : keeps flushed (count_batch id n).
Proof. by intros f r f' [= <- <-]. Qed.

Lemma keeps_flushed_count_error : keeps flushed count_error.
Proof. by intros f r f' [= <- <-]. Qed.

Lemma flush_orders_flushed mode batch f r f' :
  flush_orders mode batch f = (r, f') → flushed f' = flushed f ++ [batch].
Proof.
  unfold flush_orders. intros [(u & f1 & [= <- <-] & H)|(e & [=] & _)]%bind_inv.
  assert (Hk : keeps flushed
                 (id ← in_world (_process_order_batch batch mode);
                  count_batch id (length batch))).
  { apply keeps_bind; [apply keeps_flushed_in_world|intros; apply keeps_flushed_count_batch]. }
  by rewrite (Hk _ _ _ H).
Qed.

Lemma flush_inventory_flushed mode batch f r f' :
  flush_inventory mode batch f = (r, f') → flushed f' = flushed f ++ [batch].
Proof.
  unfold flush_inventory. intros [(u & f1 & [= <- <-] & H)|(e & [=] & _)]%bind_inv.
  assert (Hk : keeps flushed
                 (id ← in_world (_process_inventory_batch batch mode);
                  count_batch id (length batch))).
  { apply keeps_bind; [apply keeps_flushed_in_world|intros; apply keeps_flushed_count_batch]. }
  by rewrite (Hk _ _ _ H).
Qed.

(** What the retry loop returns is the answer of the exchange. *)
Lemma retry_loop_answer self rq remaining retry_count attempts response w v w' :
  retry_loop self rq remaining retry_count attempts response w = (Ok (Some v), w') →
  v = response.
Proof.
  revert retry_count attempts w.
  induction remaining as [|remaining IH]; intros retry_count attempts w; simpl; [done|].
  intros [(u & w1 & _ & H)|(e & _ & [=])]%bind_inv.
  destruct attempts as [|e later]; [by injection H as <- _|].
  case_decide; [done|].
  apply bind_inv in H as [(u1 & w2 & _ & H)|(e1 & _ & [=])].
  apply bind_inv in H as [(u2 & w3 & _ & H)|(e1 & _ & [=])].
  eauto.
Qed.

Lemma fetched_answer self rq variable x w v w' :
  (call_with_retries self rq x ≫= bound variable) w = (Ok v, w') → v = answer x.
Proof.
  intros (o & w1 & Hcall & H)%bind_inv_ok.
  destruct o as [v'|]; [|done]. injection H as <- <-.
  by apply retry_loop_answer in Hcall.
Qed.

Lemma pages_unfold self rq variable flush_batch page later buffer :
  pages self rq variable flush_batch page later buffer =
  (response ← in_world (call_with_retries self rq page ≫= bound variable);
   let buffer := buffer ++ response in
   buffer ←
     (if decide (batch_size self ≤ length buffer) then
        flush_batch (take (batch_size self) buffer);;
        mret (drop (batch_size self) buffer)
      else mret buffer);
   match later with
   | [] => mret buffer
   | page' :: later' =>
       in_world (time_sleep (rate_limit_pause self));;
       pages self rq variable flush_batch page' later' buffer
   end).
Proof. by destruct later. Qed.

Section pagination.
Variables (self : config) (rq : request) (variable : string).
Variable flush_batch : list record → M frame unit.
Hypothesis flush_batch_flushed :
  ∀ batch f r f', flush_batch batch f = (r, f') → flushed f' = flushed f ++ [batch].

(** The batches flushed inside the page loop all have the batch size; when
    no page is larger than the batch size, the buffer stays below it. *)
Lemma pages_flushed later : ∀ page buffer f r f',
  pages self rq variable flush_batch page later buffer f = (r, f') →
  ∃ bs, flushed f' = flushed f ++ bs ∧
        Forall (λ b, length b = batch_size self) bs ∧
        (length buffer < batch_size self →
         Forall (λ x, length (answer x) ≤ batch_size self) (page :: later) →
         ∀ buffer', r = Ok buffer' → length buffer' < batch_size self).
Proof.
  induction later as [|page' later' IH]; intros page buffer f r f';
    rewrite pages_unfold;
    (intros [(response & f1 & Hfetch & H)|(e & Hfetch & ->)]%bind_inv;
     [|apply in_world_inv in Hfetch as (_ & -> & _);
       exists []; by rewrite app_nil_r]);
    apply in_world_inv in Hfetch as (Hresponse & Hf1 & _);
    apply fetched_answer in Hresponse as ->;
    simpl in H;
    (apply bind_inv in H as [(buffer1 & f2 & Hflush & H)|(e & Hflush & ->)];
     [|case_decide as Hfull; [|done];
       apply bind_inv in Hflush as [(u & f3 & _ & [=])|(e' & Hflush & _)];
       apply flush_batch_flushed in Hflush;
       exists [take (batch_size self) (buffer ++ answer page)];
       split; [by rewrite Hflush, Hf1|];
       split; [|done];
       apply Forall_singleton; rewrite length_take; lia]).
  - (* last page *)
    injection H as <- <-.
    case_decide as Hfull.
    + apply bind_inv_ok in Hflush as (u & f3 & Hflush & [= <- <-]).
      apply flush_batch_flushed in Hflush.
      exists [take (batch_size self) (buffer ++ answer page)].
      split; [by rewrite Hflush, Hf1|].
      split; [apply Forall_singleton; rewrite length_take; lia|].
      intros Hbuf [Hpage _]%Forall_cons buffer' [= <-].
      rewrite length_drop, length_app. lia.
    + injection Hflush as <- <-. exists [].
      split; [by rewrite app_nil_r|]. split; [done|].
      intros _ _ buffer' [= <-]. lia.
  - (* a page with a NextToken *)
    apply bind_inv in H as [(u0 & f4 & Hsleep & H)|(e & Hsleep & ->)].
    2:{ apply in_world_inv in Hsleep as (_ & Hf4 & _).
        case_decide as Hfull.
        - apply bind_inv_ok in Hflush as (u & f3 & Hflush & [= <- <-]).
          apply flush_batch_flushed in Hflush.
          exists [take (batch_size self) (buffer ++ answer page)].
          split; [by rewrite Hf4, Hflush, Hf1|].
          split; [apply Forall_singleton; rewrite length_take; lia|done].
        - injection Hflush as <- <-. exists [].
          split; [rewrite app_nil_r; by rewrite Hf4, Hf1|]. by split. }
    apply in_world_inv in Hsleep as (_ & Hf4 & _).
    apply IH in H as (bs & Hbs & Hsizes & Hbound).
    case_decide as Hfull.
    + apply bind_inv_ok in Hflush as (u & f3 & Hflush & [= <- <-]).
      apply flush_batch_flushed in Hflush.
      exists (take (batch_size self) (buffer ++ answer page) :: bs).
      split; [rewrite Hbs, Hf4, Hflush, Hf1; by rewrite <- app_assoc|].
      split; [apply Forall_cons; split; [rewrite length_take; lia|done]|].
      intros Hbuf [Hpage Hlater]%Forall_cons. apply Hbound; [|done].
      rewrite length_drop, length_app. lia.
    + injection Hflush as <- <-. exists bs.
      split; [by rewrite Hbs, Hf4, Hf1|]. split; [done|].
      intros Hbuf [Hpage Hlater]%Forall_cons. apply Hbound; [lia|done].
Qed.
End pagination.

Lemma full_but_last_full B bs :
  1 ≤ B → Forall (λ b : list record, length b = B) bs → full_but_last B bs.
Proof.
  intros HB Hbs i b Hi. apply (Forall_lookup_1 _ _ _ _ Hbs) in Hi. lia.
Qed.

Lemma full_but_last_snoc B bs (rest : list record) :
  1 ≤ B → Forall (λ b : list record, length b = B) bs → 1 ≤ length rest →
  full_but_last B (bs ++ [rest]).
Proof.
  intros HB Hbs Hrest i b Hi. rewrite length_app. simpl.
  destruct (decide (i < length bs)) as [Hlt|Hge].
  - rewrite lookup_app_l in Hi by done.
    apply (Forall_lookup_1 _ _ _ _ Hbs) in Hi. lia.
  - rewrite lookup_app_r in Hi by lia.
    destruct (i - length bs) as [|n] eqn:Hn; [|by destruct n].
    injection Hi as <-. split; [lia|done].
Qed.

Section chunk.
Variables (self : config) (rq : request) (variable : string).
Variable flush_batch : list record → M frame unit.
Hypothesis flush_batch_flushed :
  ∀ batch f r f', flush_batch batch f = (r, f') → flushed f' = flushed f ++ [batch].
Hypothesis batch_size_positive : 1 ≤ batch_size self.

(** The page loop of one chain followed by the flush of the rest. *)
Lemma chain_flushed chain f r f' :
  (buffer ← pages self rq variable flush_batch (first_page chain) (next_pages chain) [];
   flush_rest flush_batch buffer) f = (r, f') →
  ∃ group, flushed f' = flushed f ++ group ∧
           chunk_batches_ok (batch_size self) chain group.
Proof.
  intros [(buffer & f1 & Hpages & Hrest)|(e & Hpages & _)]%bind_inv;
    apply (pages_flushed self rq variable flush_batch flush_batch_flushed)
      in Hpages as (bs & Hbs & Hsizes & Hbound).
  - destruct buffer as [|o buffer]; simpl in Hrest.
    + injection Hrest as <- <-. exists bs. split; [done|].
      split; [by apply full_but_last_full|].
      intros _. eapply Forall_impl; [exact Hsizes|]. simpl. lia.
    + apply flush_batch_flushed in Hrest. exists (bs ++ [o :: buffer]).
      split; [by rewrite Hrest, Hbs, app_assoc|].
      split; [apply full_but_last_snoc; simpl; try done; lia|].
      intros Hwithin. apply Forall_app. split.
      * eapply Forall_impl; [exact Hsizes|]. simpl. lia.
      * apply Forall_singleton.
        specialize (Hbound ltac:(simpl; lia) Hwithin _ eq_refl). lia.
  - exists bs. split; [done|]. split; [by apply full_but_last_full|].
    intros _. eapply Forall_impl; [exact Hsizes|]. simpl. lia.
Qed.
End chunk.

Lemma count_failure_returns origin f :
  ∃ f', (in_world (log (LogError origin));; count_error) f = (Ok tt, f') ∧
        flushed f' = flushed f.
Proof. eexists. split; [reflexivity|done]. Qed.

(** A chunk of [process_orders] never raises, and flushes the batches of its
    chain. *)
Lemma orders_chunk_flushed self orders_api mode chunk f r f' :
  1 ≤ batch_size self →
  orders_chunk self orders_api mode chunk f = (r, f') →
  r = Ok tt ∧
  ∃ group, flushed f' = flushed f ++ group ∧
           chunk_batches_ok (batch_size self) (orders_api chunk.1 chunk.2) group.
Proof.
  intros HB H. unfold orders_chunk in H.
  apply try_except_inv in H as [(u & H & ->)|(e & f1 & H & Hhandler)].
  - destruct u. split; [done|].
    by apply (chain_flushed self _ _ _ (flush_orders_flushed mode) HB) in H.
  - apply (chain_flushed self _ _ _ (flush_orders_flushed mode) HB) in H
      as (group & Hgroup & Hok).
    destruct (count_failure_returns "process_orders" f1) as (f2 & Hf2 & Hflushed).
    rewrite Hf2 in Hhandler. injection Hhandler as <- <-.
    split; [done|]. exists group. by rewrite Hflushed.
Qed.

Lemma for_each_chunks self orders_api mode chunks : ∀ f r f',
  1 ≤ batch_size self →
  for_each chunks (orders_chunk self orders_api mode) f = (r, f') →
  r = Ok tt ∧
  ∃ groups, flushed f' = flushed f ++ concat groups ∧
            Forall2 (λ chunk group,
                       chunk_batches_ok (batch_size self)
                         (orders_api chunk.1 chunk.2) group)
                    chunks groups.
Proof.
  induction chunks as [|chunk chunks IH]; intros f r f' HB; simpl.
  - intros [= <- <-]. split; [done|]. exists []. by rewrite app_nil_r.
  - intros [(u & f1 & Hchunk & H)|(e & Hchunk & _)]%bind_inv.
    2:{ by apply orders_chunk_flushed in Hchunk as [[=] _]. }
    apply orders_chunk_flushed in Hchunk as (_ & group & Hgroup & Hok); [|done].
    apply IH in H as (-> & groups & Hgroups & Hall); [|done].
    split; [done|]. exists (group :: groups).
    split; [simpl; by rewrite Hgroups, Hgroup, app_assoc|].
    by apply Forall2_cons.
Qed.

Lemma inventory_run_flushed self inventory_api sku_list mode f r f' :
  1 ≤ batch_size self →
  default [] sku_list = [] →
  inventory_run self inventory_api sku_list mode f = (r, f') →
  ∃ group, flushed f' = flushed f ++ group ∧
           chunk_batches_ok (batch_size self)
             (get_inventory_summary inventory_api) group.
Proof.
  intros HB Hskus H. unfold inventory_run in H.
  assert (Hbody : ∀ r1 f1,
    (inventory_buffer ←
       pages self GetInventorySummary "inventory_response" (flush_inventory mode)
         (first_page (get_inventory_summary inventory_api))
         (next_pages (get_inventory_summary inventory_api)) [];
     flush_rest (flush_inventory mode) inventory_buffer) f = (r1, f1) →
    ∃ group, flushed f1 = flushed f ++ group ∧
             chunk_batches_ok (batch_size self)
               (get_inventory_summary inventory_api) group).
  { intros r1 f1.
    apply (chain_flushed self _ _ _ (flush_inventory_flushed mode) HB). }
  apply try_except_inv in H as [(u & H & ->)|(e & f1 & H & Hhandler)].
  - destruct sku_list as [[|sku skus]|]; try done; by apply Hbody in H.
  - assert (∃ group, flushed f1 = flushed f ++ group ∧
                     chunk_batches_ok (batch_size self)
                       (get_inventory_summary inventory_api) group)
      as (group & Hgroup & Hok).
    { destruct sku_list as [[|sku skus]|]; try done; by apply Hbody in H. }
    destruct (count_failure_returns "process_inventory" f1) as (f2 & Hf2 & Hflushed).
    rewrite Hf2 in Hhandler. injection Hhandler as <- <-.
    exists group. by rewrite Hflushed.
Qed.

(** C1, as amended.  With a batch size B of at least 1: the batches that
    [process_orders] hands to the staging store fall into one group per date
    chunk, and those of the pagination loop of [process_inventory] form one
    group; within a group every batch except possibly the last has exactly B
    records and no batch is empty; and when no fetched page of the chunk holds
    more than B records, no batch of the group exceeds B. *)
Theorem batches_full_within_chunk
    (self : config) (orders_api : OrdersAPI) (inventory_api : InventoryAPI)
    (start_date end_date : Z) (sku_list : option (list string)) (mode : string)
    (w : world) :
  1 ≤ batch_size self →
  default [] sku_list = [] →
  (∃ groups,
     batches (orders_run self orders_api start_date end_date mode) mode w
       = concat groups ∧
     Forall2 (λ chunk group,
                chunk_batches_ok (batch_size self) (orders_api chunk.1 chunk.2) group)
             (_chunk_date_range start_date end_date 7) groups) ∧
  chunk_batches_ok (batch_size self) (get_inventory_summary inventory_api)
    (batches (inventory_run self inventory_api sku_list mode) mode w).
Proof.
  intros HB Hskus. unfold batches. split.
  - destruct (orders_run self orders_api start_date end_date mode (new_frame mode w))
      as [r f'] eqn:Hrun.
    apply for_each_yielded_inv in Hrun as (r0 & Hrun & _).
    apply for_each_chunks in Hrun as (_ & groups & Hgroups & Hall); [|done].
    exists groups. by split.
  - destruct (inventory_run self inventory_api sku_list mode (new_frame mode w))
      as [r f'] eqn:Hrun.
    apply inventory_run_flushed in Hrun as (group & Hgroup & Hok); try done.
    simpl in *. by rewrite Hgroup.
Qed.

Lemma batches_full_within_chunk_witness :
  (∃ groups,
     batches (orders_run two_per_batch weekly_api 0%Z (timedelta_days 14) "APPEND")
       "APPEND" fresh_world = concat groups ∧
     Forall2 (λ chunk group,
                chunk_batches_ok 2 (weekly_api chunk.1 chunk.2) group)
             (_chunk_date_range 0 (timedelta_days 14) 7) groups) ∧
  chunk_batches_ok 2 (single_page [])
    (batches (inventory_run two_per_batch first_lookup_down None "APPEND")
       "APPEND" fresh_world).
Proof.
  apply (batches_full_within_chunk two_per_batch weekly_api first_lookup_down
           0%Z (timedelta_days 14) None "APPEND" fresh_world);
    [simpl; lia | reflexivity].
Defined.

(** ** RateLimiter.acquire *)

Section acquire.
Import RateLimiter.
Local Open Scope Q_scope.

(** C10.  With a jitter between 0 and 0.1 s and a sleep that is not cut
    short, [acquire] on a limiter whose interval is 1/calls_per_second
    returns without raising; it returns no earlier than the interval after
    the last call recorded for the key, having slept for the missing part
    of the interval plus the jitter (plus the overshoot of the sleep) when
    the interval had not elapsed, and not at all when it had; it records
    the time of its return for the key; it does not wait when the key has
    no recorded call; and it leaves the other keys as they were. *)
Theorem acquire_spaces_calls (endpoint : string) (jitter overshoot : Q) (s : state) :
  0 <= jitter → jitter <= 1 # 10 → 0 <= overshoot →
  minimum_interval (self s) == 1 / calls_per_second (self s) →
  ∃ s', acquire endpoint jitter overshoot s = (Ok tt, s') ∧
    last_call_time (self s') !! endpoint = Some (time s') ∧
    (∀ last, last_call_time (self s) !! endpoint = Some last →
       last + 1 / calls_per_second (self s) <= time s' ∧
       time s <= time s' ∧
       (time s - last < 1 / calls_per_second (self s) →
        time s' == time s + (1 / calls_per_second (self s) - (time s - last))
                   + jitter + overshoot) ∧
       (1 / calls_per_second (self s) <= time s - last → time s' = time s)) ∧
    (last_call_time (self s) !! endpoint = None → time s' = time s) ∧
    (∀ other, other ≠ endpoint →
       last_call_time (self s') !! other = last_call_time (self s) !! other) ∧
    calls_per_second (self s') = calls_per_second (self s) ∧
    minimum_interval (self s') = minimum_interval (self s).
Proof.
  intros Hj0 Hj1 Hov Hmin. unfold acquire.
  destruct (last_call_time (self s) !! endpoint) as [last|] eqn:Hlast.
  - destruct (Qlt_le_dec (time s - last) (minimum_interval (self s))) as [Hlt|Hle] eqn:Hdec.
    + eexists. split.
      { unfold mbind, M_bind, gets; simpl. rewrite Hlast, Hdec. reflexivity. }
      simpl. split; [apply lookup_insert_eq|].
      split.
      { intros ? [= <-]. set (i := 1 / calls_per_second (self s)) in *.
        repeat split; intros; lra. }
      split; [done|]. split; [|done].
      intros other Hother. by apply lookup_insert_ne.
    + eexists. split.
      { unfold mbind, M_bind, gets; simpl. rewrite Hlast, Hdec. reflexivity. }
      simpl. split; [apply lookup_insert_eq|].
      split.
      { intros ? [= <-]. set (i := 1 / calls_per_second (self s)) in *.
        repeat split; intros; try lra; reflexivity. }
      split; [done|]. split; [|done].
      intros other Hother. by apply lookup_insert_ne.
  - eexists. split.
    { unfold mbind, M_bind, gets; simpl. rewrite Hlast. reflexivity. }
    simpl. split; [apply lookup_insert_eq|].
    split; [done|]. split; [done|]. split; [|done].
    intros other Hother. by apply lookup_insert_ne.
Qed.

Lemma acquire_spaces_calls_witness :
  (0 <= 1 # 20 ∧ 1 # 20 <= 1 # 10 ∧ 0 <= 0 ∧
   minimum_interval (self busy_limiter) == 1 / calls_per_second (self busy_limiter)) ∧
  ∃ s', acquire "/orders" (1 # 20) 0 busy_limiter = (Ok tt, s') ∧
        last_call_time (self s') !! "/orders" = Some (time s').
Proof.
  assert (H0 : 0 <= 1 # 20) by (by vm_compute).
  assert (H1 : 1 # 20 <= 1 # 10) by (by vm_compute).
  assert (H2 : 0 <= 0) by (by vm_compute).
  assert (H3 : minimum_interval (self busy_limiter)
               == 1 / calls_per_second (self busy_limiter)) by reflexivity.
  split; [done|].
  destruct (acquire_spaces_calls "/orders" (1 # 20) 0 busy_limiter H0 H1 H2 H3)
    as (s' & Hrun & Hrecorded & _).
  by exists s'.
Defined.
End acquire.

(** * Further properties *)

(** ** Chunking *)

Lemma chunk_date_range_fuel (start_date end_date width : Z) :
  (0 < width)%Z →
  (end_date - start_date
   ≤ Z.of_nat (Z.to_nat ((end_date - start_date) / width) + 1) * width)%Z.
Proof.
  intros Hwidth.
  destruct (decide (end_date - start_date < 0)%Z) as [Hneg|Hpos].
  - assert (0 ≤ Z.of_nat (Z.to_nat ((end_date - start_date) / width) + 1) * width)%Z
      by lia.
    lia.
  - rewrite Nat2Z.inj_add, Z2Nat.id by (apply Z.div_pos; lia).
    pose proof (Z.mod_pos_bound (end_date - start_date) width Hwidth).
    pose proof (Z.div_mod (end_date - start_date) width ltac:(lia)).
    lia.
Qed.

(** The run of the generator from [current_date], with enough fuel. *)
Lemma chunk_date_range_from_run chunk_days :
  (0 < chunk_days ≤ 999999999)%Z →
  ∀ fuel current_date end_date,
    (datetime_min ≤ current_date)%Z →
    (end_date - current_date ≤ Z.of_nat fuel * timedelta_days chunk_days)%Z →
    let run := chunk_date_range_from fuel current_date end_date chunk_days in
    ((end_date ≤ current_date)%Z → run = ([], None)) ∧
    ((current_date < end_date)%Z →
     ∃ reached, tiles current_date run.1 reached ∧ (reached ≤ end_date)%Z ∧
       match run.2 with
       | None => reached = end_date
       | Some e => e = OverflowError ∧ (reached < end_date)%Z ∧
                   (datetime_max < reached + timedelta_days chunk_days)%Z
       end) ∧
    Forall (λ chunk, (chunk.2 - chunk.1 ≤ timedelta_days chunk_days)%Z) run.1 ∧
    (∀ i chunk, run.1 !! i = Some chunk → S i < length run.1 →
                (chunk.2 - chunk.1 = timedelta_days chunk_days)%Z).
Proof.
  intros Hdays.
  assert (Hwidth : (0 < timedelta_days chunk_days)%Z).
  { unfold timedelta_days, day. lia. }
  assert (Hdelta : timedelta chunk_days = Ok (timedelta_days chunk_days)).
  { unfold timedelta. by rewrite decide_True by lia. }
  set (width := timedelta_days chunk_days) in *.
  induction fuel as [|fuel IH]; intros current_date end_date Hmin Hfuel;
    cbn [chunk_date_range_from].
  - repeat split; try done; lia.
  - case_decide as Hlt; [|repeat split; try done; lia].
    rewrite Hdelta. unfold datetime_add.
    case_decide as Hrange; cbn [fst snd].
    + set (chunk_end := Z.min (current_date + width) end_date).
      destruct (IH chunk_end end_date ltac:(lia) ltac:(lia))
        as (Hempty & Htiles & Hwidths & Hfull).
      split; [lia|]. split; [|split].
      * intros _.
        destruct (decide (chunk_end < end_date)%Z) as [Hmore|Hdone].
        -- destruct (Htiles Hmore) as (reached & Hreached & Hle & Hend).
           exists reached. split; [|by split].
           simpl. split; [done|]. split; [lia|done].
        -- rewrite Hempty by lia. exists end_date. simpl.
           split; [|by split]. split; [done|]. split; lia.
      * apply Forall_cons. split; [simpl; lia|done].
      * intros [|i] chunk Hi Hnotlast; simpl in Hi, Hnotlast.
        -- injection Hi as <-. simpl.
           destruct (decide (chunk_end < end_date)%Z) as [Hmore|Hdone]; [lia|].
           rewrite Hempty in Hnotlast by lia. simpl in Hnotlast. lia.
        -- apply (Hfull i chunk Hi). lia.
    + split; [lia|]. split; [|split; [constructor|by intros [|i] chunk Hi]].
      intros _. exists current_date. simpl. split; [done|]. split; [lia|].
      split; [done|]. split; lia.
Qed.

(** The generator raises nothing but OverflowError. *)
Lemma chunk_date_range_raises_overflow (start_date end_date chunk_days : Z) (e : exn) :
  _chunk_date_range_raises start_date end_date chunk_days = Some e → e = OverflowError.
Proof.
  unfold _chunk_date_range_raises, chunk_date_range_run.
  generalize (Z.to_nat ((end_date - start_date) / timedelta_days chunk_days) + 1).
  intros fuel. revert start_date.
  induction fuel as [|fuel IH]; intros current_date; cbn [chunk_date_range_from];
    [done|].
  case_decide; [|done].
  unfold timedelta, datetime_add. repeat case_decide; cbn [fst snd];
    first [apply IH|by intros [= <-]].
Qed.

(** When [chunk_days] more than the end of the range is still a datetime, the
    generator ends normally and its chunks tile the range. *)
Lemma chunk_date_range_ok (start_date end_date chunk_days : Z) :
  (0 < chunk_days ≤ 999999999)%Z → (datetime_min ≤ start_date)%Z →
  (end_date + timedelta_days chunk_days ≤ datetime_max)%Z →
  _chunk_date_range_raises start_date end_date chunk_days = None ∧
  ((start_date < end_date)%Z →
   tiles start_date (_chunk_date_range start_date end_date chunk_days) end_date).
Proof.
  intros Hdays Hmin Hmax.
  assert (Hwidth : (0 < timedelta_days chunk_days)%Z).
  { unfold timedelta_days, day. lia. }
  unfold _chunk_date_range_raises, _chunk_date_range, chunk_date_range_run.
  destruct (chunk_date_range_from_run chunk_days Hdays _ start_date end_date Hmin
              (chunk_date_range_fuel start_date end_date _ Hwidth))
    as (Hempty & Htiles & _).
  destruct (decide (start_date < end_date)%Z) as [Hlt|Hge].
  - destruct (Htiles Hlt) as (reached & Hreached & Hle & Hend).
    destruct (chunk_date_range_from _ _ _ _).2 as [e|].
    + destruct Hend as (_ & ? & ?). lia.
    + subst reached. by split.
  - rewrite Hempty by lia. split; [done|lia].
Qed.

(** X1. [_chunk_date_range] with 0 < chunk_days <= 999999999 and a start that
    is a datetime.  An empty or reversed range gives no chunk and no error.
    Otherwise the chunks yielded tile the range from start_date up to where
    the generator stopped, without gap or overlap: that is end_date when the
    generator ends normally; when it raises, the exception is OverflowError,
    raised before end_date at an instant from which chunk_days more would
    pass datetime.max.  It ends normally whenever end_date plus chunk_days is
    still a datetime.  No chunk is empty or longer than chunk_days, and all
    but the last one yielded last exactly chunk_days. *)
Theorem chunk_date_range_tiles (start_date end_date chunk_days : Z) :
  (0 < chunk_days ≤ 999999999)%Z → (datetime_min ≤ start_date)%Z →
  let chunks := _chunk_date_range start_date end_date chunk_days in
  let raises := _chunk_date_range_raises start_date end_date chunk_days in
  ((end_date ≤ start_date)%Z → chunks = [] ∧ raises = None) ∧
  ((start_date < end_date)%Z →
   ∃ reached, tiles start_date chunks reached ∧ (reached ≤ end_date)%Z ∧
     match raises with
     | None => reached = end_date
     | Some e => e = OverflowError ∧ (reached < end_date)%Z ∧
                 (datetime_max < reached + timedelta_days chunk_days)%Z
     end) ∧
  ((end_date + timedelta_days chunk_days ≤ datetime_max)%Z → raises = None) ∧
  Forall (λ chunk, (chunk.2 - chunk.1 ≤ timedelta_days chunk_days)%Z) chunks ∧
  (∀ i chunk, chunks !! i = Some chunk → S i < length chunks →
              (chunk.2 - chunk.1 = timedelta_days chunk_days)%Z).
Proof.
  intros Hdays Hmin.
  assert (Hwidth : (0 < timedelta_days chunk_days)%Z).
  { unfold timedelta_days, day. lia. }
  pose proof (chunk_date_range_ok start_date end_date chunk_days Hdays Hmin) as Hok.
  unfold _chunk_date_range_raises, _chunk_date_range, chunk_date_range_run in *.
  destruct (chunk_date_range_from_run chunk_days Hdays _ start_date end_date Hmin
              (chunk_date_range_fuel start_date end_date _ Hwidth))
    as (Hempty & Htiles & Hwidths & Hfull).
  simpl. split; [|split; [done|split; [|by split]]].
  - intros Hle. by rewrite Hempty.
  - intros Hmax. by apply Hok.
Qed.

Lemma chunk_date_range_tiles_witness :
  ((0 < 7 ≤ 999999999)%Z ∧ (datetime_min ≤ 0)%Z) ∧
  tiles 0 (_chunk_date_range 0 (timedelta_days 15) 7) (timedelta_days 15) ∧
  _chunk_date_range_raises 0 (timedelta_days 15) 7 = None ∧
  _chunk_date_range_raises (datetime_max - timedelta_days 3) datetime_max 7
  = Some OverflowError.
Proof.
  assert (Hdays : (0 < 7 ≤ 999999999)%Z) by lia.
  assert (Hmin : (datetime_min ≤ 0)%Z) by discriminate.
  split; [done|].
  destruct (chunk_date_range_tiles 0 (timedelta_days 15) 7 Hdays Hmin)
    as (_ & Htiles & Hends & _).
  assert (Hnone : _chunk_date_range_raises 0 (timedelta_days 15) 7 = None)
    by (apply Hends; discriminate).
  split; [|split; [done|reflexivity]].
  destruct (Htiles eq_refl) as (reached & Hreached & _ & Hend).
  rewrite Hnone in Hend. by subst reached.
Defined.

Lemma chunk_list_from_spec {A} chunk_size :
  1 ≤ chunk_size →
  ∀ fuel (items : list A),
    length items ≤ fuel →
    let chunks := chunk_list_from fuel items chunk_size in
    concat chunks = items ∧
    Forall (λ chunk, 1 ≤ length chunk ∧ length chunk ≤ chunk_size) chunks ∧
    (∀ i chunk, chunks !! i = Some chunk → S i < length chunks →
                length chunk = chunk_size).
Proof.
  intros Hsize. induction fuel as [|fuel IH]; intros items Hfuel.
  - destruct items; [|simpl in Hfuel; lia]. by repeat split.
  - destruct items as [|x items]; [by repeat split|].
    cbn [chunk_list_from].
    set (rest := drop chunk_size (x :: items)).
    assert (Hrest : length rest ≤ fuel).
    { unfold rest. rewrite length_drop. simpl in *. lia. }
    destruct (IH rest Hrest) as (Hconcat & Hsizes & Hfull).
    split; [|split].
    + simpl. fold rest. rewrite Hconcat. apply take_drop.
    + apply Forall_cons. split; [|done].
      rewrite length_take. simpl. lia.
    + intros [|i] chunk Hi Hnotlast.
      * injection Hi as <-. rewrite length_take.
        destruct rest as [|y rest'] eqn:Hr.
        -- destruct fuel; simpl in Hnotlast; lia.
        -- assert (Hlen : length (drop chunk_size (x :: items)) ≥ 1).
           { fold rest. rewrite Hr. simpl. lia. }
           rewrite length_drop in Hlen. lia.
      * apply (Hfull i chunk Hi). simpl in Hnotlast. lia.
Qed.

(** X2. [_chunk_list] raises ValueError for a chunk size of 0; for a chunk
    size of at least 1 the chunks put together give back the list in order,
    no chunk is empty or longer than the chunk size, and all but the last
    have exactly the chunk size. *)
Theorem chunk_list_partitions {A} (items : list A) (chunk_size : nat) :
  (chunk_size = 0 →
   _chunk_list items chunk_size = Raise (ValueError "range() arg 3 must not be zero")) ∧
  (1 ≤ chunk_size →
   ∃ chunks, _chunk_list items chunk_size = Ok chunks ∧
     concat chunks = items ∧
     Forall (λ chunk, 1 ≤ length chunk ∧ length chunk ≤ chunk_size) chunks ∧
     (∀ i chunk, chunks !! i = Some chunk → S i < length chunks →
                 length chunk = chunk_size)).
Proof.
  unfold _chunk_list. split.
  - intros ->. done.
  - intros Hsize. case_decide; [lia|]. eexists. split; [done|].
    by apply chunk_list_from_spec.
Qed.

Lemma chunk_list_partitions_witness :
  1 ≤ 2 ∧ _chunk_list ["a"; "b"; "c"; "d"; "e"] 2 = Ok [["a"; "b"]; ["c"; "d"]; ["e"]].
Proof.
  split; [lia|].
  destruct (proj2 (chunk_list_partitions ["a"; "b"; "c"; "d"; "e"] 2) ltac:(lia))
    as (chunks & Hrun & _).
  reflexivity.
Defined.

(** ** The retry loop *)



Lemma retry_loop_outcome self rq : ∀ remaining retry_count attempts response w,
  S remaining + retry_count = max_retries self →
  ∃ w', retry_loop self rq (S remaining) retry_count attempts response w
        = (match attempts !! remaining with
           | Some e => Raise e
           | None => Ok (Some response)
           end, w') ∧
        trace w' = trace w ++ backoff rq retry_count (min (length attempts) remaining)
                     ++ [Fetch rq] ∧
        db w' = db w ∧ refusals w' = refusals w ∧ uuids w' = uuids w.
Proof.
  induction remaining as [|remaining IH]; intros retry_count attempts response w Hvariant.
  - destruct attempts as [|e later]; simpl.
    + eexists. split; [reflexivity|]. done.
    + case_decide; [|lia]. eexists. split; [reflexivity|]. done.
  - destruct attempts as [|e later].
    + eexists. split; [reflexivity|]. done.
    + cbn [retry_loop]. 
      destruct (IH (S retry_count) later response
                  (run_of (sleep (2 ^ Z.of_nat (S retry_count) * second)%Z)
                     (run_of (log (LogWarning (S retry_count)))
                        (run_of (log (Fetch rq)) w))))
        as (w' & Hrun & Htrace & Hdb & Hrefusals & Huuids); [lia|].
      exists w'. split; [|split; [|done]].
      * erewrite bind_ok by reflexivity. case_decide; [lia|].
        erewrite bind_ok by reflexivity. erewrite bind_ok by reflexivity.
        exact Hrun.
      * rewrite Htrace. simpl. by rewrite <- !app_assoc.
Qed.



(** With [max_retries] = 0 the loop body never runs: no call is made and
    the response variable stays unbound, so reading it raises
    UnboundLocalError; the world is as it was. *)
Lemma call_without_retries (self : config) (rq : request) (x : exchange)
    (variable : string) (w : world) :
  max_retries self = 0 →
  (call_with_retries self rq x ≫= bound variable) w
  = (Raise (UnboundLocalError variable), w).
Proof. intros Hzero. unfold call_with_retries. by rewrite Hzero. Qed.

(** ** The trace only grows *)

Section respects.
Context {S : Type} (R : S → S → Prop) `{!Reflexive R, !Transitive R}.

Lemma respects_ret {A} (a : A) : respects R (mret a : M S A).
Proof. intros s r s' [= <- <-]. reflexivity. Qed.

Lemma respects_raise {A} e : respects R (raise e : M S A).
Proof. intros s r s' [= <- <-]. reflexivity. Qed.

Lemma respects_gets {A} (g : S → A) : respects R (gets g).
Proof. intros s r s' [= <- <-]. reflexivity. Qed.

Lemma respects_bind {A B} (m : M S A) (k : A → M S B) :
  respects R m → (∀ a, respects R (k a)) → respects R (m ≫= k).
Proof.
  intros Hm Hk s r s' [(a & s1 & H1 & H2)|(e & H1 & _)]%bind_inv.
  - transitivity s1; [by eapply Hm|by eapply Hk].
  - by eapply Hm.
Qed.

Lemma respects_try_except {A} (body : M S A) handler :
  respects R body → (∀ e, respects R (handler e)) → respects R (try_except body handler).
Proof.
  intros Hm Hk s r s' [(a & H1 & _)|(e & s1 & H1 & H2)]%try_except_inv.
  - by eapply Hm.
  - transitivity s1; [by eapply Hm|by eapply Hk].
Qed.

Lemma respects_for_each {A} (items : list A) (body : A → M S unit) :
  (∀ x, respects R (body x)) → respects R (for_each items body).
Proof.
  intros Hbody. induction items as [|x items IH]; simpl.
  - apply respects_ret.
  - apply respects_bind; [apply Hbody|intros _; apply IH].
Qed.
End respects.

#[local] Instance grows_reflexive : Reflexive grows.
Proof. intros w. unfold grows. reflexivity. Qed.
#[local] Instance grows_transitive : Transitive grows.
Proof. intros w1 w2 w3. unfold grows. apply transitivity. Qed.
#[local] Instance frame_grows_reflexive : Reflexive frame_grows.
Proof. intros f. unfold frame_grows. reflexivity. Qed.
#[local] Instance frame_grows_transitive : Transitive frame_grows.
Proof. intros f1 f2 f3. unfold frame_grows. apply transitivity. Qed.

Lemma grows_log ev : respects grows (log ev).
Proof. intros w r w' [= <- <-]. unfold grows. simpl. by apply prefix_app_r. Qed.

Lemma grows_sleep d : respects grows (sleep d).
Proof. intros w r w' [= <- <-]. unfold grows. simpl. by apply prefix_app_r. Qed.

Lemma grows_time_sleep d : respects grows (time_sleep d).
Proof.
  unfold time_sleep. case_decide; [apply (respects_raise grows)|apply grows_sleep].
Qed.

Lemma grows_uuid4 : respects grows uuid4.
Proof. intros w r w' [= <- <-]. unfold grows. done. Qed.

Lemma grows_transaction {A} (body : Z → database → result (A * database)) :
  respects grows (transaction body).
Proof.
  intros w r w' H.
  apply transaction_inv in H
    as [(e & later & _ & _ & ->)|[_ [(a & d & _ & _ & ->)|(e & _ & _ & ->)]]];
    unfold grows; done.
Qed.

Lemma grows_or_now last_processed_date : respects grows (or_now last_processed_date).
Proof.
  intros w r w' H. destruct (or_now_returns last_processed_date w) as [t Ht].
  rewrite Ht in H. injection H as _ <-. reflexivity.
Qed.

Ltac grows_step :=
  first
    [ apply (respects_bind grows); [|intros ?]
    | apply (respects_try_except grows); [|intros ?]
    | apply (respects_ret grows)
    | apply (respects_raise grows)
    | apply (respects_gets grows)
    | apply grows_log
    | apply grows_sleep
    | apply grows_uuid4
    | apply grows_or_now
    | apply grows_transaction ].

Lemma grows_on_failure {A} origin control_id last_processed_date e :
  respects grows (on_failure (A := A) origin control_id last_processed_date e).
Proof.
  unfold on_failure. grows_step; [grows_step|].
  destruct control_id; unfold record_processing_complete; repeat grows_step.
Qed.

Lemma grows_start_batch table_name : respects grows (start_batch table_name).
Proof. unfold start_batch, record_processing_start. repeat grows_step. Qed.

Lemma grows_append_steps data table_name last_processed_date b control_id :
  respects grows (append_steps data table_name last_processed_date b control_id).
Proof.
  unfold append_steps, select_existing_keys, insert_records, record_processing_complete.
  destruct (dedup_key_of table_name); repeat grows_step.
Qed.

Lemma grows_replace_steps data table_name last_processed_date b control_id :
  respects grows (replace_steps data table_name last_processed_date b control_id).
Proof.
  unfold replace_steps, archive_data, insert_records, record_processing_complete.
  repeat grows_step.
Qed.

Lemma grows_append_data data table_name last_processed_date :
  respects grows (append_data data table_name last_processed_date).
Proof.
  intros w r w' H. unfold append_data in H.
  destruct (start_batch table_name w) as [r0 w1] eqn:Hstart.
  apply grows_start_batch in Hstart. transitivity w1; [done|].
  destruct r0 as [[b cid]|e].
  - eapply (respects_try_except grows); [| |exact H].
    + apply grows_append_steps.
    + intros; apply grows_on_failure.
  - by eapply grows_on_failure.
Qed.

Lemma grows_replace_data data table_name last_processed_date :
  respects grows (replace_data data table_name last_processed_date).
Proof.
  intros w r w' H. unfold replace_data in H.
  destruct (start_batch table_name w) as [r0 w1] eqn:Hstart.
  apply grows_start_batch in Hstart. transitivity w1; [done|].
  destruct r0 as [[b cid]|e].
  - eapply (respects_try_except grows); [| |exact H].
    + apply grows_replace_steps.
    + intros; apply grows_on_failure.
  - by eapply grows_on_failure.
Qed.

Lemma grows_max_purchase_date orders : respects grows (max_purchase_date orders).
Proof.
  intros w r w'. unfold max_purchase_date.
  destruct (purchase_dates orders) as [[|t ts]|e]; intros [= <- <-]; reflexivity.
Qed.

Lemma grows_process_order_batch orders mode :
  respects grows (_process_order_batch orders mode).
Proof.
  unfold _process_order_batch.
  apply (respects_try_except grows); [|intros; repeat grows_step].
  apply (respects_bind grows); [apply grows_max_purchase_date|intros t].
  case_decide; (apply (respects_bind grows); [|intros; grows_step]).
  - apply grows_append_data.
  - apply grows_replace_data.
Qed.

Lemma grows_process_inventory_batch inventory mode :
  respects grows (_process_inventory_batch inventory mode).
Proof.
  unfold _process_inventory_batch, now.
  apply (respects_try_except grows); [|intros; repeat grows_step].
  grows_step; [grows_step|]. grows_step; [apply grows_replace_data|grows_step].
Qed.

Lemma grows_retry_loop self rq remaining : ∀ retry_count attempts response,
  respects grows (retry_loop self rq remaining retry_count attempts response).
Proof.
  induction remaining as [|remaining IH]; intros retry_count attempts response; simpl.
  - grows_step.
  - grows_step; [grows_step|]. destruct attempts as [|e later]; [grows_step|].
    case_decide; [grows_step|]. repeat (grows_step; [grows_step|]). apply IH.
Qed.

Lemma grows_fetch self rq variable x :
  respects grows (call_with_retries self rq x ≫= bound variable).
Proof.
  apply (respects_bind grows); [apply grows_retry_loop|].
  intros [v|]; grows_step.
Qed.

Lemma frame_grows_in_world {A} (m : M world A) :
  respects grows m → respects frame_grows (in_world m).
Proof. intros Hm f r f' (H & _)%in_world_inv. by eapply Hm. Qed.

Lemma frame_grows_modify (g : frame → frame) :
  (∀ f, env (g f) = env f) → respects frame_grows (modify g).
Proof. intros Hg f r f' [= <- <-]. unfold frame_grows. by rewrite Hg. Qed.

Lemma frame_grows_flush_orders mode batch : respects frame_grows (flush_orders mode batch).
Proof.
  unfold flush_orders, flush, count_batch.
  apply (respects_bind frame_grows); [by apply frame_grows_modify|intros _].
  apply (respects_bind frame_grows); [|intros; by apply frame_grows_modify].
  apply frame_grows_in_world, grows_process_order_batch.
Qed.

Lemma frame_grows_flush_inventory mode batch :
  respects frame_grows (flush_inventory mode batch).
Proof.
  unfold flush_inventory, flush, count_batch.
  apply (respects_bind frame_grows); [by apply frame_grows_modify|intros _].
  apply (respects_bind frame_grows); [|intros; by apply frame_grows_modify].
  apply frame_grows_in_world, grows_process_inventory_batch.
Qed.

Lemma frame_grows_pages self rq variable flush_batch :
  (∀ batch, respects frame_grows (flush_batch batch)) →
  ∀ later page buffer,
    respects frame_grows (pages self rq variable flush_batch page later buffer).
Proof.
  intros Hflush. induction later as [|page' later' IH]; intros page buffer;
    rewrite pages_unfold;
    (apply (respects_bind frame_grows);
     [apply frame_grows_in_world, grows_fetch|intros response]);
    (apply (respects_bind frame_grows);
     [case_decide;
      [apply (respects_bind frame_grows);
       [apply Hflush|intros; apply (respects_ret frame_grows)]
      |apply (respects_ret frame_grows)]
     |intros buffer']).
  - apply (respects_ret frame_grows).
  - apply (respects_bind frame_grows); [|intros; apply IH].
    apply frame_grows_in_world, grows_time_sleep.
Qed.

Lemma frame_grows_flush_rest flush_batch buffer :
  (∀ batch, respects frame_grows (flush_batch batch)) →
  respects frame_grows (flush_rest flush_batch buffer).
Proof.
  intros Hflush. destruct buffer; simpl; [apply (respects_ret frame_grows)|apply Hflush].
Qed.

Lemma frame_grows_count_failure origin :
  respects frame_grows (in_world (log (LogError origin));; count_error).
Proof.
  apply (respects_bind frame_grows);
    [apply frame_grows_in_world, grows_log|intros; by apply frame_grows_modify].
Qed.

Lemma frame_grows_orders_chunk self orders_api mode chunk :
  respects frame_grows (orders_chunk self orders_api mode chunk).
Proof.
  unfold orders_chunk.
  apply (respects_try_except frame_grows); [|intros; apply frame_grows_count_failure].
  apply (respects_bind frame_grows).
  - apply frame_grows_pages. apply frame_grows_flush_orders.
  - intros. apply frame_grows_flush_rest. apply frame_grows_flush_orders.
Qed.

(** A chunk of [process_orders] returns, whatever happens inside it. *)
Lemma orders_chunk_returns self orders_api mode chunk f :
  ∃ f', orders_chunk self orders_api mode chunk f = (Ok tt, f').
Proof.
  destruct (orders_chunk self orders_api mode chunk f) as [r f'] eqn:H.
  exists f'. unfold orders_chunk in H.
  apply try_except_inv in H as [([] & _ & ->)|(e & f1 & _ & H)]; [done|].
  destruct (count_failure_returns "process_orders" f1) as (f2 & Hf2 & _).
  rewrite Hf2 in H. by injection H as <- <-.
Qed.

Lemma orders_run_returns self orders_api mode chunks : ∀ f,
  ∃ f', for_each chunks (orders_chunk self orders_api mode) f = (Ok tt, f').
Proof.
  induction chunks as [|chunk chunks IH]; intros f; simpl; [by eexists|].
  destruct (orders_chunk_returns self orders_api mode chunk f) as [f1 Hchunk].
  destruct (IH f1) as [f' Hrest]. exists f'.
  by erewrite bind_ok by exact Hchunk.
Qed.

Lemma logged_then_grows f f1 f2 ev :
  logged_between f f1 ev → frame_grows f1 f2 → logged_between f f2 ev.
Proof.
  intros (t & Ht & Hin) [t' Ht']. exists (t ++ t').
  split; [by rewrite Ht', Ht, (assoc_L (++))|set_solver].
Qed.

Lemma grows_then_logged f f1 f2 ev :
  frame_grows f f1 → logged_between f1 f2 ev → logged_between f f2 ev.
Proof.
  intros [t' Ht'] (t & Ht & Hin). exists (t' ++ t).
  split; [by rewrite Ht, Ht', (assoc_L (++))|set_solver].
Qed.

(** The first thing a chunk does is to call upstream for it. *)
Lemma orders_chunk_fetches self orders_api mode chunk f r f' :
  1 ≤ max_retries self →
  orders_chunk self orders_api mode chunk f = (r, f') →
  logged_between f f' (Fetch (GetOrders chunk.1 chunk.2)).
Proof.
  intros Hmax H. unfold orders_chunk in H.
  assert (Hfirst : ∀ r1 f1,
    in_world (call_with_retries self (GetOrders chunk.1 chunk.2)
                (first_page (orders_api chunk.1 chunk.2)) ≫= bound "orders_response") f
    = (r1, f1) → logged_between f f1 (Fetch (GetOrders chunk.1 chunk.2))).
  { intros r1 f1 (Hcall & _)%in_world_inv.
    unfold call_with_retries in Hcall. unfold logged_between.
    destruct (max_retries self) as [|remaining] eqn:Hn; [lia|].
    destruct (retry_loop_outcome self (GetOrders chunk.1 chunk.2) remaining 0
                (failures (first_page (orders_api chunk.1 chunk.2)))
                (answer (first_page (orders_api chunk.1 chunk.2))) (env f))
      as (w' & Hrun & Htrace & _); [lia|].
    apply bind_inv in Hcall as [(v & w1 & Hloop & Hbound)|(e & Hloop & _)];
      rewrite Hrun in Hloop; injection Hloop as _ <-.
    - assert (grows w' (env f1)) as [t Ht].
      { destruct v; injection Hbound as _ <-; reflexivity. }
      eexists. split; [by rewrite Ht, Htrace, <- (assoc_L (++))|]. set_solver.
    - eexists. split; [exact Htrace|]. set_solver. }
  assert (Hbody : ∀ r1 f1,
    (orders_buffer ←
       pages self (GetOrders chunk.1 chunk.2) "orders_response" (flush_orders mode)
         (first_page (orders_api chunk.1 chunk.2))
         (next_pages (orders_api chunk.1 chunk.2)) [];
     flush_rest (flush_orders mode) orders_buffer) f = (r1, f1) →
    logged_between f f1 (Fetch (GetOrders chunk.1 chunk.2))).
  { intros r1 f1. rewrite pages_unfold. intros Hrun.
    apply bind_inv in Hrun as [(buffer & f2 & Hpages & Hrest)|(e & Hpages & _)].
    - apply bind_inv_ok in Hpages as (response & f3 & Hfetch & Hpages).
      apply Hfirst in Hfetch.
      apply (logged_then_grows f f3 f1); [done|].
      transitivity f2.
      + revert Hpages.
        generalize (Ok buffer : result (list record)). intros r2 Hpages.
        eapply (respects_bind frame_grows); [| |exact Hpages].
        * case_decide;
            [apply (respects_bind frame_grows);
             [apply frame_grows_flush_orders|intros; apply (respects_ret frame_grows)]
            |apply (respects_ret frame_grows)].
        * intros buffer'. destruct (next_pages _) as [|page' later'].
          -- apply (respects_ret frame_grows).
          -- apply (respects_bind frame_grows);
               [apply frame_grows_in_world, grows_time_sleep|intros].
             apply frame_grows_pages, frame_grows_flush_orders.
      + eapply frame_grows_flush_rest; [apply frame_grows_flush_orders|exact Hrest].
    - apply bind_inv in Hpages as [(response & f3 & Hfetch & Hpages)|(e' & Hfetch & _)].
      + apply Hfirst in Hfetch.
        apply (logged_then_grows f f3 f1); [done|].
        eapply (respects_bind frame_grows); [| |exact Hpages].
        * case_decide;
            [apply (respects_bind frame_grows);
             [apply frame_grows_flush_orders|intros; apply (respects_ret frame_grows)]
            |apply (respects_ret frame_grows)].
        * intros buffer'. destruct (next_pages _) as [|page' later'].
          -- apply (respects_ret frame_grows).
          -- apply (respects_bind frame_grows);
               [apply frame_grows_in_world, grows_time_sleep|intros].
             apply frame_grows_pages, frame_grows_flush_orders.
      + by apply Hfirst in Hfetch. }
  apply try_except_inv in H as [(u & H & _)|(e & f1 & H & Hhandler)].
  - by apply Hbody in H.
  - apply Hbody in H. apply frame_grows_count_failure in Hhandler.
    by apply (logged_then_grows f f1 f').
Qed.

(** Every chunk of a run has been asked for by the end of the run. *)
Lemma orders_run_fetches self orders_api mode chunk :
  1 ≤ max_retries self →
  ∀ chunks f f',
    for_each chunks (orders_chunk self orders_api mode) f = (Ok tt, f') →
    chunk ∈ chunks →
    logged_between f f' (Fetch (GetOrders chunk.1 chunk.2)).
Proof.
  intros Hmax chunks.
  induction chunks as [|c chunks IH]; intros f f' Hrun Hin; [by apply elem_of_nil in Hin|].
  simpl in Hrun.
  apply bind_inv_ok in Hrun as (u & f1 & Hchunk & Hrest).
  apply elem_of_cons in Hin as [->|Hin].
  - apply orders_chunk_fetches in Hchunk; [|done].
    apply (logged_then_grows f f1 f'); [done|].
    eapply (respects_for_each frame_grows); [|exact Hrest].
    intros; apply frame_grows_orders_chunk.
  - apply (grows_then_logged f f1 f'); [|by eapply IH].
    eapply frame_grows_orders_chunk; exact Hchunk.
Qed.

(** [process_orders] goes through the chunks the generator yields; it returns
    the statistics, unless the generator raised. *)
Lemma process_orders_outcome self orders_api start_date end_date mode w f' :
  for_each (_chunk_date_range start_date end_date 7) (orders_chunk self orders_api mode)
    (new_frame mode w) = (Ok tt, f') →
  process_orders self orders_api start_date end_date mode w
  = (match _chunk_date_range_raises start_date end_date 7 with
     | Some e => Raise e
     | None => Ok (total_stats f')
     end, env f').
Proof.
  intros Hrun. unfold process_orders, returning, orders_run, for_each_yielded.
  erewrite bind_ok by exact Hrun.
  by destruct (_chunk_date_range_raises start_date end_date 7).
Qed.

(** X5. [process_orders] with [max_retries] at least 1, against an upstream
    that answers every query with finitely many pages.  Whatever fails inside
    a chunk, during the run upstream is called for every date chunk that the
    generator yields: each chunk's request is among the calls the run added
    to the trace.  The run returns its statistics when the generator ends
    normally, and raises the generator's OverflowError otherwise (the
    generator runs in the [for] header, outside the [try]); it returns
    whenever start_date is a datetime and end_date plus 7 days still is one. *)
Theorem process_orders_attempts_every_chunk
    (self : config) (orders_api : OrdersAPI) (start_date end_date : Z)
    (mode : string) (w : world) :
  1 ≤ max_retries self →
  ∃ r w' t, process_orders self orders_api start_date end_date mode w = (r, w') ∧
    trace w' = trace w ++ t ∧
    (∀ chunk, chunk ∈ _chunk_date_range start_date end_date 7 →
              GetOrders chunk.1 chunk.2 ∈ fetches t) ∧
    ended (_chunk_date_range_raises start_date end_date 7) r (λ _, True) ∧
    (∀ e, r = Raise e → e = OverflowError) ∧
    ((datetime_min ≤ start_date)%Z → (end_date + timedelta_days 7 ≤ datetime_max)%Z →
     ∃ st, r = Ok st).
Proof.
  intros Hmax.
  destruct (orders_run_returns self orders_api mode
              (_chunk_date_range start_date end_date 7) (new_frame mode w)) as [f' Hrun].
  rewrite (process_orders_outcome _ _ _ _ _ _ _ Hrun).
  assert (frame_grows (new_frame mode w) f') as [t Ht].
  { eapply (respects_for_each frame_grows); [|exact Hrun].
    intros; apply frame_grows_orders_chunk. }
  eexists _, (env f'), t. split; [reflexivity|]. split; [done|].
  split; [|split; [|split]].
  - intros chunk Hin.
    destruct (orders_run_fetches self orders_api mode chunk Hmax _ _ f' Hrun Hin)
      as (t' & Ht' & Hin').
    rewrite Ht in Ht'. apply app_inv_head in Ht' as ->.
    unfold fetches. apply list_elem_of_omap.
    by exists (Fetch (GetOrders chunk.1 chunk.2)).
  - unfold ended. destruct (_chunk_date_range_raises _ _ _); [done|by eexists].
  - intros e.
    destruct (_chunk_date_range_raises start_date end_date 7) as [e'|] eqn:Hraises;
      [|done].
    intros [= <-]. by eapply chunk_date_range_raises_overflow.
  - intros Hmin Hmaxd.
    destruct (chunk_date_range_ok start_date end_date 7 ltac:(lia) Hmin Hmaxd) as [-> _].
    by eexists.
Qed.

Lemma process_orders_attempts_every_chunk_witness :
  (1 ≤ max_retries one_per_batch ∧ (datetime_min ≤ 0)%Z ∧
   (timedelta_days 14 + timedelta_days 7 ≤ datetime_max)%Z) ∧
  (∃ st w', process_orders one_per_batch first_week_down 0%Z (timedelta_days 14)
              "APPEND" fresh_world = (Ok st, w') ∧
            GetOrders (timedelta_days 7) (timedelta_days 14) ∈ fetches (trace w')) ∧
  ∃ w', process_orders one_per_batch first_week_down
          (datetime_max - timedelta_days 3) datetime_max "APPEND" fresh_world
        = (Raise OverflowError, w') ∧
        trace w' = [].
Proof.
  assert (Hmax : 1 ≤ max_retries one_per_batch) by (simpl; lia).
  assert (Hmin : (datetime_min ≤ 0)%Z) by discriminate.
  assert (Hmaxd : (timedelta_days 14 + timedelta_days 7 ≤ datetime_max)%Z) by discriminate.
  split; [done|]. split.
  - destruct (process_orders_attempts_every_chunk one_per_batch first_week_down 0%Z
                (timedelta_days 14) "APPEND" fresh_world Hmax)
      as (r & w' & t & Hrun & Htrace & Hall & _ & _ & Hreturns).
    destruct (Hreturns Hmin Hmaxd) as [st ->].
    exists st, w'. split; [exact Hrun|].
    rewrite Htrace. unfold fetches. rewrite omap_app. apply elem_of_app. right.
    apply (Hall (timedelta_days 7, timedelta_days 14)).
    vm_compute. right. left.
  - destruct (process_orders_attempts_every_chunk one_per_batch first_week_down
                (datetime_max - timedelta_days 3) datetime_max "APPEND" fresh_world Hmax)
      as (r & w' & t & Hrun & Htrace & _ & Hended & _ & _).
    assert (Hraises : _chunk_date_range_raises (datetime_max - timedelta_days 3)
                        datetime_max 7 = Some OverflowError) by reflexivity.
    unfold ended in Hended. rewrite Hraises in Hended. subst r.
    exists w'. split; [exact Hrun|].
    assert (Hquiet : trace (process_orders one_per_batch first_week_down
                             (datetime_max - timedelta_days 3) datetime_max "APPEND"
                             fresh_world).2 = []) by (vm_compute; reflexivity).
    by rewrite Hrun in Hquiet.
Defined.

(** A chunk of a processor that never retries: one error, nothing else. *)
Lemma orders_chunk_without_retries self orders_api mode chunk f :
  max_retries self = 0 →
  ∃ f', orders_chunk self orders_api mode chunk f = (Ok tt, f') ∧
    errors (total_stats f') = errors (total_stats f) + 1 ∧
    total_processed (total_stats f') = total_processed (total_stats f) ∧
    total_batches (total_stats f') = total_batches (total_stats f) ∧
    batch_ids (total_stats f') = batch_ids (total_stats f) ∧
    db (env f') = db (env f) ∧
    fetches (trace (env f')) = fetches (trace (env f)).
Proof.
  intros Hzero. unfold orders_chunk. rewrite pages_unfold.
  unfold try_except.
  assert (Hcall : in_world (call_with_retries self (GetOrders chunk.1 chunk.2)
                    (first_page (orders_api chunk.1 chunk.2)) ≫= bound "orders_response") f
                  = (Raise (UnboundLocalError "orders_response"),
                     {| total_stats := total_stats f; flushed := flushed f;
                        env := env f |})).
  { unfold in_world. by rewrite call_without_retries. }
  erewrite bind_raise by (erewrite bind_raise by exact Hcall; reflexivity).
  eexists. split; [reflexivity|]. simpl.
  repeat split; try done.
  unfold fetches. by rewrite omap_app, app_nil_r.
Qed.

(** X4. A processor built with [max_retries] = 0 never calls upstream: in
    every date chunk the generator yields, the response variable is read
    unbound.  The run makes no call and leaves the database as it was; when
    the generator ends normally, [process_orders] returns statistics with one
    error per date chunk, no batch and no record, and otherwise it raises the
    generator's OverflowError. *)
Theorem process_orders_without_retries
    (self : config) (orders_api : OrdersAPI) (start_date end_date : Z)
    (mode : string) (w : world) :
  max_retries self = 0 →
  ∃ r w', process_orders self orders_api start_date end_date mode w = (r, w') ∧
    fetches (trace w') = fetches (trace w) ∧
    db w' = db w ∧
    ended (_chunk_date_range_raises start_date end_date 7) r
      (λ st, errors st = length (_chunk_date_range start_date end_date 7) ∧
             total_processed st = 0 ∧ total_batches st = 0 ∧ batch_ids st = []).
Proof.
  intros Hzero.
  assert (Hrun : ∀ chunks f,
    ∃ f', for_each chunks (orders_chunk self orders_api mode) f = (Ok tt, f') ∧
      errors (total_stats f') = errors (total_stats f) + length chunks ∧
      total_processed (total_stats f') = total_processed (total_stats f) ∧
      total_batches (total_stats f') = total_batches (total_stats f) ∧
      batch_ids (total_stats f') = batch_ids (total_stats f) ∧
      db (env f') = db (env f) ∧
      fetches (trace (env f')) = fetches (trace (env f))).
  { induction chunks as [|chunk chunks IH]; intros f.
    - exists f. simpl. repeat split; done || lia.
    - destruct (orders_chunk_without_retries self orders_api mode chunk f Hzero)
        as (f1 & Hchunk & He1 & Hp1 & Hb1 & Hi1 & Hd1 & Hf1).
      destruct (IH f1) as (f' & Hrest & He & Hp & Hb & Hi & Hd & Hf).
      exists f'. split; [simpl; by erewrite bind_ok by exact Hchunk|].
      simpl. repeat split; congruence || lia. }
  destruct (Hrun (_chunk_date_range start_date end_date 7) (new_frame mode w))
    as (f' & Hfor & He & Hp & Hb & Hi & Hd & Hf).
  rewrite (process_orders_outcome _ _ _ _ _ _ _ Hfor).
  eexists _, (env f'). split; [reflexivity|]. split; [done|]. split; [done|].
  unfold ended. destruct (_chunk_date_range_raises _ _ _); [done|].
  eexists. split; [reflexivity|]. simpl in *. repeat split; done || lia.
Qed.

Lemma process_orders_without_retries_witness :
  max_retries {| batch_size := 2; rate_limit_pause := 0; max_retries := 0 |} = 0 ∧
  ∃ st w', process_orders {| batch_size := 2; rate_limit_pause := 0; max_retries := 0 |}
             weekly_api 0%Z (timedelta_days 14) "APPEND" fresh_world = (Ok st, w') ∧
           errors st = 2 ∧ fetches (trace w') = [].
Proof.
  split; [reflexivity|].
  destruct (process_orders_without_retries
              {| batch_size := 2; rate_limit_pause := 0; max_retries := 0 |}
              weekly_api 0%Z (timedelta_days 14) "APPEND" fresh_world eq_refl)
    as (r & w' & Hrun & Hfetches & _ & Hended).
  assert (Hnone : _chunk_date_range_raises 0 (timedelta_days 14) 7 = None) by reflexivity.
  unfold ended in Hended. rewrite Hnone in Hended.
  destruct Hended as (st & -> & Herrors & _).
  by exists st, w'.
Defined.

(** ** The bookkeeping of a run *)

Lemma accounted_unchanged {A} (r : result A) f f' :
  total_stats f' = total_stats f → flushed f' = flushed f → accounted r f f'.
Proof. intros Hs Hf. unfold accounted. rewrite Hs, Hf. destruct r; repeat split; lia. Qed.

Lemma accounted_then {A B} (a : A) (r : result B) f f1 f2 :
  accounted (Ok a) f f1 → accounted r f1 f2 → accounted r f f2.
Proof.
  unfold accounted. intros (He & Hm & Hids & Hle & Hok) (He' & Hm' & Hids' & Hle' & Hr).
  repeat split; try congruence; try lia. destruct r; lia.
Qed.

Lemma accounted_in_world {A} (m : M world A) f r f' :
  in_world m f = (r, f') → accounted r f f'.
Proof. intros (_ & Hf & Hs)%in_world_inv. by apply accounted_unchanged. Qed.

Lemma flush_orders_accounted mode batch f r f' :
  flush_orders mode batch f = (r, f') → accounted r f f'.
Proof.
  unfold flush_orders. intros [(u & f1 & [= <- <-] & H)|(e & [=] & _)]%bind_inv.
  apply bind_inv in H as [(id & f2 & (_ & Hf & Hs)%in_world_inv & [= <- <-])
                         |(e & (_ & Hf & Hs)%in_world_inv & ->)];
    unfold accounted; simpl in *; rewrite ?Hs, ?Hf, ?length_app; simpl;
    repeat split; lia.
Qed.

Lemma flush_inventory_accounted mode batch f r f' :
  flush_inventory mode batch f = (r, f') → accounted r f f'.
Proof.
  unfold flush_inventory. intros [(u & f1 & [= <- <-] & H)|(e & [=] & _)]%bind_inv.
  apply bind_inv in H as [(id & f2 & (_ & Hf & Hs)%in_world_inv & [= <- <-])
                         |(e & (_ & Hf & Hs)%in_world_inv & ->)];
    unfold accounted; simpl in *; rewrite ?Hs, ?Hf, ?length_app; simpl;
    repeat split; lia.
Qed.

Section accounting.
Variables (self : config) (rq : request) (variable : string).
Variable flush_batch : list record → M frame unit.
Hypothesis flush_batch_accounted :
  ∀ batch f r f', flush_batch batch f = (r, f') → accounted r f f'.

Lemma pages_accounted later : ∀ page buffer f r f',
  pages self rq variable flush_batch page later buffer f = (r, f') →
  accounted r f f'.
Proof.
  induction later as [|page' later' IH]; intros page buffer f r f';
    rewrite pages_unfold;
    (intros [(response & f1 & Hfetch & H)|(e & Hfetch & ->)]%bind_inv;
     [|by apply accounted_in_world in Hfetch]);
    apply accounted_in_world in Hfetch;
    simpl in H;
    (apply bind_inv in H as [(buffer1 & f2 & Hflush & H)|(e & Hflush & ->)];
     [|case_decide; [|done];
       apply bind_inv in Hflush as [(u & f3 & _ & [=])|(e' & Hflush & _)];
       apply flush_batch_accounted in Hflush;
       by eapply accounted_then]);
    (assert (accounted (Ok buffer1) f1 f2) as Hflushed;
     [case_decide;
      [apply bind_inv_ok in Hflush as (u & f3 & Hflush & [= <- <-]);
       by apply flush_batch_accounted in Hflush
      |injection Hflush as <- <-; by apply accounted_unchanged]|]).
  - injection H as <- <-. by eapply accounted_then.
  - apply bind_inv in H as [(u0 & f4 & Hsleep & H)|(e & Hsleep & ->)].
    + apply accounted_in_world in Hsleep. apply IH in H.
      eapply accounted_then; [exact Hfetch|].
      eapply accounted_then; [exact Hflushed|].
      by eapply accounted_then.
    + apply accounted_in_world in Hsleep.
      eapply accounted_then; [exact Hfetch|]. by eapply accounted_then.
Qed.

Lemma chain_accounted chain f r f' :
  (buffer ← pages self rq variable flush_batch (first_page chain) (next_pages chain) [];
   flush_rest flush_batch buffer) f = (r, f') →
  accounted r f f'.
Proof.
  intros [(buffer & f1 & Hpages & Hrest)|(e & Hpages & ->)]%bind_inv;
    apply pages_accounted in Hpages; [|done].
  eapply accounted_then; [exact Hpages|].
  destruct buffer; simpl in Hrest.
  - injection Hrest as <- <-. by apply accounted_unchanged.
  - by apply flush_batch_accounted in Hrest.
Qed.
End accounting.

Lemma settled_of_chunk {A} origin (r : result A) f f1 f' (rr : result unit) :
  accounted r f f1 →
  match r with
  | Ok _ => f' = f1
  | Raise _ => (in_world (log (LogError origin));; count_error) f1 = (rr, f')
  end →
  settled 1 f f'.
Proof.
  unfold accounted, settled. intros (He & Hm & Hids & Hle & Hr) Hend.
  destruct r as [a|e].
  - subst f'. repeat split; lia || congruence.
  - unfold in_world, log, count_error, modify, mbind, M_bind in Hend. simpl in Hend.
    injection Hend as _ <-. simpl. repeat split; lia || congruence.
Qed.

Lemma settled_then n m f f1 f2 : settled n f f1 → settled m f1 f2 → settled (n + m) f f2.
Proof.
  unfold settled.
  intros (Hm & Hids & Hle & He & He' & Hf & Hf') (Hm2 & Hids2 & Hle2 & He2 & He2' & Hf2 & Hf2').
  repeat split; lia || congruence.
Qed.

Lemma orders_chunk_settled self orders_api mode chunk f r f' :
  orders_chunk self orders_api mode chunk f = (r, f') → settled 1 f f'.
Proof.
  unfold orders_chunk. intros [(u & H & _)|(e & f1 & H & Hhandler)]%try_except_inv;
    apply (chain_accounted self _ _ _ (flush_orders_accounted mode)) in H.
  - by eapply (settled_of_chunk "process_orders" (Ok u) f f' f' (Ok tt)).
  - by eapply (settled_of_chunk "process_orders" (Raise e) f f1 f' r).
Qed.

Lemma orders_run_settled self orders_api mode chunks : ∀ f r f',
  for_each chunks (orders_chunk self orders_api mode) f = (r, f') →
  settled (length chunks) f f'.
Proof.
  induction chunks as [|chunk chunks IH]; intros f r f'; simpl.
  - intros [= <- <-]. unfold settled. repeat split; lia.
  - intros [(u & f1 & Hchunk & H)|(e & Hchunk & _)]%bind_inv.
    + apply orders_chunk_settled in Hchunk. apply IH in H.
      by apply (settled_then 1 (length chunks) f f1 f').
    + destruct (orders_chunk_returns self orders_api mode chunk f) as [f1 Hf1].
      rewrite Hf1 in Hchunk. done.
Qed.

(** X6. The statistics of [process_orders] add up, whatever failed inside
    the chunks.  When the chunk generator ends normally the run returns
    statistics in which mode is the mode passed, total_batches is the number
    of batch ids collected, every batch handed to the staging store was
    either counted or made its chunk fail (so the batches handed over lie
    between total_batches and total_batches + errors), and errors is at most
    the number of date chunks; when the generator raises, so does the run. *)
Theorem process_orders_accounts
    (self : config) (orders_api : OrdersAPI) (start_date end_date : Z)
    (mode : string) (w : world) :
  ∃ r w', process_orders self orders_api start_date end_date mode w = (r, w') ∧
    let handed := batches (orders_run self orders_api start_date end_date mode) mode w in
    ended (_chunk_date_range_raises start_date end_date 7) r
      (λ st, BatchProcessor.mode st = mode ∧
             total_batches st = length (batch_ids st) ∧
             total_batches st ≤ length handed ∧
             length handed ≤ total_batches st + errors st ∧
             errors st ≤ length (_chunk_date_range start_date end_date 7)).
Proof.
  destruct (orders_run_returns self orders_api mode
              (_chunk_date_range start_date end_date 7) (new_frame mode w)) as [f' Hrun].
  rewrite (process_orders_outcome _ _ _ _ _ _ _ Hrun).
  eexists _, (env f'). split; [reflexivity|].
  assert (Hhanded : batches (orders_run self orders_api start_date end_date mode) mode w
                    = flushed f').
  { unfold batches, orders_run, for_each_yielded.
    erewrite bind_ok by exact Hrun.
    by destruct (_chunk_date_range_raises start_date end_date 7). }
  simpl. rewrite Hhanded.
  unfold ended. destruct (_chunk_date_range_raises _ _ _); [done|].
  eexists. split; [reflexivity|].
  apply orders_run_settled in Hrun as (Hm & Hids & Hle & He & He' & Hf & Hf').
  simpl in *. repeat split; lia || congruence.
Qed.

Lemma process_orders_accounts_witness :
  ∃ st w', process_orders two_per_batch busy_api 0%Z day "APPEND" fresh_world
           = (Ok st, w') ∧
           total_batches st = length (batch_ids st) ∧ errors st ≤ 1.
Proof.
  destruct (process_orders_accounts two_per_batch busy_api 0%Z day "APPEND" fresh_world)
    as (r & w' & Hrun & Hended).
  assert (Hnone : _chunk_date_range_raises 0 day 7 = None) by reflexivity.
  assert (Hone : length (_chunk_date_range 0 day 7) = 1) by reflexivity.
  cbv zeta in Hended. unfold ended in Hended. rewrite Hnone, Hone in Hended.
  destruct Hended as (st & -> & _ & Hids & _ & _ & Herrors).
  exists st, w'. split; [exact Hrun|]. split; [exact Hids|exact Herrors].
Defined.

(** ** Inventory *)

#[local] Instance same_tables_reflexive : Reflexive same_tables.
Proof. by intros w. Qed.
#[local] Instance same_tables_transitive : Transitive same_tables.
Proof. intros w1 w2 w3 [H1 H2] [H3 H4]. split; congruence. Qed.
#[local] Instance nothing_staged_reflexive : Reflexive nothing_staged.
Proof. by intros f. Qed.
#[local] Instance nothing_staged_transitive : Transitive nothing_staged.
Proof.
  intros f1 f2 f3 [H1 H2] [H3 H4]. split; [congruence|by transitivity (env f2)].
Qed.

Lemma same_tables_modify (g : world → world) :
  (∀ w, db (g w) = db w) → respects same_tables (modify g).
Proof. intros Hg w r w' [= <- <-]. unfold same_tables. by rewrite Hg. Qed.

Lemma same_tables_uuid4 : respects same_tables uuid4.
Proof. by intros w r w' [= <- <-]. Qed.

Lemma same_tables_transaction {A} (body : Z → database → result (A * database)) :
  (∀ t d a d', body t d = Ok (a, d') → stage d' = stage d ∧ archive d' = archive d) →
  respects same_tables (transaction body).
Proof.
  intros Hbody w r w' H.
  apply transaction_inv in H
    as [(e & later & _ & _ & ->)|[_ [(a & d & H & _ & ->)|(e & _ & _ & ->)]]];
    unfold same_tables; simpl; eauto.
Qed.

Lemma same_tables_or_now last_processed_date :
  respects same_tables (or_now last_processed_date).
Proof.
  intros w r w' H. destruct (or_now_returns last_processed_date w) as [t Ht].
  rewrite Ht in H. injection H as _ <-. reflexivity.
Qed.

Lemma same_tables_complete control_id t n st :
  respects same_tables (record_processing_complete control_id t n st).
Proof. apply same_tables_transaction. by intros getdate d a d' [= _ <-]. Qed.

Lemma same_tables_start_batch table_name : respects same_tables (start_batch table_name).
Proof.
  unfold start_batch, record_processing_start.
  apply (respects_bind same_tables); [apply same_tables_uuid4|intros b].
  apply (respects_bind same_tables); [|intros; apply (respects_ret same_tables)].
  apply same_tables_transaction. by intros getdate d a d' [= _ <-].
Qed.

Lemma same_tables_on_failure {A} origin control_id last_processed_date e :
  respects same_tables (on_failure (A := A) origin control_id last_processed_date e).
Proof.
  unfold on_failure.
  apply (respects_bind same_tables); [by apply same_tables_modify|intros _].
  destruct control_id; [|apply (respects_raise same_tables)].
  apply (respects_bind same_tables); [apply same_tables_or_now|intros t].
  apply (respects_bind same_tables); [apply same_tables_complete|intros _].
  apply (respects_raise same_tables).
Qed.

(** The archive statement names AmazonOrderId, which neither Inventory table
    has: the server never commits it. *)
Lemma archive_inventory_raises batch_id w r w' :
  archive_data "Inventory" batch_id w = (r, w') →
  (∃ e, r = Raise e) ∧ same_tables w w'.
Proof.
  unfold archive_data. intros H.
  apply transaction_inv in H
    as [(e & later & _ & -> & ->)|[_ [(a & d & H & _ & ->)|(e & _ & -> & ->)]]].
  - split; [by eexists|done].
  - by vm_compute in H.
  - split; [by eexists|done].
Qed.

Lemma replace_inventory_raises data last_processed_date w r w' :
  replace_data data "Inventory" last_processed_date w = (r, w') →
  (∃ e, r = Raise e) ∧ same_tables w w'.
Proof.
  unfold replace_data. intros H.
  destruct (start_batch "Inventory" w) as [r0 w1] eqn:Hstart.
  apply same_tables_start_batch in Hstart.
  destruct r0 as [[b cid]|e].
  - apply try_except_inv in H as [(a & H & _)|(e & w2 & H & Hhandler)].
    + unfold replace_steps in H.
      apply bind_inv_ok in H as (u & w2 & [[e [=]] _]%archive_inventory_raises & _).
    + split; [by eapply on_failure_raises|].
      transitivity w1; [done|]. transitivity w2.
      * unfold replace_steps in H.
        apply bind_inv in H as [(u & w3 & [[e' [=]] _]%archive_inventory_raises & _)
                               |(e' & [_ H]%archive_inventory_raises & _)].
        done.
      * by eapply same_tables_on_failure.
  - split; [by eapply on_failure_raises|].
    transitivity w1; [done|]. by eapply same_tables_on_failure.
Qed.

Lemma inventory_batch_raises inventory mode w r w' :
  _process_inventory_batch inventory mode w = (r, w') →
  (∃ e, r = Raise e) ∧ same_tables w w'.
Proof.
  unfold _process_inventory_batch. intros H.
  apply try_except_inv in H as [(a & H & _)|(e & w1 & H & Hhandler)].
  - apply bind_inv_ok in H as (t & w1 & [= <- <-] & H).
    apply bind_inv_ok in H as (rr & w2 & [[e [=]] _]%replace_inventory_raises & _).
  - assert (same_tables w w1) as Hbody.
    { apply bind_inv in H as [(t & w2 & [= <- <-] & H)|(e' & [=] & _)].
      apply bind_inv in H as [(rr & w3 & [[e' [=]] _]%replace_inventory_raises & _)
                             |(e' & [_ H]%replace_inventory_raises & _)].
      done. }
    unfold mbind, M_bind, log, modify, raise in Hhandler. simpl in Hhandler.
    injection Hhandler as <- <-. split; [by eexists|]. exact Hbody.
Qed.

Lemma flush_inventory_stages_nothing mode batch :
  respects nothing_staged (flush_inventory mode batch).
Proof.
  intros f r f'. unfold flush_inventory.
  intros [(u & f1 & [= <- <-] & H)|(e & [=] & _)]%bind_inv.
  apply bind_inv in H as [(id & f2 & (H & _)%in_world_inv & _)
                         |(e & (H & _ & Hs)%in_world_inv & _)].
  - by apply inventory_batch_raises in H as [[e [=]] _].
  - apply inventory_batch_raises in H as [_ H]. by split.
Qed.

Lemma same_tables_retry_loop self rq remaining : ∀ retry_count attempts response,
  respects same_tables (retry_loop self rq remaining retry_count attempts response).
Proof.
  induction remaining as [|remaining IH]; intros retry_count attempts response; simpl.
  - apply (respects_ret same_tables).
  - apply (respects_bind same_tables); [by apply same_tables_modify|intros _].
    destruct attempts as [|e later]; [apply (respects_ret same_tables)|].
    case_decide; [apply (respects_raise same_tables)|].
    apply (respects_bind same_tables); [by apply same_tables_modify|intros _].
    apply (respects_bind same_tables); [by apply same_tables_modify|intros _].
    apply IH.
Qed.

Lemma nothing_staged_in_world {A} (m : M world A) :
  respects same_tables m → respects nothing_staged (in_world m).
Proof. intros Hm f r f' (H & _ & Hs)%in_world_inv. split; [done|by eapply Hm]. Qed.

Lemma nothing_staged_fetch self rq variable x :
  respects nothing_staged (in_world (call_with_retries self rq x ≫= bound variable)).
Proof.
  apply nothing_staged_in_world.
  apply (respects_bind same_tables); [apply same_tables_retry_loop|].
  intros [v|]; [apply (respects_ret same_tables)|apply (respects_raise same_tables)].
Qed.

Lemma nothing_staged_pause d : respects nothing_staged (in_world (time_sleep d)).
Proof.
  apply nothing_staged_in_world. unfold time_sleep.
  case_decide; [apply (respects_raise same_tables)|by apply same_tables_modify].
Qed.

Lemma nothing_staged_pages self rq variable mode : ∀ later page buffer,
  respects nothing_staged
    (pages self rq variable (flush_inventory mode) page later buffer).
Proof.
  induction later as [|page' later' IH]; intros page buffer;
    rewrite pages_unfold;
    (apply (respects_bind nothing_staged); [apply nothing_staged_fetch|intros response]);
    (apply (respects_bind nothing_staged);
     [case_decide;
      [apply (respects_bind nothing_staged);
       [apply flush_inventory_stages_nothing|intros; apply (respects_ret nothing_staged)]
      |apply (respects_ret nothing_staged)]
     |intros buffer']).
  - apply (respects_ret nothing_staged).
  - apply (respects_bind nothing_staged); [apply nothing_staged_pause|intros; apply IH].
Qed.

Lemma nothing_staged_inventory_body self inventory_api sku_list mode :
  respects nothing_staged
    (match sku_list with
     | Some (sku :: skus) =>
         match _chunk_list (sku :: skus) (batch_size self) with
         | Ok chunks => for_each chunks (sku_chunk_body self inventory_api mode)
         | Raise e => raise e
         end
     | _ =>
         let chain := get_inventory_summary inventory_api in
         inventory_buffer ←
           pages self GetInventorySummary "inventory_response" (flush_inventory mode)
             (first_page chain) (next_pages chain) [];
         flush_rest (flush_inventory mode) inventory_buffer
     end).
Proof.
  assert (Hpaged : respects nothing_staged
    (let chain := get_inventory_summary inventory_api in
     inventory_buffer ←
       pages self GetInventorySummary "inventory_response" (flush_inventory mode)
         (first_page chain) (next_pages chain) [];
     flush_rest (flush_inventory mode) inventory_buffer)).
  { apply (respects_bind nothing_staged); [apply nothing_staged_pages|].
    intros [|o buffer]; simpl;
      [apply (respects_ret nothing_staged)|apply flush_inventory_stages_nothing]. }
  destruct sku_list as [[|sku skus]|]; try done.
  destruct (_chunk_list _ _) as [chunks|e]; [|apply (respects_raise nothing_staged)].
  apply (respects_for_each nothing_staged). intros sku_chunk. unfold sku_chunk_body.
  apply (respects_bind nothing_staged); [apply nothing_staged_fetch|intros].
  apply (respects_bind nothing_staged);
    [apply flush_inventory_stages_nothing|intros; apply nothing_staged_pause].
Qed.

(** X7. [process_inventory] stages nothing.  Every batch goes through
    [replace_data] on table Inventory, whose archive statement names the
    column AmazonOrderId that the Inventory tables do not have: the run
    returns its statistics with no batch counted and at most one error, and
    the staging and archive tables are as they were. *)
Theorem process_inventory_stages_nothing
    (self : config) (inventory_api : InventoryAPI) (sku_list : option (list string))
    (mode : string) (w : world) :
  ∃ st w', process_inventory self inventory_api sku_list mode w = (Ok st, w') ∧
    total_processed st = 0 ∧ total_batches st = 0 ∧ batch_ids st = [] ∧
    errors st ≤ 1 ∧
    stage (db w') = stage (db w) ∧ archive (db w') = archive (db w).
Proof.
  unfold process_inventory, returning, inventory_run.
  destruct (try_except _ _ (new_frame mode w)) as [r f'] eqn:Hrun.
  apply try_except_inv in Hrun as [([] & Hbody & ->)|(e & f1 & Hbody & Hhandler)];
    apply nothing_staged_inventory_body in Hbody as [Hstats [Hst Har]].
  - exists (total_stats f'), (env f'). rewrite Hstats. simpl in *.
    repeat split; try done. lia.
  - unfold in_world, log, count_error, modify, mbind, M_bind in Hhandler.
    simpl in Hhandler. injection Hhandler as <- <-.
    eexists _, _. split; [reflexivity|]. simpl. rewrite Hstats. simpl in *.
    repeat split; try done.
Qed.

(** ** APPEND on the Orders table *)

Lemma transaction_calm {A} (body : Z → database → result (A * database)) w :
  refusals w = [] →
  transaction body w =
    match body (clock w) (db w) with
    | Ok (a, d) => (Ok a, set_db d (set_refusals [] w))
    | Raise e => (Raise e, set_refusals [] w)
    end.
Proof.
  intros Hcalm. rewrite transaction_accepted by (unfold accepting; by rewrite Hcalm).
  by rewrite Hcalm.
Qed.

Lemma execute_inserts_rows getdate b key records : ∀ d,
  ∃ d' new,
    execute_inserts "Orders" getdate b key records d = Ok d' ∧
    stage_rows d' "Orders" = stage_rows d "Orders" ++ new ∧
    RawData <$> new = records ∧
    Forall (λ row, BatchId row = Some b ∧ ValidationStatus row = "PENDING" ∧
                   AmazonOrderId row = StagingHandler.get (RawData row) key) new ∧
    archive d' = archive d ∧ control d' = control d.
Proof.
  induction records as [|r records IH]; intros d.
  - exists d, []. by rewrite app_nil_r.
  - simpl. unfold execute_insert.
    change (has_columns STAGING_SCHEMAS "Orders" insert_columns) with true. simpl.
    match goal with
    | |- context [execute_inserts _ _ _ _ records ?d1] =>
        destruct (IH d1) as (d' & new & Hrun & Hrows & Hraw & Hnew & Harchive & Hcontrol)
    end.
    eexists d', (_ :: new). split; [exact Hrun|].
    split; [rewrite Hrows, stage_rows_set_stage, <- app_assoc; reflexivity|].
    split; [rewrite fmap_cons, Hraw; reflexivity|].
    split; [apply Forall_cons; split; [done|exact Hnew]|by split].
Qed.

Lemma execute_inserts_identity table_name getdate b key records : ∀ d d',
  execute_inserts table_name getdate b key records d = Ok d' →
  control_identity d' = control_identity d.
Proof.
  induction records as [|r later IH]; intros d d'; simpl.
  - by intros [= <-].
  - unfold execute_insert. destruct (has_columns _ _ _); [|done].
    by intros ->%IH.
Qed.

Lemma start_batch_calm table_name w :
  refusals w = [] →
  ∃ w1, start_batch table_name w = (Ok (uuids w, S (control_identity (db w))), w1) ∧
        refusals w1 = [] ∧ stage (db w1) = stage (db w) ∧
        archive (db w1) = archive (db w) ∧ clock w1 = clock w ∧
        uuids w1 = S (uuids w) ∧
        control (db w1) = control (db w) ++ [started_entry table_name w] ∧
        control_identity (db w1) = S (control_identity (db w)).
Proof.
  intros Hcalm. unfold start_batch, uuid4, record_processing_start.
  eexists. split.
  - erewrite bind_ok by reflexivity. erewrite bind_ok; [reflexivity|].
    by rewrite transaction_calm.
  - done.
Qed.

Lemma select_orders_calm w :
  refusals w = [] →
  ∃ w1, select_existing_keys "AmazonOrderId" "Orders" w
        = (Ok (remove_dups (existing_keys w)), w1) ∧
        refusals w1 = [] ∧ db w1 = db w ∧ clock w1 = clock w.
Proof.
  intros Hcalm. unfold select_existing_keys. rewrite transaction_calm by done.
  change (has_columns STAGING_SCHEMAS "Orders" ["AmazonOrderId"]) with true.
  eexists. split; [reflexivity|done].
Qed.

Lemma insert_orders_calm b records w :
  refusals w = [] →
  ∃ w1 new, insert_records "Orders" b (Some "AmazonOrderId") records w = (Ok tt, w1) ∧
        refusals w1 = [] ∧ clock w1 = clock w ∧
        stage_rows (db w1) "Orders" = stage_rows (db w) "Orders" ++ new ∧
        inserted_by b records new ∧
        control (db w1) = control (db w) ∧
        control_identity (db w1) = control_identity (db w).
Proof.
  intros Hcalm. unfold insert_records. rewrite transaction_calm by done.
  destruct (execute_inserts_rows (clock w) b (Some "AmazonOrderId") records (db w))
    as (d' & new & Hrun & Hrows & Hraw & Hnew & _ & Hcontrol).
  pose proof (execute_inserts_identity _ _ _ _ _ _ _ Hrun) as Hidentity.
  rewrite Hrun. eexists _, new. split; [reflexivity|]. simpl.
  repeat split; done.
Qed.

Lemma complete_calm control_id t n st w :
  refusals w = [] →
  ∃ w1, record_processing_complete control_id t n st w = (Ok tt, w1) ∧
        refusals w1 = [] ∧ stage (db w1) = stage (db w) ∧
        archive (db w1) = archive (db w) ∧
        control (db w1) = complete_entry (clock w) control_id t n st <$> control (db w) ∧
        control_identity (db w1) = control_identity (db w).
Proof.
  intros Hcalm. unfold record_processing_complete. rewrite transaction_calm by done.
  eexists. split; [reflexivity|done].
Qed.

Lemma or_now_value last_processed_date w :
  or_now last_processed_date w = (Ok (default (clock w) last_processed_date), w).
Proof. by destruct last_processed_date. Qed.

Lemma append_orders_calm data last_processed_date w :
  refusals w = [] →
  ∃ w' new, append_data data "Orders" last_processed_date w
        = (Ok {| batch_id := uuids w;
                 records_processed := length (new_orders data w);
                 duplicates_skipped := length data - length (new_orders data w) |}, w') ∧
        refusals w' = [] ∧
        stage_rows (db w') "Orders" = stage_rows (db w) "Orders" ++ new ∧
        inserted_by (uuids w) (new_orders data w) new ∧
        control (db w')
          = complete_entry (clock w) (S (control_identity (db w)))
              (default (clock w) last_processed_date) (length (new_orders data w)) SUCCESS
              <$> (control (db w) ++ [started_entry "Orders" w]) ∧
        control_identity (db w') = S (control_identity (db w)).
Proof.
  intros Hcalm.
  destruct (start_batch_calm "Orders" w Hcalm)
    as (w1 & Hstart & Hcalm1 & Hstage1 & _ & Hclock1 & _ & Hcontrol1 & Hidentity1).
  destruct (select_orders_calm w1 Hcalm1) as (w2 & Hselect & Hcalm2 & Hdb2 & Hclock2).
  assert (Hkeys1 : existing_keys w1 = existing_keys w).
  { unfold existing_keys, stage_rows. by rewrite Hstage1. }
  rewrite Hkeys1 in Hselect.
  destruct (insert_orders_calm (uuids w) (new_orders data w) w2 Hcalm2)
    as (w3 & new & Hinsert & Hcalm3 & Hclock3 & Hrows3 & Hnew3 & Hcontrol3 & Hidentity3).
  pose proof (or_now_value last_processed_date w3) as Ht.
  destruct (complete_calm (S (control_identity (db w)))
              (default (clock w3) last_processed_date)
              (length (new_orders data w)) SUCCESS w3 Hcalm3)
    as (w4 & Hdone & Hcalm4 & Hstage4 & _ & Hcontrol4 & Hidentity4).
  exists w4, new. split; [|split; [done|split; [|split; [done|split]]]].
  - unfold append_data. rewrite Hstart. unfold try_except, append_steps.
    change (dedup_key_of "Orders") with (Some "AmazonOrderId"). cbv beta iota.
    erewrite bind_ok; [|erewrite bind_ok by exact Hselect; reflexivity].
    fold (new_orders data w).
    erewrite bind_ok by exact Hinsert. erewrite bind_ok by exact Ht.
    erewrite bind_ok by exact Hdone. reflexivity.
  - unfold stage_rows in *. by rewrite Hstage4, Hrows3, Hdb2, Hstage1.
  - rewrite Hcontrol4, Hcontrol3, Hdb2, Hcontrol1, Hclock3, Hclock2, Hclock1. done.
  - by rewrite Hidentity4, Hidentity3, Hdb2, Hidentity1.
Qed.





(** ** Error paths of the write protocols *)

(** X9. When the server refuses the statement that writes the IN_PROGRESS
    entry, [control_id] is not bound when the except branch reads it:
    [append_data] and [replace_data] raise UnboundLocalError in place of the
    server's error, and the database is as it was. *)
Theorem start_refused_masks_error
    (m : write_mode) (data : list record) (table_name : string)
    (last_processed_date : option Z) (w : world) (e : exn) (later : list (option exn)) :
  refusals w = Some e :: later →
  ∃ w', write m data table_name last_processed_date w
        = (Raise (UnboundLocalError "control_id"), w') ∧
        db w' = db w ∧ refusals w' = later.
Proof.
  intros Hrefused.
  assert (Hstart : start_batch table_name w
                   = (Raise e, set_refusals later (run_of uuid4 w))).
  { unfold start_batch, record_processing_start.
    erewrite bind_ok by reflexivity. erewrite bind_raise; [reflexivity|].
    by apply transaction_refused. }
  destruct m; simpl; unfold append_data, replace_data;
    (eexists; split; [apply bind_raise; rewrite Hstart; reflexivity|done]).
Qed.

Lemma start_refused_masks_error_witness :
  ∃ w', write REPLACE [order "A" 1] "Orders" None
          {| db := empty_database; refusals := [Some (OperationalError "login timeout")];
             uuids := 0; clock := 0%Z; trace := [] |}
        = (Raise (UnboundLocalError "control_id"), w') ∧
        db w' = empty_database ∧ refusals w' = [].
Proof.
  exact (start_refused_masks_error REPLACE [order "A" 1] "Orders" None
           {| db := empty_database; refusals := [Some (OperationalError "login timeout")];
              uuids := 0; clock := 0%Z; trace := [] |}
           (OperationalError "login timeout") [] eq_refl).
Defined.

Lemma purchase_dates_none orders :
  (∀ order, order ∈ orders → assoc "PurchaseDate" order = None) →
  purchase_dates orders = Ok [].
Proof.
  induction orders as [|order orders IH]; intros Hnone; [done|]. simpl.
  rewrite (Hnone order) by set_solver. apply IH. intros o Ho. apply Hnone. set_solver.
Qed.

(** X10. A batch in which no order carries PurchaseDate (the empty batch
    included) is never written: [_process_order_batch] raises ValueError from
    max() of an empty sequence before it reaches the staging handler, in
    either mode; the database is as it was. *)
Theorem order_batch_without_dates (orders : list record) (mode : string) (w : world) :
  (∀ order, order ∈ orders → assoc "PurchaseDate" order = None) →
  ∃ w', _process_order_batch orders mode w
        = (Raise (ValueError "max() arg is an empty sequence"), w') ∧
        db w' = db w ∧ refusals w' = refusals w ∧
        trace w' = trace w ++ [LogError "_process_order_batch"].
Proof.
  intros Hnone. unfold _process_order_batch, try_except.
  erewrite bind_raise.
  2:{ unfold max_purchase_date. by rewrite purchase_dates_none. }
  eexists. split; [reflexivity|done].
Qed.

Lemma order_batch_without_dates_witness :
  ∃ w', _process_order_batch [[("AmazonOrderId", VStr "A")]] "APPEND" fresh_world
        = (Raise (ValueError "max() arg is an empty sequence"), w') ∧
        db w' = empty_database.
Proof.
  destruct (order_batch_without_dates [[("AmazonOrderId", VStr "A")]] "APPEND" fresh_world)
    as (w' & Hrun & Hdb & _).
  - by intros order ->%list_elem_of_singleton.
  - by exists w'.
Defined.

(** ** The checkpoint after a run *)

Lemma date_max_choice a b : (if date_le a b then b else a) = date_max a b.
Proof.
  destruct a as [x|], b as [y|]; simpl; try done.
  case_bool_decide; f_equal; lia.
Qed.

Lemma date_max_swap a b c : date_max (date_max a b) c = date_max (date_max a c) b.
Proof. destruct a, b, c; simpl; f_equal; lia. Qed.

Lemma best_cons c rows : best (c :: rows) = date_max (best rows) (LastProcessedDate c).
Proof.
  unfold best. simpl. destruct (top1 rows) as [c'|]; [|done].
  rewrite <- date_max_choice. by destruct (date_le _ _).
Qed.

Lemma best_snoc rows c : best (rows ++ [c]) = date_max (best rows) (LastProcessedDate c).
Proof.
  induction rows as [|c0 rows IH]; [done|].
  rewrite <- app_comm_cons, !best_cons, IH. apply date_max_swap.
Qed.

Lemma complete_other getdate control_id t n st rows :
  Forall (λ c, Id c < control_id) rows →
  complete_entry getdate control_id t n st <$> rows = rows.
Proof.
  induction 1 as [|c rows Hc _ IH]; [done|].
  rewrite fmap_cons, IH. f_equal. unfold complete_entry. case_decide; [lia|done].
Qed.

(** X11. A successful APPEND never moves the checkpoint back.  On a ledger
    whose identity column is ahead of its entries and with a server that
    accepts every statement, after [append_data] on Orders with date t,
    [get_last_processed_date] answers the later of its former answer and t. *)
Theorem checkpoint_after_append (data : list record) (t : Z) (w : world) :
  refusals w = [] →
  ledger_ok (db w) →
  ∃ r w', append_data data "Orders" (Some t) w = (Ok r, w') ∧
          last_processed_query "Orders" (db w')
            = date_max (last_processed_query "Orders" (db w)) (Some t) ∧
          ledger_ok (db w').
Proof.
  intros Hcalm Hledger.
  destruct (append_orders_calm data (Some t) w Hcalm)
    as (w' & new & Hrun & _ & _ & _ & Hcontrol & Hidentity).
  eexists _, w'. split; [exact Hrun|].
  assert (Hcontrol' : control (db w')
    = control (db w) ++
        [{| Id := S (control_identity (db w)); DataType := "Orders";
            LastProcessedDate := Some t; LastBatchId := uuids w;
            RecordsProcessed := Some (length (new_orders data w)); Status := SUCCESS;
            ProcessingStartTime := clock w; ProcessingEndTime := Some (clock w) |}]).
  { rewrite Hcontrol, fmap_app, complete_other.
    - simpl. unfold complete_entry. simpl. by rewrite decide_True.
    - eapply Forall_impl; [exact Hledger|]. simpl. lia. }
  split.
  - unfold last_processed_query. fold (best (List.filter (succeeded "Orders") (control (db w')))).
    fold (best (List.filter (succeeded "Orders") (control (db w)))).
    rewrite Hcontrol', List.filter_app. simpl.
    change (succeeded "Orders" _) with true. cbv iota.
    by rewrite best_snoc.
  - unfold ledger_ok. rewrite Hcontrol', Hidentity. apply Forall_app. split.
    + eapply Forall_impl; [exact Hledger|]. simpl. lia.
    + apply Forall_singleton. simpl. lia.
Qed.

Lemma checkpoint_after_append_witness :
  refusals ledger = [] ∧ ledger_ok (db ledger) ∧
  ∃ r w', append_data [order "A" 7] "Orders" (Some 7%Z) ledger = (Ok r, w') ∧
          last_processed_query "Orders" (db w') = Some 9%Z.
Proof.
  assert (Hledger : ledger_ok (db ledger)).
  { unfold ledger_ok. simpl. repeat (apply Forall_cons; split; [simpl; lia|]).
    apply Forall_nil_2. }
  split; [reflexivity|]. split; [exact Hledger|].
  destruct (checkpoint_after_append [order "A" 7] 7 ledger eq_refl Hledger)
    as (r & w' & Hrun & Hcheckpoint & _).
  exists r, w'. split; [exact Hrun|]. rewrite Hcheckpoint. reflexivity.
Defined.

(** ** Archive and REPLACE on the Orders table *)

Lemma archived_payloads getdate rows : ∀ last_id,
  ArchRawData <$> imap (archived getdate last_id) rows = RawData <$> rows ∧
  OriginalId <$> imap (archived getdate last_id) rows = StagingId <$> rows ∧
  ArchBatchId <$> imap (archived getdate last_id) rows = BatchId <$> rows.
Proof.
  induction rows as [|r rows IH]; intros last_id; [done|].
  rewrite imap_cons.
  rewrite (imap_ext _ (archived getdate (S last_id)) rows).
  2:{ intros i x _. unfold archived. simpl. f_equal. lia. }
  destruct (IH (S last_id)) as (Hraw & Horig & Hbatch).
  rewrite !fmap_cons, Hraw, Horig, Hbatch. done.
Qed.

(** X12. [archive_data] on Orders, when the server accepts it, moves the
    selected rows (all of them without a batch id, otherwise those of the
    batch) and nothing else: staging keeps the other rows in order, the
    archive gains one row per moved row with its payload, its batch id and
    its staging id as OriginalId, and no row is lost or duplicated. *)
Theorem archive_data_moves_rows (batch_id : option uuid) (w : world) :
  accepting w = true →
  let rows := stage_rows (db w) "Orders" in
  let moved := List.filter (selected batch_id) rows in
  ∃ w', archive_data "Orders" batch_id w = (Ok tt, w') ∧
    stage_rows (db w') "Orders" = List.filter (λ r, negb (selected batch_id r)) rows ∧
    ArchRawData <$> archive_rows (db w') "Orders"
      = (ArchRawData <$> archive_rows (db w) "Orders") ++ (RawData <$> moved) ∧
    OriginalId <$> archive_rows (db w') "Orders"
      = (OriginalId <$> archive_rows (db w) "Orders") ++ (StagingId <$> moved) ∧
    ArchBatchId <$> archive_rows (db w') "Orders"
      = (ArchBatchId <$> archive_rows (db w) "Orders") ++ (BatchId <$> moved) ∧
    length (stage_rows (db w') "Orders") + length (archive_rows (db w') "Orders")
      = length rows + length (archive_rows (db w) "Orders") ∧
    control (db w') = control (db w).
Proof.
  intros Hacc rows moved. unfold archive_data.
  rewrite transaction_accepted by done.
  change (has_columns ARCHIVE_SCHEMAS "Orders" archive_insert_columns
          && has_columns STAGING_SCHEMAS "Orders" archive_select_columns) with true.
  cbv iota. eexists. split; [reflexivity|]. simpl.
  rewrite at_table_same.
  unfold archive_rows at 1 3 5 7. simpl. rewrite !at_table_same.
  fold rows. fold moved.
  destruct (archived_payloads (clock w) moved (archive_identity (db w) "Orders"))
    as (Hraw & Horig & Hbatch).
  rewrite !fmap_app, Hraw, Horig, Hbatch, length_app, length_imap.
  repeat split; try done.
  pose proof (List.filter_length (selected batch_id) rows) as Hlen.
  fold moved in Hlen. unfold archive_rows. lia.
Qed.

Lemma archive_data_moves_rows_witness :
  accepting replaced_twice = true ∧
  ∃ w', archive_data "Orders" (Some 0) replaced_twice = (Ok tt, w') ∧
        length (stage_rows (db w') "Orders") + length (archive_rows (db w') "Orders")
        = length (stage_rows (db replaced_twice) "Orders")
          + length (archive_rows (db replaced_twice) "Orders").
Proof.
  split; [reflexivity|].
  destruct (archive_data_moves_rows (Some 0) replaced_twice eq_refl)
    as (w' & Hrun & _ & _ & _ & _ & Hcount & _).
  by exists w'.
Defined.

Lemma archive_data_moves_rows_aux (batch_id : option uuid) (w : world) :
  accepting w = true →
  batch_id = None →
  ∃ w', archive_data "Orders" batch_id w = (Ok tt, w') ∧
    refusals w' = tail (refusals w) ∧
    stage (db w') "Orders" = [] ∧
    ArchRawData <$> archive (db w') "Orders"
      = (ArchRawData <$> archive (db w) "Orders") ++ (RawData <$> stage (db w) "Orders") ∧
    OriginalId <$> archive (db w') "Orders"
      = (OriginalId <$> archive (db w) "Orders") ++ (StagingId <$> stage (db w) "Orders").
Proof.
  intros Hacc ->. unfold archive_data.
  rewrite transaction_accepted by done.
  change (has_columns ARCHIVE_SCHEMAS "Orders" archive_insert_columns
          && has_columns STAGING_SCHEMAS "Orders" archive_select_columns) with true.
  cbv iota. eexists. split; [reflexivity|]. simpl.
  rewrite !at_table_same.
  change (selected None) with (λ _ : staging_row, true).
  rewrite filter_none, filter_all.
  destruct (archived_payloads (clock w) (stage_rows (db w) "Orders")
              (archive_identity (db w) "Orders")) as (Hraw & Horig & _).
  unfold archive_rows, stage_rows in *.
  by rewrite !fmap_app, Hraw, Horig.
Qed.

(** X13. REPLACE on the Orders table, with a server that accepts every
    statement: the run returns the batch size as records_processed; staging
    then holds exactly the incoming records, in order, each tagged with the
    batch id of the run, PENDING, and keyed by its AmazonOrderId; the rows
    staged before are in the archive, after those it held, with their
    payloads and staging ids. *)
Theorem replace_orders_contents
    (data : list record) (last_processed_date : option Z) (w : world) :
  refusals w = [] →
  ∃ r w', replace_data data "Orders" last_processed_date w = (Ok r, w') ∧
    replace_batch_id r = uuids w ∧ replace_records_processed r = length data ∧
    RawData <$> stage_rows (db w') "Orders" = data ∧
    Forall (λ row, BatchId row = Some (uuids w) ∧ ValidationStatus row = "PENDING" ∧
                   AmazonOrderId row = assoc "AmazonOrderId" (RawData row))
           (stage_rows (db w') "Orders") ∧
    ArchRawData <$> archive_rows (db w') "Orders"
      = (ArchRawData <$> archive_rows (db w) "Orders")
          ++ (RawData <$> stage_rows (db w) "Orders") ∧
    OriginalId <$> archive_rows (db w') "Orders"
      = (OriginalId <$> archive_rows (db w) "Orders")
          ++ (StagingId <$> stage_rows (db w) "Orders").
Proof.
  intros Hcalm.
  destruct (start_batch_calm "Orders" w Hcalm)
    as (w1 & Hstart & Hcalm1 & Hstage1 & Harchive1 & _).
  assert (Hacc1 : accepting w1 = true) by (unfold accepting; by rewrite Hcalm1).
  destruct (archive_data_moves_rows_aux None w1 Hacc1)
    as (w2 & Harch & Hcalm2 & Hstage2 & Hraw2 & Horig2).
  { done. }
  destruct (execute_inserts_rows (clock w2) (uuids w) (Some "AmazonOrderId") data (db w2))
    as (d3 & new & Hins & Hrows3 & Hraw3 & Hnew3 & Harchive3 & _).
  pose proof (or_now_value last_processed_date (set_db d3 (set_refusals [] w2))) as Ht.
  destruct (complete_calm (S (control_identity (db w)))
              (default (clock (set_db d3 (set_refusals [] w2))) last_processed_date)
              (length data) SUCCESS (set_db d3 (set_refusals [] w2)) eq_refl)
    as (w4 & Hdone & _ & Hstage4 & Harchive4 & _).
  assert (Hinsert : insert_records "Orders" (uuids w) (Some "AmazonOrderId") data w2
                    = (Ok tt, set_db d3 (set_refusals [] w2))).
  { unfold insert_records. rewrite transaction_calm by (by rewrite Hcalm2, Hcalm1).
    by rewrite Hins. }
  eexists _, w4. split.
  - unfold replace_data. rewrite Hstart. unfold try_except, replace_steps.
    erewrite bind_ok by exact Harch. erewrite bind_ok by exact Hinsert.
    erewrite bind_ok by exact Ht. erewrite bind_ok by exact Hdone. reflexivity.
  - simpl. unfold stage_rows, archive_rows in *. simpl in *.
    rewrite Hstage4, Harchive4, Hrows3, Harchive3, Hstage2, Hraw2, Horig2,
      Hstage1, Harchive1. simpl.
    repeat split; done.
Qed.

Lemma replace_orders_contents_witness :
  refusals replaced_twice = [] ∧
  ∃ r w', replace_data [order "C" 3; order "D" 4] "Orders" None replaced_twice
          = (Ok r, w') ∧
          RawData <$> stage_rows (db w') "Orders" = [order "C" 3; order "D" 4].
Proof.
  split; [reflexivity|].
  destruct (replace_orders_contents [order "C" 3; order "D" 4] None replaced_twice eq_refl)
    as (r & w' & Hrun & _ & _ & Hstaged & _).
  by exists r, w'.
Defined.

(** ** Successive calls of the rate limiter *)

Section spacing.
Import RateLimiter.
Local Open Scope Q_scope.

Lemma acquire_inv endpoint jitter overshoot s :
  ∃ s', acquire endpoint jitter overshoot s = (Ok tt, s') ∧
    last_call_time (self s') !! endpoint = Some (time s') ∧
    minimum_interval (self s') = minimum_interval (self s) ∧
    match last_call_time (self s) !! endpoint with
    | Some last =>
        if Qlt_le_dec (time s - last) (minimum_interval (self s))
        then time s' = time s + (minimum_interval (self s) - (time s - last) + jitter)
                       + overshoot
        else time s' = time s
    | None => time s' = time s
    end.
Proof.
  unfold acquire.
  destruct (last_call_time (self s) !! endpoint) as [last|] eqn:Hlast.
  - destruct (Qlt_le_dec (time s - last) (minimum_interval (self s))) as [Hlt|Hle] eqn:Hdec.
    + eexists. split.
      { unfold mbind, M_bind, gets; simpl. rewrite Hlast, Hdec. reflexivity. }
      simpl. split; [apply lookup_insert_eq|]. done.
    + eexists. split.
      { unfold mbind, M_bind, gets; simpl. rewrite Hlast, Hdec. reflexivity. }
      simpl. split; [apply lookup_insert_eq|]. done.
  - eexists. split.
    { unfold mbind, M_bind, gets; simpl. rewrite Hlast. reflexivity. }
    simpl. split; [apply lookup_insert_eq|]. done.
Qed.

(** X14. Two calls of [acquire] for the same key, [d] seconds apart: the
    second returns at least the minimum interval after the first returned,
    and it does not sleep when the interval has already passed. *)
Theorem acquires_are_spaced (endpoint : string) (j1 o1 j2 o2 d : Q) (s : state) :
  0 <= j2 → 0 <= o2 → 0 <= d →
  ∃ s1 s2,
    acquire endpoint j1 o1 s = (Ok tt, s1) ∧
    (elapse d;; acquire endpoint j2 o2) s1 = (Ok tt, s2) ∧
    time s1 + minimum_interval (self s) <= time s2 ∧
    (minimum_interval (self s) <= d → time s2 = time s1 + d).
Proof.
  intros Hj Ho Hd.
  destruct (acquire_inv endpoint j1 o1 s) as (s1 & Hfirst & Hrecorded & Hmin & _).
  destruct (acquire_inv endpoint j2 o2 (run_of (elapse d) s1))
    as (s2 & Hsecond & _ & _ & Hwait).
  exists s1, s2. split; [done|]. split; [by erewrite bind_ok by reflexivity|].
  simpl in Hwait. rewrite Hrecorded, Hmin in Hwait.
  destruct (Qlt_le_dec (time s1 + d - time s1) (minimum_interval (self s)))
    as [Hlt|Hle]; rewrite Hwait; split; intros; try lra; done.
Qed.

Lemma acquires_are_spaced_witness :
  (0 <= 1 # 20 ∧ 0 <= 0 ∧ 0 <= 1 # 10) ∧
  ∃ s1 s2,
    acquire "/orders" 0 0 busy_limiter = (Ok tt, s1) ∧
    (elapse (1 # 10);; acquire "/orders" (1 # 20) 0) s1 = (Ok tt, s2) ∧
    time s1 + (1 # 2) <= time s2.
Proof.
  assert (H0 : 0 <= 1 # 20) by (by vm_compute).
  assert (H1 : 0 <= 0) by (by vm_compute).
  assert (H2 : 0 <= 1 # 10) by (by vm_compute).
  split; [done|].
  destruct (acquires_are_spaced "/orders" 0 0 (1 # 20) 0 (1 # 10) busy_limiter H0 H1 H2)
    as (s1 & s2 & Hfirst & Hsecond & Hspaced & _).
  by exists s1, s2.
Defined.
End spacing.

(** ** SPAPIProcessor.process_orders *)

Lemma tiles_app a b c chunks later :
  tiles a chunks b → tiles b later c → tiles a (chunks ++ later) c.
Proof.
  revert a. induction chunks as [|chunk chunks IH]; intros a; simpl.
  - by intros ->.
  - intros (? & ? & ?) ?. split; [done|]. split; [done|]. by apply IH.
Qed.

Lemma tiles_le chunks : ∀ a b, tiles a chunks b → (a ≤ b)%Z.
Proof.
  induction chunks as [|chunk chunks IH]; intros a b; simpl; [lia|].
  intros (? & ? & ?%IH). lia.
Qed.

Lemma weeks_of_cons month months :
  weeks_of (month :: months) = _chunk_date_range month.1 month.2 7 ++ weeks_of months.
Proof. reflexivity. Qed.

Lemma weeks_of_tiles months : ∀ a b,
  (datetime_min ≤ a)%Z → (b + timedelta_days 7 ≤ datetime_max)%Z →
  tiles a months b → tiles a (weeks_of months) b.
Proof.
  induction months as [|month months IH]; intros a b Hmin Hmax; [done|].
  intros (Hstart & Hlt & Hrest). rewrite weeks_of_cons.
  pose proof (tiles_le _ _ _ Hrest) as Hle.
  apply (tiles_app a month.2 b).
  - rewrite <- Hstart.
    apply (chunk_date_range_ok month.1 month.2 7); [lia|lia|lia|lia].
  - apply IH; [lia|done|done].
Qed.

(** One run of the batch processor on a range whose end leaves room for one
    more chunk: it returns, what it logs is added to the trace, every date
    chunk is asked for, and its statistics are consistent. *)
Lemma process_orders_run self orders_api start_date end_date mode w :
  1 ≤ max_retries self →
  (datetime_min ≤ start_date)%Z → (end_date + timedelta_days 7 ≤ datetime_max)%Z →
  ∃ st w' t, process_orders self orders_api start_date end_date mode w = (Ok st, w') ∧
    trace w' = trace w ++ t ∧
    (∀ chunk, chunk ∈ _chunk_date_range start_date end_date 7 →
              GetOrders chunk.1 chunk.2 ∈ fetches t) ∧
    BatchProcessor.mode st = mode ∧
    total_batches st = length (batch_ids st) ∧
    errors st ≤ length (_chunk_date_range start_date end_date 7).
Proof.
  intros Hmax Hmin Hmaxd.
  set (chunks := _chunk_date_range start_date end_date 7).
  destruct (orders_run_returns self orders_api mode chunks (new_frame mode w)) as [f' Hrun].
  rewrite (process_orders_outcome _ _ _ _ _ _ _ Hrun).
  destruct (chunk_date_range_ok start_date end_date 7 ltac:(lia) Hmin Hmaxd) as [-> _].
  assert (frame_grows (new_frame mode w) f') as [t Ht].
  { eapply (respects_for_each frame_grows); [|exact Hrun].
    intros; apply frame_grows_orders_chunk. }
  exists (total_stats f'), (env f'), t. split; [done|]. split; [done|].
  split.
  - intros chunk Hin.
    destruct (orders_run_fetches self orders_api mode chunk Hmax chunks _ f' Hrun Hin)
      as (t' & Ht' & Hin').
    rewrite Ht in Ht'. apply app_inv_head in Ht' as ->.
    unfold fetches. apply list_elem_of_omap.
    by exists (Fetch (GetOrders chunk.1 chunk.2)).
  - apply orders_run_settled in Hrun as (Hm & Hids & Hle & He & He' & Hf & Hf').
    simpl in *. repeat split; lia || congruence.
Qed.

Lemma thirty_day_chunks_run orders_api start_date end_date :
  (end_date + timedelta_days 30 ≤ datetime_max)%Z →
  ∀ fuel current_start total_stats w,
    (datetime_min ≤ current_start)%Z →
    total_batches total_stats = length (batch_ids total_stats) →
    let months := (chunk_date_range_from fuel current_start end_date 30).1 in
    ∃ st w' t,
      SPAPIProcessor.thirty_day_chunks fuel orders_api start_date current_start end_date
        total_stats w = (Ok st, w') ∧
      trace w' = trace w ++ t ∧
      (∀ week, week ∈ weeks_of months → GetOrders week.1 week.2 ∈ fetches t) ∧
      mode st = mode total_stats ∧
      total_batches st = length (batch_ids st) ∧
      errors st ≤ errors total_stats + length (weeks_of months).
Proof.
  intros Hmaxd.
  assert (Hweek : (timedelta_days 7 ≤ timedelta_days 30)%Z) by discriminate.
  assert (Hmonth : (0 < timedelta_days 30)%Z) by reflexivity.
  induction fuel as [|fuel IH]; intros current_start total_stats w Hmin Htotal;
    cbn [chunk_date_range_from SPAPIProcessor.thirty_day_chunks].
  { exists total_stats, w, []. rewrite app_nil_r.
    repeat split; try done; [by intros ? ?%elem_of_nil|simpl; lia]. }
  case_decide as Hlt.
  2:{ exists total_stats, w, []. rewrite app_nil_r.
      repeat split; try done; [by intros ? ?%elem_of_nil|simpl; lia]. }
  change (timedelta 30) with (Ok (timedelta_days 30)). cbv iota.
  assert (Hnext : datetime_add current_start (timedelta_days 30)
                  = Ok (current_start + timedelta_days 30)%Z).
  { unfold datetime_add. by rewrite decide_True by lia. }
  rewrite Hnext. cbn [fst snd]. rewrite weeks_of_cons. cbn [fst snd].
  set (current_end := Z.min (current_start + timedelta_days 30) end_date).
  assert (Hpause : ∃ w1 t0,
    (if decide (start_date < current_start)%Z then sleep (2 * second)%Z else mret tt) w
    = (Ok tt, w1) ∧ trace w1 = trace w ++ t0 ∧ fetches t0 = []).
  { case_decide.
    - eexists _, [Slept (2 * second)%Z]. by repeat split.
    - exists w, []. rewrite app_nil_r. by repeat split. }
  destruct Hpause as (w1 & t0 & Hpause & Ht0 & Hquiet).
  destruct (process_orders_run SPAPIProcessor.batch_processor orders_api
              current_start current_end "APPEND" w1 ltac:(simpl; lia) Hmin ltac:(lia))
    as (st1 & w2 & t1 & Hrun & Ht1 & Hfetched & Hmode1 & Hids1 & Herrors1).
  destruct (IH current_end (SPAPIProcessor.aggregate total_stats st1) w2)
    as (st & w' & t2 & Hrest & Ht2 & Hlater & Hmode & Hids & Herrors).
  { lia. }
  { simpl. rewrite length_app. lia. }
  exists st, w', (t0 ++ t1 ++ t2). split.
  { erewrite bind_ok by reflexivity.
    erewrite bind_ok by exact Hpause. by erewrite bind_ok by exact Hrun. }
  split; [by rewrite Ht2, Ht1, Ht0, <- !(assoc_L (++))|].
  simpl in Hmode, Herrors. split; [|split; [done|split; [done|]]].
  - intros week [Hin|Hin]%elem_of_app; unfold fetches; rewrite !omap_app;
      apply elem_of_app; right; apply elem_of_app; [left|right].
    + by apply Hfetched.
    + by apply Hlater.
  - rewrite length_app. lia.
Qed.

(** X15. [SPAPIProcessor.process_orders] on a range that starts at a datetime
    and ends at least 30 days before [datetime.max], against an upstream
    that answers every query with finitely many pages: it returns its
    totals, whatever fails inside a chunk.  During the run every 7-day chunk
    of every 30-day chunk of the range is asked for, and for a non-empty
    range these requests cover it from start_date to end_date without gap
    or overlap; the totals are in mode APPEND, total_batches is the number of
    batch ids collected, and errors is at most the number of these 7-day
    chunks.  (Closer to [datetime.max] the additions overflow, and the
    OverflowError is logged and raised again.) *)
Theorem processor_orders_covers_range
    (orders_api : OrdersAPI) (start_date end_date : Z) (w : world) :
  (datetime_min ≤ start_date)%Z → (end_date + timedelta_days 30 ≤ datetime_max)%Z →
  let weeks := weeks_of (_chunk_date_range start_date end_date 30) in
  ∃ st w' t,
    SPAPIProcessor.process_orders orders_api start_date end_date w = (Ok st, w') ∧
    trace w' = trace w ++ t ∧
    (∀ week, week ∈ weeks → GetOrders week.1 week.2 ∈ fetches t) ∧
    ((start_date < end_date)%Z → tiles start_date weeks end_date) ∧
    mode st = "APPEND" ∧
    total_batches st = length (batch_ids st) ∧
    errors st ≤ length weeks.
Proof.
  intros Hmin Hmaxd weeks. unfold SPAPIProcessor.process_orders, try_except.
  destruct (thirty_day_chunks_run orders_api start_date end_date Hmaxd
              (Z.to_nat ((end_date - start_date) / timedelta_days 30) + 1)
              start_date (new_stats "APPEND") w Hmin eq_refl)
    as (st & w' & t & -> & Htrace & Hfetched & Hmode & Hids & Herrors).
  exists st, w', t. split; [done|]. split; [done|]. split; [exact Hfetched|].
  split; [|by repeat split].
  intros Hlt.
  assert (Hweek : (timedelta_days 7 ≤ timedelta_days 30)%Z) by discriminate.
  apply weeks_of_tiles; [done|lia|].
  by apply (chunk_date_range_ok start_date end_date 30).
Qed.

Lemma processor_orders_covers_range_witness :
  ((datetime_min ≤ 0)%Z ∧ (timedelta_days 40 + timedelta_days 30 ≤ datetime_max)%Z) ∧
  (∃ st w',
     SPAPIProcessor.process_orders weekly_api 0%Z (timedelta_days 40) fresh_world
       = (Ok st, w') ∧
     GetOrders (timedelta_days 37) (timedelta_days 40) ∈ fetches (trace w') ∧
     tiles 0%Z (weeks_of (_chunk_date_range 0 (timedelta_days 40) 30))
       (timedelta_days 40)) ∧
  (SPAPIProcessor.process_orders weekly_api (datetime_max - timedelta_days 3)
     datetime_max fresh_world).1 = Raise OverflowError.
Proof.
  assert (Hmin : (datetime_min ≤ 0)%Z) by discriminate.
  assert (Hmaxd : (timedelta_days 40 + timedelta_days 30 ≤ datetime_max)%Z)
    by discriminate.
  split; [done|]. split; [|vm_compute; reflexivity].
  destruct (processor_orders_covers_range weekly_api 0%Z (timedelta_days 40) fresh_world
              Hmin Hmaxd)
    as (st & w' & t & Hrun & Htrace & Hfetched & Htiles & _).
  exists st, w'. split; [exact Hrun|]. split.
  - rewrite Htrace. simpl.
    apply (Hfetched (timedelta_days 37, timedelta_days 40)).
    vm_compute. do 6 right. left.
  - by apply Htiles.
Defined.

(** ** SQLServerHandler._flatten_dict *)

Lemma flatten_dict_unfold d parent_key :
  SQLServerHandler._flatten_dict d parent_key = dict (flat_items parent_key d).
Proof.
  unfold SQLServerHandler._flatten_dict. simpl. f_equal.
  induction d as [|[k v] later IH]; [done|]. simpl. rewrite IH. by destruct v.
Qed.

Lemma dict_set_keys {V} k (v : V) d :
  (dict_set k v d).*1 = if decide (k ∈ d.*1) then d.*1 else d.*1 ++ [k].
Proof.
  induction d as [|[k' v'] later IH].
  - simpl. destruct (decide (k ∈ [])) as [?%elem_of_nil|]; done.
  - cbn [dict_set fmap list_fmap fst].
    destruct (decide (k' = k)) as [->|Hk].
    + by rewrite decide_True by (by left).
    + cbn [fmap list_fmap fst]. rewrite IH. destruct (decide (k ∈ later.*1)).
      * by rewrite decide_True by (by right).
      * rewrite decide_False; [done|]. by intros [->|?]%elem_of_cons.
Qed.

Lemma dict_set_fresh {V} k (v : V) d :
  k ∉ d.*1 → dict_set k v d = d ++ [(k, v)].
Proof.
  induction d as [|[k' v'] later IH]; simpl; [done|].
  intros Hfresh. case_decide as Hk.
  - subst k'. destruct Hfresh. by left.
  - rewrite IH; [done|]. intros ?. apply Hfresh. by right.
Qed.

Lemma dict_set_NoDup {V} k (v : V) d :
  NoDup d.*1 → NoDup (dict_set k v d).*1.
Proof.
  intros Hd. rewrite dict_set_keys. case_decide; [done|].
  apply NoDup_app. split; [done|]. split; [|apply NoDup_singleton].
  by intros x Hx ->%list_elem_of_singleton.
Qed.

Lemma dict_set_values {V} (P : V → Prop) k (v : V) d :
  P v → Forall (λ item, P item.2) d → Forall (λ item, P item.2) (dict_set k v d).
Proof.
  intros Hv. induction 1 as [|[k' v'] later Hhead Hlater IH]; simpl.
  - by apply Forall_singleton.
  - case_decide; by constructor.
Qed.

Lemma dict_from_NoDup {V} (items : list (string * V)) : ∀ d,
  NoDup d.*1 → NoDup (fold_left (λ d item, dict_set item.1 item.2 d) items d).*1.
Proof.
  induction items as [|[k v] items IH]; intros d Hd; simpl; [done|].
  by apply IH, dict_set_NoDup.
Qed.

Lemma dict_from_values {V} (P : V → Prop) (items : list (string * V)) : ∀ d,
  Forall (λ item, P item.2) items → Forall (λ item, P item.2) d →
  Forall (λ item, P item.2) (fold_left (λ d item, dict_set item.1 item.2 d) items d).
Proof.
  induction items as [|[k v] items IH]; intros d Hitems Hd; simpl; [done|].
  apply Forall_cons in Hitems as [Hv Hitems].
  by apply IH, dict_set_values.
Qed.

Lemma dict_from_fresh {V} (items : list (string * V)) : ∀ d,
  NoDup (d ++ items).*1 →
  fold_left (λ d item, dict_set item.1 item.2 d) items d = d ++ items.
Proof.
  induction items as [|[k v] items IH]; intros d Hd; simpl; [by rewrite app_nil_r|].
  rewrite fmap_app in Hd. simpl in Hd.
  apply NoDup_app in Hd as (Hd & Hfresh & [Hk Hitems]%NoDup_cons).
  rewrite dict_set_fresh.
  - rewrite IH; [by rewrite <- (assoc_L (++))|].
    rewrite !fmap_app. simpl. rewrite <- (assoc_L (++)). simpl.
    apply NoDup_app. split; [done|]. split; [done|]. by apply NoDup_cons.
  - intros Hin. apply (Hfresh k Hin). by left.
Qed.

Lemma dict_NoDup {V} (items : list (string * V)) : NoDup (dict items).*1.
Proof. apply dict_from_NoDup. constructor. Qed.

Lemma dict_of_dict {V} (items : list (string * V)) :
  NoDup items.*1 → dict items = items.
Proof. intros Hitems. unfold dict. by rewrite dict_from_fresh. Qed.

Lemma flatten_flat (v : pyvalue) : ∀ parent_key,
  flat (SQLServerHandler.flatten v parent_key).
Proof.
  induction v as [a|items|d IH] using pyvalue_nested_ind; intros parent_key;
    [constructor|constructor|].
  change (SQLServerHandler.flatten (PyDict d) parent_key)
    with (SQLServerHandler._flatten_dict d parent_key).
  rewrite flatten_dict_unfold. apply (dict_from_values (λ v, is_dict v = false)); [|constructor].
  induction IH as [|[k v] later Hhead Hlater IHlater]; simpl; [constructor|].
  destruct v as [a|items|d'].
  - by constructor.
  - by constructor.
  - apply Forall_app. split; [apply Hhead|apply IHlater].
Qed.

Lemma flat_items_of_flat d : flat d → flat_items "" d = d.
Proof.
  induction 1 as [|[k v] later Hv Hlater IH]; simpl; [done|].
  rewrite IH. by destruct v.
Qed.

(** X16. [_flatten_dict] returns a dict none of whose values is a dict, and
    flattening its result again (from the top) changes nothing; a dict that
    holds no dict is returned as it is. *)
Theorem flatten_dict_idempotent (d : list (string * pyvalue)) (parent_key : string) :
  let flattened := SQLServerHandler._flatten_dict d parent_key in
  flat flattened ∧
  NoDup flattened.*1 ∧
  SQLServerHandler._flatten_dict flattened "" = flattened ∧
  (flat d → NoDup d.*1 → SQLServerHandler._flatten_dict d "" = d).
Proof.
  assert (Hsame : ∀ d', flat d' → NoDup d'.*1 → SQLServerHandler._flatten_dict d' "" = d').
  { intros d' Hflat Hkeys. rewrite flatten_dict_unfold, flat_items_of_flat by done.
    by apply dict_of_dict. }
  assert (Hflat : flat (SQLServerHandler._flatten_dict d parent_key))
    by apply flatten_flat.
  assert (Hkeys : NoDup (SQLServerHandler._flatten_dict d parent_key).*1).
  { rewrite flatten_dict_unfold. apply dict_NoDup. }
  simpl. split; [done|]. split; [done|]. split; [by apply Hsame|apply Hsame].
Qed.

Lemma flatten_dict_idempotent_witness :
  SQLServerHandler._flatten_dict nested_sample ""
  = [("OrderTotal.Amount", PyAtom (VStr "overwritten"));
     ("OrderTotal.CurrencyCode", PyAtom (VStr "USD"));
     ("AmazonOrderId", PyAtom (VStr "A"));
     ("ShippingAddress.City", PyAtom (VStr "Utrecht"));
     ("ShippingAddress.Geo.Lat", PyAtom (VStr "52.1"))] ∧
  SQLServerHandler._flatten_dict (SQLServerHandler._flatten_dict nested_sample "") ""
  = SQLServerHandler._flatten_dict nested_sample "".
Proof.
  split; [vm_compute; reflexivity|].
  apply (flatten_dict_idempotent nested_sample "").
Defined.

(** ** The API client *)

Section client.
Import BaseClient.
Local Open Scope Q_scope.

Lemma cbind_inv {A B} (m : C A) (f : A → C B) c r c' :
  (m ≫= f) c = (r, c') →
  (∃ a c1, m c = (Returned a, c1) ∧ f a c1 = (r, c')) ∨
  (∃ e, m c = (Raised e, c') ∧ r = Raised e).
Proof.
  unfold mbind, C_bind. destruct (m c) as [[a|e] c1]; intros H.
  - left. by exists a, c1.
  - right. exists e. by simplify_eq.
Qed.

Lemma cbind_ok {A B} (m : C A) (f : A → C B) c a c' :
  m c = (Returned a, c') → (m ≫= f) c = f a c'.
Proof. intros H. unfold mbind, C_bind. by rewrite H. Qed.

Lemma cbind_raise {A B} (m : C A) (f : A → C B) c e c' :
  m c = (Raised e, c') → (m ≫= f) c = (Raised e, c').
Proof. intros H. unfold mbind, C_bind. by rewrite H. Qed.

Lemma fetch_token_posts net c r c' :
  fetch_token net c = (r, c') → posts c' = S (posts c).
Proof.
  unfold fetch_token, _get_lwa_token, mbind, C_bind.
  destruct (lwa net (posts c)) as [latency [|status|access_token expires_in]];
    simpl; by intros [= <- <-].
Qed.

Lemma fetch_token_returned net c tok c' :
  fetch_token net c = (Returned tok, c') →
  _access_token c' = Some tok ∧ ∃ expiry, _token_expiry c' = Some expiry.
Proof.
  unfold fetch_token, _get_lwa_token, mbind, C_bind.
  destruct (lwa net (posts c)) as [latency [|status|access_token expires_in]];
    simpl; intros [= <- <-]; simpl; eauto.
Qed.

(** X17. A token that [get_auth_token] has returned is kept with an expiry
    time; a later call answers with the same token, without asking the token
    endpoint and without changing anything, as long as the clock is before
    the expiry, and asks the endpoint again from the expiry on. *)
Theorem token_reused_until_expiry (net : network) (c c1 : client) (tok : string) (d : Q) :
  get_auth_token net c = (Returned tok, c1) → tok ≠ "" →
  ∃ expiry,
    _access_token c1 = Some tok ∧ _token_expiry c1 = Some expiry ∧
    (time c1 + d < expiry →
     get_auth_token net (later d c1) = (Returned tok, later d c1)) ∧
    (expiry <= time c1 + d →
     posts (get_auth_token net (later d c1)).2 = S (posts c1)).
Proof.
  intros Hrun Htok.
  assert (Hkept : _access_token c1 = Some tok ∧ ∃ expiry, _token_expiry c1 = Some expiry).
  { unfold get_auth_token in Hrun.
    destruct (_access_token c) as [access_token|] eqn:Ha;
      [destruct (_token_expiry c) as [expiry|] eqn:He|];
      try by eapply fetch_token_returned.
    case_decide; [by eapply fetch_token_returned|].
    destruct (Qle_bool expiry (time c)); [by eapply fetch_token_returned|].
    injection Hrun as <- <-. eauto. }
  destruct Hkept as (Ha & expiry & He). exists expiry.
  split; [done|]. split; [done|].
  unfold get_auth_token. simpl. rewrite Ha, He.
  rewrite decide_False by done.
  destruct (Qle_bool expiry (time c1 + d)) eqn:Hle.
  - apply Qle_bool_iff in Hle. split; [intros; lra|].
    intros _. destruct (fetch_token net (later d c1)) as [r c2] eqn:Hfetch.
    by apply fetch_token_posts in Hfetch.
  - split; [done|]. intros Hle'%Qle_bool_iff. congruence.
Qed.

Lemma token_reused_until_expiry_witness :
  ∃ c1 expiry,
    get_auth_token throttling new_client = (Returned "Atza|token", c1) ∧
    _token_expiry c1 = Some expiry ∧
    get_auth_token throttling (later 3000 c1) = (Returned "Atza|token", later 3000 c1) ∧
    posts (get_auth_token throttling (later 3600 c1)).2 = 2%nat.
Proof.
  destruct (get_auth_token throttling new_client) as [r c1] eqn:Hrun.
  assert (Hr : r = Returned "Atza|token") by (by injection Hrun as <- _).
  assert (Hposts : posts c1 = 1%nat) by (by injection Hrun as _ <-).
  assert (Hexpiry : _token_expiry c1 = Some (0 + (1 # 2) + inject_Z 3600))
    by (by injection Hrun as _ <-).
  assert (Htime : time c1 = 0 + (1 # 2)) by (by injection Hrun as _ <-).
  subst r.
  destruct (token_reused_until_expiry throttling new_client c1 "Atza|token" 3000 Hrun
              ltac:(done)) as (expiry & _ & He & Hbefore & _).
  destruct (token_reused_until_expiry throttling new_client c1 "Atza|token" 3600 Hrun
              ltac:(done)) as (expiry' & _ & He' & _ & Hafter).
  exists c1, expiry. split; [done|]. split; [done|]. split.
  - apply Hbefore. rewrite Hexpiry in He. injection He as <-. rewrite Htime.
    by vm_compute.
  - rewrite Hafter, Hposts; [done|].
    rewrite Hexpiry in He'. injection He' as <-. rewrite Htime.
    vm_compute. by intros [=].
Defined.
(** *** What a request does to the metrics *)

Lemma unchanged_bind {A B X} (f : client → X) (m : C A) (k : A → C B) :
  unchanged f m → (∀ a, unchanged f (k a)) → unchanged f (m ≫= k).
Proof.
  intros Hm Hk c r c' [(a & c1 & H1 & H2)|(e & H1 & _)]%cbind_inv.
  - apply Hk in H2. apply Hm in H1. congruence.
  - by apply Hm in H1.
Qed.

Lemma unchanged_ret {A X} (f : client → X) (a : A) : unchanged f (mret a).
Proof. by intros c r c' [= <- <-]. Qed.

Lemma unchanged_raise {A X} (f : client → X) e : unchanged f (@raise A e).
Proof. by intros c r c' [= <- <-]. Qed.

Lemma unchanged_gets {A X} (f : client → X) (g : client → A) : unchanged f (gets g).
Proof. by intros c r c' [= <- <-]. Qed.

Lemma unchanged_modify {X} (f : client → X) (g : client → client) :
  (∀ c, f (g c) = f c) → unchanged f (modify g).
Proof. intros Hg c r c' [= <- <-]. apply Hg. Qed.

Lemma unchanged_apply_middlewares {A X} (f : client → X) (middlewares : list (A → outcome A)) :
  ∀ x, unchanged f (apply_middlewares middlewares x).
Proof.
  induction middlewares as [|middleware rest IH]; intros x; simpl.
  - apply unchanged_ret.
  - destruct (middleware x); [apply IH|apply unchanged_raise].
Qed.

Lemma unchanged_fetch_token net : unchanged bookkeeping (fetch_token net).
Proof.
  intros c r c'. unfold fetch_token, _get_lwa_token, mbind, C_bind.
  destruct (lwa net (posts c)) as [latency [|status|access_token expires_in]];
    simpl; by intros [= <- <-].
Qed.

Lemma unchanged_get_auth_token net : unchanged bookkeeping (get_auth_token net).
Proof.
  intros c r c'. unfold get_auth_token.
  destruct (_access_token c) as [access_token|];
    [destruct (_token_expiry c) as [expiry|]|]; try apply unchanged_fetch_token.
  case_decide; [apply unchanged_fetch_token|].
  destruct (Qle_bool expiry (time c)); [apply unchanged_fetch_token|].
  by intros [= <- <-].
Qed.

Lemma unchanged_do_request net method endpoint params data :
  unchanged bookkeeping (_do_request net method endpoint params data).
Proof.
  unfold _do_request.
  apply unchanged_bind; [apply unchanged_gets|intros url].
  apply unchanged_bind.
  { apply unchanged_bind; [apply unchanged_get_auth_token|intros; apply unchanged_ret]. }
  intros headers. apply unchanged_bind; [apply unchanged_gets|intros n].
  destruct (upstream net n) as [latency reply].
  apply unchanged_bind; [by apply unchanged_modify|intros _].
  destruct reply as [|status body]; [apply unchanged_raise|].
  repeat case_decide; apply unchanged_raise || apply unchanged_ret.
Qed.

Lemma unchanged_acquire endpoint jitter overshoot :
  unchanged bookkeeping (acquire endpoint jitter overshoot).
Proof. by apply unchanged_modify. Qed.

(** The body of the [try]: it either stops before the request is counted,
    or counts it once. *)
Lemma request_body net jitter overshoot method endpoint params data c r c' :
  (acquire endpoint jitter overshoot;;
   start_time ← gets time;
   middlewares ← gets request_middlewares;
   request ← apply_middlewares middlewares (params, data);
   response ← _do_request net method endpoint request.1 request.2;
   count_success start_time;;
   middlewares ← gets response_middlewares;
   apply_middlewares middlewares response) c = (r, c') →
  request_middlewares c' = request_middlewares c ∧
  response_middlewares c' = response_middlewares c ∧
  ((∃ e, r = Raised e ∧ metrics c' = metrics c) ∨
   (∃ t, metrics c' = counted (metrics c) t)).
Proof.
  intros [(u & c1 & H1 & H)|(e & H1 & ->)]%cbind_inv;
    apply unchanged_acquire in H1; injection H1 as Hm Hrq Hrs Hurl.
  2:{ split; [done|]. split; [done|]. left. by exists e. }
  apply cbind_inv in H as [(start_time & c2 & [= <- <-] & H)|(e & [=] & _)].
  apply cbind_inv in H as [(middlewares & c2 & [= <- <-] & H)|(e & [=] & _)].
  apply cbind_inv in H as [(request & c2 & H2 & H)|(e & H2 & ->)];
    apply (unchanged_apply_middlewares bookkeeping) in H2;
    injection H2 as Hm2 Hrq2 Hrs2 Hurl2.
  2:{ split; [congruence|]. split; [congruence|]. left. exists e. split; congruence. }
  apply cbind_inv in H as [(response & c3 & H3 & H)|(e & H3 & ->)];
    apply unchanged_do_request in H3; injection H3 as Hm3 Hrq3 Hrs3 Hurl3.
  2:{ split; [congruence|]. split; [congruence|]. left. exists e. split; congruence. }
  apply cbind_inv in H as [(u' & c4 & [= <- <-] & H)|(e & [=] & _)].
  apply cbind_inv in H as [(middlewares' & c5 & [= <- <-] & H)|(e & [=] & _)].
  apply (unchanged_apply_middlewares bookkeeping) in H. injection H as Hm4 Hrq4 Hrs4 Hurl4.
  simpl in *. split; [congruence|]. split; [congruence|]. right.
  exists (time c3 - time c1). rewrite Hm4. unfold counted. congruence.
Qed.

Lemma sum_dict_set name (errors : list (string * nat)) :
  sum_list (dict_set name (default 0%nat (assoc name errors) + 1)%nat errors).*2
  = (sum_list errors.*2 + 1)%nat.
Proof.
  induction errors as [|[k n] errors IH]; [done|].
  cbn [dict_set assoc]. destruct (decide (k = name)) as [->|Hk].
  - rewrite decide_True by done. simpl. lia.
  - rewrite decide_False by done. unfold fmap in *. simpl in *. rewrite IH. lia.
Qed.

(** X18. Whatever the middlewares, the token endpoint and the API do, a call
    of [_make_request] keeps the counters of the metrics consistent (the
    successful requests are the total and have one response time each, the
    failed ones are those counted by type), moves each of them by at most
    one, counts a call that returns as one successful request, and never
    lets an HTTPError of requests out: it is counted as failed and replaced. *)
Theorem make_request_keeps_metrics (net : network) (jitter overshoot : Q)
    (method endpoint : string) (params data : pyvalue) (c : client) :
  metrics_ok (metrics c) →
  let run := _make_request net jitter overshoot method endpoint params data c in
  let before := metrics c in
  let after := metrics run.2 in
  metrics_ok after ∧
  (∀ name status_code, run.1 ≠ Raised (HTTPError name status_code)) ∧
  (∀ response, run.1 = Returned response →
     total_requests after = total_requests before + 1 ∧
     failed_requests after = failed_requests before)%nat ∧
  (total_requests before ≤ total_requests after ≤ total_requests before + 1)%nat ∧
  (failed_requests before ≤ failed_requests after ≤ failed_requests before + 1)%nat.
Proof.
  intros (Hsucc & Htimes & Hfailed). simpl. unfold _make_request.
  match goal with |- context [match ?body c with _ => _ end] =>
    destruct (body c) as [r c1] eqn:Hbody end.
  apply request_body in Hbody as (_ & _ & Hmetrics).
  assert (Hc1 : metrics_ok (metrics c1) ∧
                (total_requests (metrics c) ≤ total_requests (metrics c1)
                   ≤ total_requests (metrics c) + 1)%nat ∧
                failed_requests (metrics c1) = failed_requests (metrics c) ∧
                (∀ response, r = Returned response →
                   total_requests (metrics c1) = total_requests (metrics c) + 1)%nat).
  { destruct Hmetrics as [(e & -> & ->)|(t & ->)].
    - repeat split; done || lia.
    - unfold metrics_ok. simpl. rewrite length_app. simpl.
      repeat split; done || lia. }
  destruct Hc1 as ((Hsucc1 & Htimes1 & Hfailed1) & Htotal & Hsame & Hreturned).
  destruct r as [response|e]; simpl.
  { specialize (Hreturned response eq_refl).
    split; [done|]. split; [done|]. split; [intros; lia|lia]. }
  destruct e as [m|m|m|name status_code|status| |v|a|n]; simpl;
    try (split; [done|]; split; [done|]; split; [by intros ? [=]|lia]).
  assert (Hcounted : metrics_ok (metrics (count_failure name c1).2) ∧
                     failed_requests (metrics (count_failure name c1).2)
                     = (failed_requests (metrics c1) + 1)%nat ∧
                     total_requests (metrics (count_failure name c1).2)
                     = total_requests (metrics c1)).
  { unfold metrics_ok. cbn [count_failure modify snd metrics set_metrics
      total_requests successful_requests failed_requests response_times errors_by_type].
    rewrite sum_dict_set. repeat split; done || lia. }
  destruct Hcounted as (Hok & Hfailed2 & Htotal2).
  unfold mbind, C_bind.
  destruct (count_failure name c1) as [[[]|e] c2] eqn:Hcount; [|done].
  simpl in *.
  destruct status_code as [status|]; [repeat case_decide|]; simpl;
    (split; [done|]; split; [done|]; split; [by intros ? [=]|lia]).
Qed.

Lemma make_request_keeps_metrics_witness :
  metrics_ok (metrics new_client) ∧
  let run := _make_request throttling 0 0 "GET" "/orders/v0/orders" (PyDict []) (PyDict [])
               new_client in
  metrics_ok (metrics run.2) ∧ (total_requests (metrics run.2) ≤ 1)%nat.
Proof.
  assert (Hok : metrics_ok (metrics new_client)) by (by repeat split).
  split; [exact Hok|].
  destruct (make_request_keeps_metrics throttling 0 0 "GET" "/orders/v0/orders"
              (PyDict []) (PyDict []) new_client Hok) as (Hafter & _ & _ & Htotal & _).
  split; [exact Hafter|]. exact (proj2 Htotal).
Defined.

(** *** A client without middlewares *)

(** X19. On a client without middlewares, an error status of the API other
    than 403 comes out of [_make_request] as the ClientResponseError that
    aiohttp raised: the handler, which is for HTTPError of requests, does
    not apply.  So a 429 is not turned into RateLimitError, and the metrics
    are as they were: the failure is not counted.  The request that was
    sent carried the token of [get_auth_token]. *)
Theorem upstream_errors_pass_uncounted (net : network) (jitter overshoot : Q)
    (method endpoint : string) (params data : pyvalue) (c c1 : client)
    (tok : string) (latency : Q) (status : Z) (body : pyvalue) :
  request_middlewares c = [] → response_middlewares c = [] →
  get_auth_token net (acquired endpoint jitter overshoot c) = (Returned tok, c1) →
  upstream net (length (sent c)) = (latency, Answer status body) →
  (400 ≤ status)%Z → status ≠ 403%Z →
  ∃ c', _make_request net jitter overshoot method endpoint params data c
        = (Raised (ClientResponseError status), c') ∧
        metrics c' = metrics c ∧
        sent c' = sent c ++
          [{| BaseClient.method := method; url := base_url c +:+ endpoint;
              headers := dict_set "x-amz-access-token" tok _get_headers;
              BaseClient.params := params; json := data |}].
Proof.
  intros Hrq Hrs Htoken Hanswer Hstatus Hnot403.
  assert (Hkept : bookkeeping c1 = bookkeeping c ∧ sent c1 = sent c).
  { split.
    - apply unchanged_get_auth_token in Htoken. by rewrite Htoken.
    - revert Htoken. unfold get_auth_token.
      assert (Hfetch : ∀ c0 r c2, fetch_token net c0 = (r, c2) → sent c2 = sent c0).
      { intros c0 r c2. unfold fetch_token, _get_lwa_token, mbind, C_bind.
        destruct (lwa net (posts c0)) as [l [|s|a e]]; simpl; by intros [= <- <-]. }
      destruct (_access_token _) as [access_token|];
        [destruct (_token_expiry _) as [expiry|]|]; try (intros Hf; by apply Hfetch in Hf).
      case_decide; [intros Hf; by apply Hfetch in Hf|].
      destruct (Qle_bool _ _); [intros Hf; by apply Hfetch in Hf|].
      by intros [= <- <-]. }
  destruct Hkept as [Hbook Hsent]. injection Hbook as Hm1 Hrq1 Hrs1 Hurl1.
  unfold _make_request.
  match goal with |- context [match ?body c with _ => _ end] =>
    assert (Hbody : body c =
      (Raised (ClientResponseError status),
       requested {| BaseClient.method := method; url := base_url c +:+ endpoint;
                    headers := dict_set "x-amz-access-token" tok _get_headers;
                    BaseClient.params := params; json := data |} latency c1)) end.
  { remember (acquired endpoint jitter overshoot c) as c0 eqn:Hc0.
    assert (Hacquire : acquire endpoint jitter overshoot c = (Returned tt, c0))
      by (by subst c0).
    assert (Hrq0 : request_middlewares c0 = []) by (by subst c0; rewrite <- Hrq).
    assert (Hurl0 : base_url c0 = base_url c) by (by subst c0).
    assert (Hsent0 : sent c0 = sent c) by (by subst c0).
    assert (Hdo : _do_request net method endpoint params data c0
                  = (Raised (ClientResponseError status),
                     requested {| BaseClient.method := method;
                                  url := base_url c +:+ endpoint;
                                  headers := dict_set "x-amz-access-token" tok _get_headers;
                                  BaseClient.params := params; json := data |}
                               latency c1)).
    { unfold _do_request, get_headers, mbind, C_bind, gets. rewrite Htoken.
      cbn [mret C_ret]. rewrite Hsent, Hanswer, Hurl0. unfold modify.
      rewrite decide_False by done. rewrite decide_True by done.
      reflexivity. }
    erewrite cbind_ok by exact Hacquire.
    erewrite cbind_ok by reflexivity.
    erewrite cbind_ok by reflexivity.
    rewrite Hrq0.
    erewrite cbind_ok by reflexivity.
    cbn [fst snd].
    by erewrite cbind_raise by exact Hdo. }
  rewrite Hbody. eexists. split; [reflexivity|]. simpl.
  split; [done|]. by rewrite Hsent.
Qed.

Lemma upstream_errors_pass_uncounted_witness :
  ∃ c', _make_request throttling 0 0 "GET" "/orders/v0/orders" (PyDict []) (PyDict [])
          new_client = (Raised (ClientResponseError 429), c') ∧
        failed_requests (metrics c') = 0%nat.
Proof.
  destruct (get_auth_token throttling (acquired "/orders/v0/orders" 0 0 new_client))
    as [r c1] eqn:Htoken.
  assert (Hr : r = Returned "Atza|token") by (by injection Htoken as <- _).
  subst r.
  destruct (upstream_errors_pass_uncounted throttling 0 0 "GET" "/orders/v0/orders"
              (PyDict []) (PyDict []) new_client c1 "Atza|token" (1 # 4) 429 (PyDict [])
              eq_refl eq_refl Htoken eq_refl ltac:(done) ltac:(done))
    as (c' & Hrun & Hmetrics & _).
  exists c'. split; [exact Hrun|]. by rewrite Hmetrics.
Defined.
End client.
